(** * Towers of Hanoi: game state, move engine and solver

    A shallow embedding of [js/gameState.js], [js/gameEngine.js] and
    [js/solverEngine.js], followed by the properties of the engine that the
    specification states and by further properties of the engine, the
    solver and auto-solve.

    Conventions of the embedding.
    - JavaScript numbers that hold disk ranks, counters and times are
      integers of [Z]; every value the engine computes with them stays far
      below 2^53, where double arithmetic is exact.
    - A disk array is a [list Z] written bottom to top, as in the source:
      [push] and [pop] work at the end of the list.
    - The game state is mutated in place by the source; here every operation
      returns the state it leaves behind next to its result object.
    - [new Date()] is a parameter of the operation that reads the clock.
    - Error objects keep their [type]; message, details and timestamp of an
      error are presentation and are left out.
    - Auto-solve runs on a page: the timeouts it sets, the animations it
      queues and the callbacks it calls are kept with the solver, and what
      the page does is a sequence of events. *)

From Stdlib Require Import String ZArith List Bool Lia Permutation Sorted.
From Stdlib Require DecimalString.
Import ListNotations.
Open Scope Z_scope.

(** ** JavaScript values and completions *)

(** The values that can reach a parameter documented as a number.  Only the
    distinctions the engine itself makes are kept: [Number.isInteger]
    holds exactly of [JsInt], and [JsUndefined] triggers default
    parameters. *)
Inductive JsValue : Type :=
| JsInt (z : Z)
| JsUndefined
| JsOther.

(** How a call ends.  [Throws] is an exception that leaves the function.
    [PushesUndefined] is a normal return of the source after it pushed the
    [undefined] obtained by popping an empty array onto a rod: the state it
    leaves has a rod that is no list of integers. *)
Inductive Completion (A : Type) : Type :=
| Returns (a : A)
| Throws (message : string)
| PushesUndefined.

Arguments Returns {A} a.
Arguments Throws {A} message.
Arguments PushesUndefined {A}.

Module JsArray.
Section Ops.
Context {A : Type}.

(** [a.push(x)] *)
Definition push (a : list A) (x : A) : list A := a ++ [x].

(** [a.pop()]: the removed last element ([None] for [undefined]) and
    the array that is left. *)
Definition pop (a : list A) : option A * list A :=
  match rev a with
  | [] => (None, [])
  | x :: r => (Some x, rev r)
  end.

(** [a[a.length - 1]] *)
Definition top (a : list A) : option A := fst (pop a).
End Ops.

(** [for (i = lo; i <= hi; i++)] as the list of the values [i] takes. *)
Definition range (lo hi : Z) : list Z :=
  map (fun k => lo + Z.of_nat k) (seq 0 (Z.to_nat (hi - lo + 1))).

(** [for (i = hi; i >= 1; i--)] as the list of the values [i] takes. *)
Fixpoint countdown (hi : nat) : list Z :=
  match hi with
  | O => []
  | S k => Z.of_nat hi :: countdown k
  end.
End JsArray.

(** ** Data model *)

Inductive RodIndex : Type := Rod0 | Rod1 | Rod2.

Definition rodNumber (r : RodIndex) : Z :=
  match r with Rod0 => 0 | Rod1 => 1 | Rod2 => 2 end.

Definition RodIndex_eqb (a b : RodIndex) : bool := rodNumber a =? rodNumber b.

(** [!(!Number.isInteger(v) || v < 0 || v > 2)], with the index it names. *)
Definition toRodIndex (v : JsValue) : option RodIndex :=
  match v with
  | JsInt 0 => Some Rod0
  | JsInt 1 => Some Rod1
  | JsInt 2 => Some Rod2
  | _ => None
  end.

(** [gameState.rods]: the array built by [createGameState] always has the
    three rod objects with ids 0, 1 and 2, and no operation replaces it;
    only the [disks] arrays inside change. *)
Record Rods : Type := mkRods {
  rod0 : list Z;
  rod1 : list Z;
  rod2 : list Z
}.

Definition disksOf (r : Rods) (i : RodIndex) : list Z :=
  match i with Rod0 => rod0 r | Rod1 => rod1 r | Rod2 => rod2 r end.

Definition setDisks (r : Rods) (i : RodIndex) (d : list Z) : Rods :=
  match i with
  | Rod0 => mkRods d (rod1 r) (rod2 r)
  | Rod1 => mkRods (rod0 r) d (rod2 r)
  | Rod2 => mkRods (rod0 r) (rod1 r) d
  end.

(** [rods.flatMap(rod => rod.disks)] *)
Definition allDisks (r : Rods) : list Z := rod0 r ++ rod1 r ++ rod2 r.

Record Move : Type := mkMove {
  fromRod : RodIndex;
  toRod : RodIndex;
  diskId : Z;
  moveNumber : Z;
  timestamp : Z;
  duration : option Z
}.

Record Settings : Type := mkSettings {
  numDisks : Z;
  animationSpeed : Z;
  showHints : bool;
  autoSolveSpeed : Z
}.

Record Metadata : Type := mkMetadata {
  gameStartTime : Z;
  lastMoveTime : option Z;
  optimalMoves : Z;
  gameEndTime : option Z;
  totalGameTime : option Z
}.

Record gameState : Type := mkGameState {
  rods : Rods;
  selectedDisk : option Z;
  selectedRod : option RodIndex;
  moveCount : Z;
  gameComplete : bool;
  moveHistory : list Move;
  settings : Settings;
  metadata : Metadata
}.

(** ** js/gameState.js *)

Module GameState.
Import JsArray.

(** [createMove(fromRod, toRod, diskId, moveNumber)]; every failed guard
    throws. *)
Definition createMove (fromRod toRod diskId : JsValue) (moveNumber : Z)
    (now : Z) : Completion Move :=
  match toRodIndex fromRod with
  | None => Throws "fromRod must be an integer between 0 and 2"
  | Some f =>
    match toRodIndex toRod with
    | None => Throws "toRod must be an integer between 0 and 2"
    | Some t =>
      if RodIndex_eqb f t then Throws "fromRod and toRod cannot be the same"
      else
        match diskId with
        | JsInt d =>
          if d <? 1 then Throws "diskId must be a positive integer"
          else if moveNumber <? 1
               then Throws "moveNumber must be a positive integer"
               else Returns (mkMove f t d moveNumber now None)
        | _ => Throws "diskId must be a positive integer"
        end
    end
  end.

(** The initial stack [numDisks, ..., 1]. *)
Definition initialDisks (numDisks : Z) : list Z := countdown (Z.to_nat numDisks).

(** [createGameState(numDisks = 3)] *)
Definition createGameState (arg : JsValue) (now : Z) : Completion gameState :=
  let numDisks := match arg with JsUndefined => JsInt 3 | v => v end in
  match numDisks with
  | JsInt n =>
    if (n <? 3) || (n >? 8)
    then Throws "Number of disks must be an integer between 3 and 8"
    else Returns
      {| rods := mkRods (initialDisks n) [] [];
         selectedDisk := None;
         selectedRod := None;
         moveCount := 0;
         gameComplete := false;
         moveHistory := [];
         settings := mkSettings n 300 true 500;
         metadata := mkMetadata now None (2 ^ n - 1) None None |}
  | _ => Throws "Number of disks must be an integer between 3 and 8"
  end.

(** The ordering loop of [validateGameState] over one rod: it throws as
    soon as [disks[j] >= disks[j - 1]]. *)
Fixpoint descendingOrder (disks : list Z) : bool :=
  match disks with
  | below :: ((above :: _) as rest) =>
    if above >=? below then false else descendingOrder rest
  | _ => true
  end.

(** [validateGameState(gameState)]: [true] when it returns, [false] when
    it throws.  The structural checks (required properties, three rods
    with ids 0..2, arrays, integer counters) hold by typing. *)
Definition validateGameState (gs : gameState) : bool :=
  let all := allDisks (rods gs) in
  let n := numDisks (settings gs) in
  descendingOrder (rod0 (rods gs))
  && descendingOrder (rod1 (rods gs))
  && descendingOrder (rod2 (rods gs))
  && (Z.of_nat (length all) =? n)
  && (Z.of_nat (length (nodup Z.eq_dec all)) =? n)
  && forallb (fun i => existsb (Z.eqb i) all) (range 1 n)
  && negb ((n <? 3) || (n >? 8))
  && negb (animationSpeed (settings gs) <? 100)
  && negb (moveCount gs <? 0)
  && (Z.of_nat (length (moveHistory gs)) =? moveCount gs).

(** [isGameWon(gameState)] *)
Definition isGameWon (gs : gameState) : bool :=
  let rightRod := rod2 (rods gs) in
  let n := numDisks (settings gs) in
  if negb (Z.of_nat (length rightRod) =? n) then false
  else forallb
         (fun i => match nth_error rightRod (Z.to_nat i) with
                   | Some d => d =? n - i
                   | None => false
                   end)
         (range 0 (n - 1)).
(** [validateMove(move)] of this file, on a record of type [Move]: [true]
    when it returns, [false] when it throws.  The checks on the presence
    and the types of the properties hold by typing. *)
Definition validateMove (move : Move) : bool :=
  negb (RodIndex_eqb (fromRod move) (toRod move))
  && negb (diskId move <? 1)
  && negb (moveNumber move <? 1).

(** [cloneGameState(gameState)]: every array and object is rebuilt. *)
Definition cloneGameState (gs : gameState) : gameState :=
  {| rods := mkRods (rod0 (rods gs)) (rod1 (rods gs)) (rod2 (rods gs));
     selectedDisk := selectedDisk gs;
     selectedRod := selectedRod gs;
     moveCount := moveCount gs;
     gameComplete := gameComplete gs;
     moveHistory :=
       map (fun move => mkMove (fromRod move) (toRod move) (diskId move)
                          (moveNumber move) (timestamp move) (duration move))
           (moveHistory gs);
     settings := mkSettings (numDisks (settings gs)) (animationSpeed (settings gs))
                   (showHints (settings gs)) (autoSolveSpeed (settings gs));
     metadata := mkMetadata (gameStartTime (metadata gs)) (lastMoveTime (metadata gs))
                   (optimalMoves (metadata gs)) (gameEndTime (metadata gs))
                   (totalGameTime (metadata gs)) |}.

(** [resetGameState(gameState)] *)
Definition resetGameState (gs : gameState) (now : Z) : Completion gameState :=
  match createGameState (JsInt (numDisks (settings gs))) now with
  | Returns newState =>
    Returns
      {| rods := rods newState;
         selectedDisk := selectedDisk newState;
         selectedRod := selectedRod newState;
         moveCount := moveCount newState;
         gameComplete := gameComplete newState;
         moveHistory := moveHistory newState;
         settings := mkSettings (numDisks (settings gs)) (animationSpeed (settings gs))
                       (showHints (settings gs)) (autoSolveSpeed (settings gs));
         metadata := metadata newState |}
  | Throws message => Throws message
  | PushesUndefined => PushesUndefined
  end.

(** *** Disks *)

Module Disk.
(** The object [createDisk] returns.  A string is a sequence of code
    units below 256, and the numbers of a position are integers. *)
Record Disk : Type := mkDisk {
  id : Z;
  size : Z;
  color : string;
  position : Z * Z;
  rod : Z;
  isSelected : bool;
  isAnimating : bool
}.
End Disk.

(** The [position] argument of [createDisk]: left out, an object with
    numbers [x] and [y], or any other value. *)
Inductive PositionArg : Type :=
| NoPosition
| PositionAt (x y : Z)
| BadPosition.

(** The code units below 256 that [trim] removes: tab, line feed, vertical
    tab, form feed, carriage return, space and no-break space. *)
Definition isWhiteSpace (c : Ascii.ascii) : bool :=
  existsb (Nat.eqb (Ascii.nat_of_ascii c)) [9; 10; 11; 12; 13; 32; 160]%nat.

(** [!color.trim()]: nothing is left of a string after trimming exactly
    when all of it is white space. *)
Fixpoint blank (color : string) : bool :=
  match color with
  | EmptyString => true
  | String c rest => isWhiteSpace c && blank rest
  end.

(** [createDisk(id, size, color, position = { x: 0, y: 0 }, rod = 0)];
    [color] is [None] when the argument is no string. *)
Definition createDisk (id size : JsValue) (color : option string)
    (position : PositionArg) (rod : JsValue) : Completion Disk.Disk :=
  match id with
  | JsInt i =>
    if i <? 1 then Throws "Disk id must be a positive integer"
    else
      match size with
      | JsInt s =>
        if s <? 1 then Throws "Disk size must be a positive integer"
        else
          match color with
          | Some c =>
            if blank c then Throws "Disk color must be a non-empty string"
            else
              match match position with
                    | NoPosition => Some (0, 0)
                    | PositionAt x y => Some (x, y)
                    | BadPosition => None
                    end with
              | Some xy =>
                match match rod with JsUndefined => JsInt 0 | v => v end with
                | JsInt r =>
                  if (r <? 0) || (r >? 2)
                  then Throws "Disk rod must be an integer between 0 and 2"
                  else Returns (Disk.mkDisk i s c xy r false false)
                | _ => Throws "Disk rod must be an integer between 0 and 2"
                end
              | None =>
                Throws "Disk position must be an object with numeric x and y properties"
              end
          | None => Throws "Disk color must be a non-empty string"
          end
      | _ => Throws "Disk size must be a positive integer"
      end
  | _ => Throws "Disk id must be a positive integer"
  end.

(** [validateDisk(disk)] on a record of type [Disk]: [true] when it
    returns, [false] when it throws.  The checks on the presence and the
    types of the properties hold by typing. *)
Definition validateDisk (disk : Disk.Disk) : bool :=
  negb (Disk.id disk <? 1)
  && negb (Disk.size disk <? 1)
  && negb (blank (Disk.color disk))
  && negb ((Disk.rod disk <? 0) || (Disk.rod disk >? 2)).

(** The [colors] array of [getDiskColor]. *)
Definition colors : list string :=
  ["#e53e3e"; "#fd9801"; "#ecc94b"; "#38a169"; "#3182ce"; "#805ad5"; "#d53f8c";
   "#2d3748"]%string.

(** [getDiskColor(diskSize, totalDisks)] for an integer [diskSize];
    [None] is [undefined], what the array yields at a negative index. *)
Definition getDiskColor (diskSize totalDisks : Z) : option string :=
  let colorIndex := Z.min (diskSize - 1) (Z.of_nat (length colors) - 1) in
  if colorIndex <? 0 then None else nth_error colors (Z.to_nat colorIndex).

(** The loop of [createDisks] over the sizes still to come. *)
Fixpoint createDisksFrom (sizes : list Z) (numDisks : Z) (disks : list Disk.Disk)
    : Completion (list Disk.Disk) :=
  match sizes with
  | [] => Returns disks
  | i :: rest =>
    match createDisk (JsInt i) (JsInt i) (getDiskColor i numDisks) (PositionAt 0 0)
            (JsInt 0) with
    | Returns disk => createDisksFrom rest numDisks (push disks disk)
    | Throws message => Throws message
    | PushesUndefined => PushesUndefined
    end
  end.

(** [createDisks(numDisks)] *)
Definition createDisks (numDisks : JsValue) : Completion (list Disk.Disk) :=
  match numDisks with
  | JsInt n =>
    if (n <? 1) || (n >? 8)
    then Throws "Number of disks must be an integer between 1 and 8"
    else createDisksFrom (range 1 n) n []
  | _ => Throws "Number of disks must be an integer between 1 and 8"
  end.
End GameState.

(** ** js/gameEngine.js *)

Module GameEngine.
Import JsArray GameState.

(** The [MoveError] enumeration; the remaining error types are the string
    literals the engine passes to [createMoveError]. *)
Module MoveError.
Definition INVALID_SOURCE_ROD : string := "INVALID_SOURCE_ROD".
Definition INVALID_TARGET_ROD : string := "INVALID_TARGET_ROD".
Definition EMPTY_SOURCE_ROD : string := "EMPTY_SOURCE_ROD".
Definition LARGER_ON_SMALLER : string := "LARGER_ON_SMALLER".
Definition SAME_ROD : string := "SAME_ROD".
Definition GAME_COMPLETE : string := "GAME_COMPLETE".
Definition INVALID_GAME_STATE : string := "INVALID_GAME_STATE".
End MoveError.

Record ErrorObject : Type := mkError { type : string }.

Definition createMoveError (type : string) : ErrorObject := mkError type.

(** [{ isValid: true }] or [{ isValid: false, error }] *)
Inductive Validation : Type :=
| Valid
| Invalid (error : ErrorObject).

Definition isValid (v : Validation) : bool :=
  match v with Valid => true | Invalid _ => false end.

(** [validateMove(gameState, fromRod, toRod)] *)
Definition validateMove (gs : gameState) (fromRod toRod : JsValue) : Validation :=
  if negb (validateGameState gs)
  then Invalid (createMoveError MoveError.INVALID_GAME_STATE)
  else if gameComplete gs
  then Invalid (createMoveError MoveError.GAME_COMPLETE)
  else
    match toRodIndex fromRod with
    | None => Invalid (createMoveError MoveError.INVALID_SOURCE_ROD)
    | Some f =>
      match toRodIndex toRod with
      | None => Invalid (createMoveError MoveError.INVALID_TARGET_ROD)
      | Some t =>
        if RodIndex_eqb f t
        then Invalid (createMoveError MoveError.SAME_ROD)
        else
          let sourceRod := disksOf (rods gs) f in
          let targetRod := disksOf (rods gs) t in
          match top sourceRod with
          | None => Invalid (createMoveError MoveError.EMPTY_SOURCE_ROD)
          | Some diskToMove =>
            match top targetRod with
            | Some topDiskOnTarget =>
              if diskToMove >=? topDiskOnTarget
              then Invalid (createMoveError MoveError.LARGER_ON_SMALLER)
              else Valid
            | None => Valid
            end
          end
      end
    end.

(** The part of [getMoveInfo]'s answer that the engine reads back:
    [diskToMove] is [null] for a rejected move and the source rod's top
    disk otherwise. *)
Definition getMoveInfo (gs : gameState) (fromRod toRod : JsValue) : JsValue :=
  match validateMove gs fromRod toRod with
  | Invalid _ => JsOther
  | Valid =>
    match toRodIndex fromRod with
    | Some f =>
      match top (disksOf (rods gs) f) with
      | Some d => JsInt d
      | None => JsUndefined
      end
    | None => JsUndefined
    end
  end.

(** [getValidDestinations(gameState, fromRod)] *)
Definition getValidDestinations (gs : gameState) (fromRod : RodIndex) : list RodIndex :=
  filter
    (fun toRod =>
       negb (RodIndex_eqb fromRod toRod)
       && isValid (validateMove gs (JsInt (rodNumber fromRod)) (JsInt (rodNumber toRod))))
    [Rod0; Rod1; Rod2].

(** The result objects of the mutating operations. *)
Inductive Result : Type :=
| Failure (error : ErrorObject)
| MoveDone (move : Move) (diskMoved : Z) (completed : bool)
| UndoDone (undoneMove : Move) (diskMoved : Z)
| Selected (disk : Z) (rod : RodIndex) (validDestinations : list RodIndex)
| Cleared (previousDisk : option Z) (previousRod : option RodIndex).

Definition success (r : Result) : bool :=
  match r with Failure _ => false | _ => true end.

(** [const d = rods[src].disks.pop(); rods[dst].disks.push(d);]
    [None] when the pop yields [undefined]. *)
Definition transfer (r : Rods) (src dst : RodIndex) : option (Z * Rods) :=
  match pop (disksOf r src) with
  | (Some d, rest) =>
    let r1 := setDisks r src rest in
    Some (d, setDisks r1 dst (push (disksOf r1 dst) d))
  | (None, _) => None
  end.

(** The same two statements with the rods named by arbitrary values:
    [rods[v]] is [undefined] unless [v] is 0, 1 or 2, and reading its
    [disks] is then a [TypeError]. *)
Definition rodDisks_transfer (r : Rods) (src dst : JsValue) : Completion (Z * Rods) :=
  match toRodIndex src, toRodIndex dst with
  | Some s, Some d =>
    match transfer r s d with
    | Some res => Returns res
    | None => PushesUndefined
    end
  | _, _ => Throws "TypeError: cannot read properties of undefined"
  end.

(** [makeMove(gameState, fromRod, toRod)].  [now k] is the value of the
    k-th [new Date()] of the call: the move's timestamp, [lastMoveTime]
    and [gameEndTime]. *)
Definition makeMove (gs : gameState) (fromRod toRod : JsValue) (now : nat -> Z)
    : Completion (Result * gameState) :=
  match validateMove gs fromRod toRod with
  | Invalid error => Returns (Failure error, gs)
  | Valid =>
    let diskToMove := getMoveInfo gs fromRod toRod in
    match createMove fromRod toRod diskToMove (moveCount gs + 1) (now 0%nat) with
    | Throws message => Throws message
    | PushesUndefined => PushesUndefined
    | Returns move =>
      match rodDisks_transfer (rods gs) fromRod toRod with
      | Throws message => Throws message
      | PushesUndefined => PushesUndefined
      | Returns (movedDisk, rods') =>
        let md := metadata gs in
        let gs1 :=
          {| rods := rods';
             selectedDisk := None;
             selectedRod := None;
             moveCount := moveCount gs + 1;
             gameComplete := gameComplete gs;
             moveHistory := push (moveHistory gs) move;
             settings := settings gs;
             metadata := mkMetadata (gameStartTime md) (Some (now 1%nat))
                           (optimalMoves md) (gameEndTime md) (totalGameTime md) |} in
        let isWon := isGameWon gs1 in
        let gs2 :=
          if isWon && negb (gameComplete gs1)
          then
            {| rods := rods gs1;
               selectedDisk := selectedDisk gs1;
               selectedRod := selectedRod gs1;
               moveCount := moveCount gs1;
               gameComplete := true;
               moveHistory := moveHistory gs1;
               settings := settings gs1;
               metadata := mkMetadata (gameStartTime md) (Some (now 1%nat))
                             (optimalMoves md) (Some (now 2%nat))
                             (Some (now 2%nat - gameStartTime md)) |}
          else gs1 in
        Returns (MoveDone move (diskId move) (gameComplete gs2), gs2)
      end
    end
  end.

(** [undoLastMove(gameState)] *)
Definition undoLastMove (gs : gameState) : Completion (Result * gameState) :=
  if Z.of_nat (length (moveHistory gs)) =? 0
  then Returns (Failure (createMoveError "NO_MOVES_TO_UNDO"), gs)
  else if gameComplete gs
  then Returns (Failure (createMoveError "CANNOT_UNDO_COMPLETE_GAME"), gs)
  else
    match pop (moveHistory gs) with
    | (None, _) => Throws "TypeError: cannot read properties of undefined"
    | (Some lastMove, history') =>
      match transfer (rods gs) (toRod lastMove) (fromRod lastMove) with
      | None => PushesUndefined
      | Some (diskToMove, rods') =>
        let md := metadata gs in
        Returns
          (UndoDone lastMove diskToMove,
           {| rods := rods';
              selectedDisk := None;
              selectedRod := None;
              moveCount := moveCount gs - 1;
              gameComplete := gameComplete gs;
              moveHistory := history';
              settings := settings gs;
              metadata := mkMetadata (gameStartTime md)
                            (option_map timestamp (top history'))
                            (optimalMoves md) (gameEndTime md) (totalGameTime md) |})
      end
    end.

(** [selectDisk(gameState, rodIndex)] *)
Definition selectDisk (gs : gameState) (rodIndex : JsValue) : Result * gameState :=
  match toRodIndex rodIndex with
  | None => (Failure (createMoveError "INVALID_ROD_INDEX"), gs)
  | Some i =>
    match top (disksOf (rods gs) i) with
    | None => (Failure (createMoveError "EMPTY_ROD_SELECTION"), gs)
    | Some topDisk =>
      let gs' :=
        {| rods := rods gs;
           selectedDisk := Some topDisk;
           selectedRod := Some i;
           moveCount := moveCount gs;
           gameComplete := gameComplete gs;
           moveHistory := moveHistory gs;
           settings := settings gs;
           metadata := metadata gs |} in
      (Selected topDisk i (getValidDestinations gs' i), gs')
    end
  end.

(** [clearSelection(gameState)] *)
Definition clearSelection (gs : gameState) : Result * gameState :=
  (Cleared (selectedDisk gs) (selectedRod gs),
   {| rods := rods gs;
      selectedDisk := None;
      selectedRod := None;
      moveCount := moveCount gs;
      gameComplete := gameComplete gs;
      moveHistory := moveHistory gs;
      settings := settings gs;
      metadata := metadata gs |}).

(** [moveSelectedDisk(gameState, targetRod)] *)
Definition moveSelectedDisk (gs : gameState) (targetRod : JsValue) (now : nat -> Z)
    : Completion (Result * gameState) :=
  match selectedDisk gs, selectedRod gs with
  | Some _, Some r => makeMove gs (JsInt (rodNumber r)) targetRod now
  | _, _ => Returns (Failure (createMoveError "NO_DISK_SELECTED"), gs)
  end.
(** Sequencing of calls that may throw. *)
Definition bind {A B : Type} (c : Completion A) (k : A -> Completion B) : Completion B :=
  match c with
  | Returns a => k a
  | Throws message => Throws message
  | PushesUndefined => PushesUndefined
  end.

(** The object [getMoveInfo] returns. *)
Inductive MoveInfo : Type :=
| RejectedMove (error : ErrorObject) (sourceRod targetRod : JsValue)
| AcceptedMove (diskToMove : JsValue) (sourceRod targetRod : RodIndex)
    (sourceRodDisks targetRodDisks : list Z) (moveNumber : Z).

(** [getMoveInfo(gameState, fromRod, toRod)] with all the properties of its
    answer. *)
Definition getMoveInfoObject (gs : gameState) (fromRod toRod : JsValue)
    : Completion MoveInfo :=
  match validateMove gs fromRod toRod with
  | Invalid error => Returns (RejectedMove error fromRod toRod)
  | Valid =>
    match toRodIndex fromRod, toRodIndex toRod with
    | Some f, Some t =>
      let sourceRod := disksOf (rods gs) f in
      let targetRod := disksOf (rods gs) t in
      Returns (AcceptedMove
                 (match top sourceRod with Some d => JsInt d | None => JsUndefined end)
                 f t sourceRod targetRod (moveCount gs + 1))
    | _, _ => Throws "TypeError: cannot read properties of undefined"
    end
  end.

(** The pairs the two nested loops over the rods visit, in order. *)
Definition rodPairs : list (RodIndex * RodIndex) :=
  flat_map (fun fromRod => map (pair fromRod) [Rod0; Rod1; Rod2]) [Rod0; Rod1; Rod2].

(** The body of the loops of [getValidMoves] over the pairs still to
    visit. *)
Fixpoint collectValidMoves (gs : gameState) (pairs : list (RodIndex * RodIndex))
    : Completion (list MoveInfo) :=
  match pairs with
  | [] => Returns []
  | (fromRod, toRod) :: rest =>
    let f := JsInt (rodNumber fromRod) in
    let t := JsInt (rodNumber toRod) in
    if negb (RodIndex_eqb fromRod toRod) && isValid (validateMove gs f t)
    then bind (getMoveInfoObject gs f t) (fun moveInfo =>
         bind (collectValidMoves gs rest) (fun validMoves =>
         Returns (moveInfo :: validMoves)))
    else collectValidMoves gs rest
  end.

(** [getValidMoves(gameState)] *)
Definition getValidMoves (gs : gameState) : Completion (list MoveInfo) :=
  collectValidMoves gs rodPairs.

(** [disks.indexOf(diskId)]: the first position holding [diskId]. *)
Fixpoint indexOf (disks : list Z) (diskId : Z) : option nat :=
  match disks with
  | [] => None
  | d :: rest =>
    if d =? diskId then Some O
    else match indexOf rest diskId with
         | Some position => Some (S position)
         | None => None
         end
  end.

(** The answer of [canMoveDisk]. *)
Inductive DiskMobility : Type :=
| DiskNotFound
| DiskFound (canMove : bool) (rodIndex : RodIndex) (position totalDisksOnRod : nat).

(** [canMoveDisk(gameState, diskId)]; only a number with an integer value
    can be found on a rod. *)
Definition canMoveDisk (gs : gameState) (diskId : JsValue) : DiskMobility :=
  let search rodIndex :=
    match diskId with
    | JsInt d => indexOf (disksOf (rods gs) rodIndex) d
    | _ => None
    end in
  let found rodIndex position :=
    let total := length (disksOf (rods gs) rodIndex) in
    DiskFound (Z.of_nat position =? Z.of_nat total - 1) rodIndex position total in
  match search Rod0 with
  | Some position => found Rod0 position
  | None =>
    match search Rod1 with
    | Some position => found Rod1 position
    | None =>
      match search Rod2 with
      | Some position => found Rod2 position
      | None => DiskNotFound
      end
    end
  end.

(** The answer of [validateGameConfiguration]. *)
Inductive Configuration : Type :=
| BadConfiguration
| GoodConfiguration (hasValidMoves isWon : bool) (validMoveCount : nat)
    (canContinue : bool).

(** [validateGameConfiguration(gameState)]; whatever is thrown inside is
    caught. *)
Definition validateGameConfiguration (gs : gameState) : Configuration :=
  if negb (validateGameState gs) then BadConfiguration
  else
    match getValidMoves gs with
    | Returns validMoves =>
      let hasValidMoves := (0 <? length validMoves)%nat in
      let isWon := isGameWon gs in
      GoodConfiguration hasValidMoves isWon (length validMoves)
        (negb isWon && hasValidMoves)
    | _ => BadConfiguration
    end.

(** A value whose [typeof] is ['number']: one with an integer value, or any
    other (a fraction, [NaN], an infinity). *)
Inductive JsNumber : Type :=
| NumInt (z : Z)
| NumOther.

Definition numberValue (x : JsNumber) : JsValue :=
  match x with NumInt z => JsInt z | NumOther => JsOther end.

(** An element of the [moves] array: an object whose [fromRod] and [toRod]
    are numbers, or anything else. *)
Inductive SequenceItem : Type :=
| MoveItem (fromRod toRod : JsNumber)
| NotAMove.

(** The [moves] argument. *)
Inductive MovesArgument : Type :=
| MovesArray (moves : list SequenceItem)
| NotAnArray.

(** [{ ...move, moveNumber, diskToMove }] *)
Record ValidatedMove : Type := mkValidatedMove {
  validatedFrom : JsNumber;
  validatedTo : JsNumber;
  validatedNumber : Z;
  validatedDisk : Z
}.

(** The answer of [validateMoveSequence]. *)
Inductive SequenceValidation : Type :=
| SequenceValid (validatedMoves : list ValidatedMove) (totalMoves : nat)
| SequenceNotArray
| SequenceBadFormat (index : nat) (validatedMoves : list ValidatedMove)
| SequenceBadMove (failedMoveIndex : nat) (failedMove : SequenceItem)
    (moveError : ErrorObject) (validatedMoves : list ValidatedMove).

Definition sequenceIsValid (v : SequenceValidation) : bool :=
  match v with SequenceValid _ _ => true | _ => false end.

(** The loop of [validateMoveSequence] from index [i] on: [currentState] is
    the clone the moves are simulated on; a simulated move pops, pushes and
    counts, and does not touch the history of the clone. *)
Fixpoint validateMovesFrom (currentState : gameState) (moves : list SequenceItem)
    (i : nat) (validatedMoves : list ValidatedMove) : Completion SequenceValidation :=
  match moves with
  | [] => Returns (SequenceValid validatedMoves i)
  | NotAMove :: _ => Returns (SequenceBadFormat i validatedMoves)
  | MoveItem fromRod toRod as move :: rest =>
    match validateMove currentState (numberValue fromRod) (numberValue toRod) with
    | Invalid error => Returns (SequenceBadMove i move error validatedMoves)
    | Valid =>
      bind (rodDisks_transfer (rods currentState) (numberValue fromRod) (numberValue toRod))
        (fun '(diskToMove, rods') =>
           validateMovesFrom
             {| rods := rods';
                selectedDisk := selectedDisk currentState;
                selectedRod := selectedRod currentState;
                moveCount := moveCount currentState + 1;
                gameComplete := gameComplete currentState;
                moveHistory := moveHistory currentState;
                settings := settings currentState;
                metadata := metadata currentState |}
             rest (S i)
             (push validatedMoves
                (mkValidatedMove fromRod toRod (Z.of_nat i + 1) diskToMove)))
    end
  end.

(** [validateMoveSequence(gameState, moves)] *)
Definition validateMoveSequence (gs : gameState) (moves : MovesArgument)
    : Completion SequenceValidation :=
  match moves with
  | NotAnArray => Returns SequenceNotArray
  | MovesArray moves => validateMovesFrom (cloneGameState gs) moves 0 []
  end.

(** The answer of [executeMoveSequence]. *)
Inductive SequenceExecution : Type :=
| SequenceExecuted (executedMoves : list Result) (totalMoves : nat)
| SequenceRefused (validation : SequenceValidation)
| SequenceFailed (error : ErrorObject) (executedMoves : list Result).

Definition sequenceSucceeded (e : SequenceExecution) : bool :=
  match e with SequenceExecuted _ _ => true | _ => false end.

(** The loop of [executeMoveSequence] inside its [try]: a refused move and
    an exception both restore [originalState].  [clock i] is the clock read
    by the call for the move at index [i].  The loop runs only on an array
    that [validateMoveSequence] has accepted, whose elements are all of the
    form [MoveItem]; the branch for another element stands for the
    exception that reading [fromRod] of [null] raises. *)
Fixpoint executeMovesFrom (gs originalState : gameState) (moves : list SequenceItem)
    (i total : nat) (executedMoves : list Result) (clock : nat -> nat -> Z)
    : Completion (SequenceExecution * gameState) :=
  match moves with
  | [] => Returns (SequenceExecuted executedMoves total, gs)
  | NotAMove :: _ =>
    Returns (SequenceFailed (createMoveError "EXECUTION_ERROR") executedMoves,
             originalState)
  | MoveItem fromRod toRod :: rest =>
    match makeMove gs (numberValue fromRod) (numberValue toRod) (clock i) with
    | Returns (Failure error, _) =>
      Returns (SequenceFailed error executedMoves, originalState)
    | Returns (result, gs') =>
      executeMovesFrom gs' originalState rest (S i) total (push executedMoves result) clock
    | Throws message =>
      Returns (SequenceFailed (createMoveError "EXECUTION_ERROR") executedMoves,
               originalState)
    | PushesUndefined => PushesUndefined
    end
  end.

(** [executeMoveSequence(gameState, moves)] *)
Definition executeMoveSequence (gs : gameState) (moves : MovesArgument)
    (clock : nat -> nat -> Z) : Completion (SequenceExecution * gameState) :=
  bind (validateMoveSequence gs moves) (fun validation =>
    match validation, moves with
    | SequenceValid _ _, MovesArray items =>
      executeMovesFrom gs (cloneGameState gs) items 0 (length items) [] clock
    | _, _ => Returns (SequenceRefused validation, gs)
    end).

(** *** Statistics *)

(** [`${n}`] for an integer [n]. *)
Definition decimal (n : Z) : string :=
  DecimalString.NilZero.string_of_int (Z.to_int n).

(** [text.padStart(2, '0')] *)
Definition padStart2 (text : string) : string :=
  match String.length text with
  | O => "00"
  | S O => String.append "0" text
  | _ => text
  end.

(** [formatGameTime(milliseconds)] for an integer number of milliseconds
    below 2^53 in size, where the two divisions in double arithmetic
    followed by [Math.floor] are the integer quotients. *)
Definition formatGameTime (milliseconds : Z) : string :=
  let seconds := milliseconds / 1000 in
  let minutes := seconds / 60 in
  let remainingSeconds := Z.rem seconds 60 in
  if minutes >? 0
  then String.append (decimal minutes)
         (String.append ":" (padStart2 (decimal remainingSeconds)))
  else String.append (decimal remainingSeconds) "s".

Module Stats.
(** The object [getGameStats] returns; [None] is [null]. *)
Record Stats : Type := mkStats {
  moveCount : Z;
  optimalMoves : Z;
  efficiency : Z;
  gameComplete : bool;
  gameTime : option Z;
  gameTimeFormatted : option string;
  movesRemaining : Z;
  isOptimalSolution : bool
}.
End Stats.

Section GameStats.

(** [Math.round((optimalMoves / currentMoves) * 100)] is computed in
    double arithmetic; its value is left open here. *)
Variable roundedPercent : Z -> Z -> Z.

(** [getGameStats(gameState)]; [now] is the clock read by [new Date()]
    when the game has no end time yet. *)
Definition getGameStats (gs : gameState) (now : Z) : Stats.Stats :=
  let optimalMoves := optimalMoves (metadata gs) in
  let currentMoves := moveCount gs in
  let efficiency :=
    if currentMoves >? 0 then roundedPercent optimalMoves currentMoves else 100 in
  let gameTime :=
    match gameComplete gs, gameEndTime (metadata gs) with
    | true, Some gameEndTime => Some (gameEndTime - gameStartTime (metadata gs))
    | _, _ => Some (now - gameStartTime (metadata gs))
    end in
  {| Stats.moveCount := currentMoves;
     Stats.optimalMoves := optimalMoves;
     Stats.efficiency := efficiency;
     Stats.gameComplete := gameComplete gs;
     Stats.gameTime := gameTime;
     Stats.gameTimeFormatted :=
       match gameTime with
       | Some t => if t =? 0 then None else Some (formatGameTime t)
       | None => None
       end;
     Stats.movesRemaining := Z.max 0 (optimalMoves - currentMoves);
     Stats.isOptimalSolution := gameComplete gs && (currentMoves =? optimalMoves) |}.
End GameStats.
End GameEngine.

(** ** js/solverEngine.js *)

Module SolverEngine.
Import JsArray GameState GameEngine.

(** [{ from, to, disk }] *)
Record SolverMove : Type := mkSolverMove {
  from : Z;
  to : Z;
  disk : Z
}.

(** [calculateMinimumMoves(numDisks)]: [Math.pow(2, numDisks) - 1], exact
    in double arithmetic for [0 <= numDisks <= 53]. *)
Definition calculateMinimumMoves (numDisks : Z) : Z := 2 ^ numDisks - 1.

(** [positions[index] = value] on an array with holes ([None]): an index
    past the end extends the array with holes, a negative index only
    sets a named property and leaves the elements alone. *)
Definition arraySet (positions : list (option Z)) (index value : Z) : list (option Z) :=
  if index <? 0 then positions
  else
    let i := Z.to_nat index in
    if (i <? length positions)%nat
    then firstn i positions ++ Some value :: skipn (S i) positions
    else positions ++ repeat None (i - length positions) ++ [Some value].

(** [positions[index]]; holes and indices outside the array read as
    [undefined]. *)
Definition arrayGet (positions : list (option Z)) (index : Z) : option Z :=
  if index <? 0 then None
  else match nth_error positions (Z.to_nat index) with
       | Some v => v
       | None => None
       end.

(** [getCurrentDiskPositions()]; [new Array(n)] throws for negative [n]. *)
Definition getCurrentDiskPositions (gs : gameState) : Completion (list (option Z)) :=
  let n := numDisks (settings gs) in
  if n <? 0 then Throws "RangeError: Invalid array length"
  else
    let positions := repeat None (Z.to_nat n) in
    Returns
      (fold_left
         (fun positions rodIndex =>
            fold_left
              (fun positions diskSize => arraySet positions (diskSize - 1) (rodNumber rodIndex))
              (disksOf (rods gs) rodIndex) positions)
         [Rod0; Rod1; Rod2] positions).

(** [isGameComplete(diskPositions)]; [every] skips holes. *)
Definition isGameComplete (diskPositions : list (option Z)) : bool :=
  forallb (fun pos => match pos with Some r => r =? 2 | None => true end) diskPositions.

(** The loop of [findDiskAtPosition], [diskSize] running down from its
    start value to 1.  The [size] argument of the source is not read. *)
Fixpoint findDiskFrom (diskSize : nat) (rodIndex : Z) (diskPositions : list (option Z))
    : option Z :=
  match diskSize with
  | O => None
  | S smaller =>
    match arrayGet diskPositions (Z.of_nat diskSize - 1) with
    | Some r =>
      if r =? rodIndex then Some (Z.of_nat diskSize)
      else findDiskFrom smaller rodIndex diskPositions
    | None => findDiskFrom smaller rodIndex diskPositions
    end
  end.

(** [findDiskAtPosition(size, rodIndex, diskPositions)] *)
Definition findDiskAtPosition (numDisks : Z) (size : Z) (rodIndex : Z)
    (diskPositions : list (option Z)) : option Z :=
  findDiskFrom (Z.to_nat numDisks) rodIndex diskPositions.

(** What the solver threads through its recursion: the [solution] array
    and the [diskPositions] array, both mutated in place by the source. *)
Definition SolverState : Type := (list SolverMove * list (option Z))%type.

(** The block shared by the base case and the middle of the recursive
    case: look up a disk on [source] and record its move. *)
Definition recordMove (numDisks : Z) (n : Z) (source target : Z) (st : SolverState)
    : SolverState :=
  let '(solution, diskPositions) := st in
  match findDiskAtPosition numDisks n source diskPositions with
  | Some diskSize =>
    if negb (diskSize =? 0)
       && match arrayGet diskPositions (diskSize - 1) with
          | Some r => r =? source
          | None => false
          end
    then (push solution (mkSolverMove source target diskSize),
          arraySet diskPositions (diskSize - 1) target)
    else st
  | None => st
  end.

(** [solveTowersOfHanoi(n, source, target, auxiliary, solution,
    diskPositions)] for [n >= 1].  For [n < 1] the source never reaches
    its base case; [generateOptimalSolution] below accounts for that, and
    the [O] branch here is not reached from [n >= 1]. *)
Fixpoint solveTowersOfHanoi (numDisks : Z) (n : nat) (source target auxiliary : Z)
    (st : SolverState) : SolverState :=
  match n with
  | O => st
  | S O => recordMove numDisks 1 source target st
  | S m =>
    let st1 := solveTowersOfHanoi numDisks m source auxiliary target st in
    let st2 := recordMove numDisks (Z.of_nat n) source target st1 in
    solveTowersOfHanoi numDisks m auxiliary target source st2
  end.

(** [generateOptimalSolution()] on [this.gameState = gs]. *)
Definition generateOptimalSolution (gs : gameState) : Completion (list SolverMove) :=
  let n := numDisks (settings gs) in
  match getCurrentDiskPositions gs with
  | Returns diskPositions =>
    if isGameComplete diskPositions then Returns []
    else if n <? 1 then Throws "RangeError: Maximum call stack size exceeded"
    else Returns (fst (solveTowersOfHanoi n (Z.to_nat n) 0 2 1 ([], diskPositions)))
  | Throws message => Throws message
  | PushesUndefined => PushesUndefined
  end.

(** How replaying a move list ends: every move executed, or the move at
    index [step] refused by [makeMove] with [error], or a call that did
    not return a result at all. *)
Inductive Replay : Type :=
| Finished (final : gameState)
| Rejected (step : nat) (error : ErrorObject) (state : gameState)
| Aborted (step : nat).

(** The loop of [executeNextMove] without its timers: the moves of
    [solution] go through [makeMove] (and so through [validateMove]) one
    by one, and the first refusal stops the replay.  [clock step] is the
    clock read by the call at index [step]. *)
Fixpoint replay (gs : gameState) (solution : list SolverMove)
    (clock : nat -> nat -> Z) (step : nat) : Replay :=
  match solution with
  | [] => Finished gs
  | move :: rest =>
    match makeMove gs (JsInt (from move)) (JsInt (to move)) (clock step) with
    | Returns (Failure error, gs') => Rejected step error gs'
    | Returns (_, gs') => replay gs' rest clock (S step)
    | _ => Aborted step
    end
  end.
(** [getNextOptimalMove()]; [None] is [null]. *)
Definition getNextOptimalMove (gs : gameState) : Completion (option SolverMove) :=
  bind (generateOptimalSolution gs) (fun solution =>
    Returns match solution with
            | move :: _ => Some move
            | [] => None
            end).

(** ** Auto-solve *)

Module AutoSolve.

(** The [autoSolveState] object.  The four callbacks are functions of the
    page and opaque here: the record keeps whether each one is set.
    [intervalId] is [null] or the handle of a timeout; handles are positive
    integers, so a handle is never falsy. *)
Record AutoSolveState : Type := mkAutoSolveState {
  isRunning : bool;
  isPaused : bool;
  currentStep : nat;
  solution : list SolverMove;
  speed : Z;
  intervalId : option positive;
  onComplete : bool;
  onStep : bool;
  onPause : bool;
  onResume : bool
}.

(** What the solver does to the page, in the order it does it: console
    output, calls of the callbacks, animations queued and timeouts set and
    cleared. *)
Inductive Effect : Type :=
| ConsoleWarn (message : string)
| ConsoleError (message : string)
| CallOnComplete
| CallOnStep (move : SolverMove) (stepNumber totalSteps : nat)
| CallOnPause
| CallOnResume
| AnimateDiskMove (diskSize fromRod toRod : Z)
| SetTimeout (id : positive) (delay : Z)
| ClearTimeout (id : positive).

(** A [SolverEngine] object on its page.  [game] is the state
    [this.gameState] refers to, which the page shares with the engine;
    [animationSystem] and [gameEngine] tell whether [this.animationSystem]
    and [window.GameEngine] are set.  The page keeps the timeouts that are
    set and have neither fired nor been cleared ([timers], each of them a
    call of [executeNextMove]), the handle the next [setTimeout] returns,
    and the number of queued disk animations whose completion callback has
    not run yet.  The callbacks and [animateDiskMove] are taken to return
    without calling into the solver. *)
Record Solver : Type := mkSolver {
  game : gameState;
  animationSystem : bool;
  autoSolveState : AutoSolveState;
  gameEngine : bool;
  timers : list positive;
  nextTimer : positive;
  animations : nat;
  effects : list Effect
}.

(** The [options] argument of [startAutoSolve]. *)
Record Options : Type := mkOptions {
  speedOption : option Z;
  onCompleteOption : bool;
  onStepOption : bool;
  onPauseOption : bool;
  onResumeOption : bool
}.

Definition withAuto (a : AutoSolveState) (s : Solver) : Solver :=
  {| game := game s; animationSystem := animationSystem s; autoSolveState := a;
     gameEngine := gameEngine s; timers := timers s; nextTimer := nextTimer s;
     animations := animations s; effects := effects s |}.

Definition withGame (gs : gameState) (s : Solver) : Solver :=
  {| game := gs; animationSystem := animationSystem s;
     autoSolveState := autoSolveState s;
     gameEngine := gameEngine s; timers := timers s; nextTimer := nextTimer s;
     animations := animations s; effects := effects s |}.

Definition emit (e : Effect) (s : Solver) : Solver :=
  {| game := game s; animationSystem := animationSystem s;
     autoSolveState := autoSolveState s;
     gameEngine := gameEngine s; timers := timers s; nextTimer := nextTimer s;
     animations := animations s; effects := push (effects s) e |}.

(** The fields of [autoSolveState] that change while solving; the speed
    and the callbacks are kept. *)
Definition progress (a : AutoSolveState) (running paused : bool) (step : nat)
    (moves : list SolverMove) (id : option positive) : AutoSolveState :=
  {| isRunning := running; isPaused := paused; currentStep := step;
     solution := moves; speed := speed a; intervalId := id;
     onComplete := onComplete a; onStep := onStep a; onPause := onPause a;
     onResume := onResume a |}.

(** [setTimeout(() => this.executeNextMove(), delay)] *)
Definition setTimeout (delay : Z) (s : Solver) : positive * Solver :=
  let id := nextTimer s in
  (id,
   {| game := game s; animationSystem := animationSystem s;
      autoSolveState := autoSolveState s;
      gameEngine := gameEngine s; timers := push (timers s) id;
      nextTimer := Pos.succ id; animations := animations s;
      effects := push (effects s) (SetTimeout id delay) |}).

(** [clearTimeout(id)]; nothing is pending under a handle that has fired
    or was cleared before. *)
Definition clearTimeout (id : positive) (s : Solver) : Solver :=
  {| game := game s; animationSystem := animationSystem s;
     autoSolveState := autoSolveState s;
     gameEngine := gameEngine s;
     timers := filter (fun t => negb (Pos.eqb t id)) (timers s);
     nextTimer := nextTimer s; animations := animations s;
     effects := push (effects s) (ClearTimeout id) |}.

(** [this.animationSystem.animateDiskMove(disk, from, to, callback)] *)
Definition animateDiskMove (diskSize fromRod toRod : Z) (s : Solver) : Solver :=
  {| game := game s; animationSystem := animationSystem s;
     autoSolveState := autoSolveState s;
     gameEngine := gameEngine s; timers := timers s; nextTimer := nextTimer s;
     animations := S (animations s);
     effects := push (effects s) (AnimateDiskMove diskSize fromRod toRod) |}.

(** [new SolverEngine(gameState, animationSystem)] on a page that has set
    no timeout yet. *)
Definition newSolverEngine (gs : gameState) (animation engine : bool) : Solver :=
  {| game := gs; animationSystem := animation;
     autoSolveState :=
       {| isRunning := false; isPaused := false; currentStep := 0; solution := [];
          speed := 1000; intervalId := None; onComplete := false; onStep := false;
          onPause := false; onResume := false |};
     gameEngine := engine; timers := []; nextTimer := 1%positive;
     animations := 0; effects := [] |}.

(** [stopAutoSolve()] *)
Definition stopAutoSolve (s : Solver) : Solver :=
  let a := autoSolveState s in
  let s1 := match intervalId a with
            | Some id => clearTimeout id s
            | None => s
            end in
  withAuto (progress a false false 0 [] None) s1.

(** [this.autoSolveState.intervalId = setTimeout(() => {
    this.executeNextMove(); }, this.autoSolveState.speed)] *)
Definition scheduleNextMove (s : Solver) : Solver :=
  let a := autoSolveState s in
  let '(id, s1) := setTimeout (speed a) s in
  withAuto (progress a (isRunning a) (isPaused a) (currentStep a) (solution a) (Some id))
    s1.

(** The callback [executeNextMove] hands to [animateDiskMove]. *)
Definition animationCompleted (s : Solver) : Solver :=
  let a := autoSolveState s in
  if isRunning a && negb (isPaused a) then scheduleNextMove s else s.

(** The branch of [executeNextMove] after a move that [makeMove] has
    executed and that left the game state [gs]: the step is counted and
    reported, and the next call is scheduled, by the animation system when
    there is one and directly otherwise. *)
Definition moveExecuted (move : SolverMove) (gs : gameState) (s : Solver) : Solver :=
  let a := autoSolveState s in
  let a1 := progress a (isRunning a) (isPaused a) (S (currentStep a))
              (solution a) (intervalId a) in
  let s1 := withAuto a1 (withGame gs s) in
  let s2 := if onStep a
            then emit (CallOnStep move (currentStep a1) (length (solution a1))) s1
            else s1 in
  if animationSystem s
  then animateDiskMove (disk move) (from move) (to move) s2
  else scheduleNextMove s2.

(** [executeNextMove()]; [now] is the clock of its [makeMove]. *)
Definition executeNextMove (s : Solver) (now : nat -> Z) : Completion Solver :=
  let a := autoSolveState s in
  if negb (isRunning a) || isPaused a then Returns s
  else if (length (solution a) <=? currentStep a)%nat
  then Returns (stopAutoSolve (if onComplete a then emit CallOnComplete s else s))
  else if gameEngine s
  then
    match nth_error (solution a) (currentStep a) with
    | None => Throws "TypeError: cannot read properties of undefined"
    | Some move =>
      match makeMove (game s) (JsInt (from move)) (JsInt (to move)) now with
      | Returns (result, gs) =>
        if success result
        then Returns (moveExecuted move gs s)
        else
          Returns (stopAutoSolve
                     (emit (ConsoleError "Auto-solve move failed:") (withGame gs s)))
      | Throws message => Throws message
      | PushesUndefined => PushesUndefined
      end
    end
  else
    Returns (stopAutoSolve
               (emit (ConsoleError "GameEngine not available for auto-solve") s)).

(** [startAutoSolve(options)].  An exception of [generateOptimalSolution]
    or of [executeNextMove] is caught; both throw before they have changed
    anything. *)
Definition startAutoSolve (options : Options) (s : Solver) (now : nat -> Z)
    : Completion Solver :=
  let a := autoSolveState s in
  if isRunning a
  then Returns (emit (ConsoleWarn "Auto-solve is already running") s)
  else
    let a1 :=
      {| isRunning := isRunning a; isPaused := isPaused a;
         currentStep := currentStep a; solution := solution a;
         speed := match speedOption options with
                  | Some v => if v =? 0 then 1000 else v
                  | None => 1000
                  end;
         intervalId := intervalId a;
         onComplete := onCompleteOption options; onStep := onStepOption options;
         onPause := onPauseOption options; onResume := onResumeOption options |} in
    let s1 := withAuto a1 s in
    match generateOptimalSolution (game s) with
    | Throws message =>
      Returns (stopAutoSolve (emit (ConsoleError "Failed to start auto-solve:") s1))
    | PushesUndefined => PushesUndefined
    | Returns moves =>
      let s2 := withAuto (progress a1 true false 0 moves (intervalId a1)) s1 in
      if (length moves =? 0)%nat
      then Returns (stopAutoSolve
                      (if onCompleteOption options then emit CallOnComplete s2 else s2))
      else
        match executeNextMove s2 now with
        | Throws message =>
          Returns (stopAutoSolve (emit (ConsoleError "Failed to start auto-solve:") s2))
        | outcome => outcome
        end
    end.

(** [pauseAutoSolve()] *)
Definition pauseAutoSolve (s : Solver) : Solver :=
  let a := autoSolveState s in
  if negb (isRunning a) || isPaused a then s
  else
    let s1 :=
      match intervalId a with
      | Some id =>
        withAuto (progress a (isRunning a) true (currentStep a) (solution a) None)
          (clearTimeout id s)
      | None =>
        withAuto (progress a (isRunning a) true (currentStep a) (solution a) None) s
      end in
    if onPause a then emit CallOnPause s1 else s1.

(** [resumeAutoSolve()] *)
Definition resumeAutoSolve (s : Solver) (now : nat -> Z) : Completion Solver :=
  let a := autoSolveState s in
  if negb (isRunning a) || negb (isPaused a) then Returns s
  else
    let s1 := withAuto (progress a (isRunning a) false (currentStep a) (solution a)
                          (intervalId a)) s in
    executeNextMove (if onResume a then emit CallOnResume s1 else s1) now.

(** [isAutoSolveRunning()] and [isAutoSolvePaused()] *)
Definition isAutoSolveRunning (s : Solver) : bool := isRunning (autoSolveState s).

Definition isAutoSolvePaused (s : Solver) : bool := isPaused (autoSolveState s).

(** [setAutoSolveSpeed(speed)] *)
Definition setAutoSolveSpeed (v : Z) (s : Solver) : Solver :=
  let a := autoSolveState s in
  withAuto
    {| isRunning := isRunning a; isPaused := isPaused a;
       currentStep := currentStep a; solution := solution a;
       speed := Z.max 100 v; intervalId := intervalId a;
       onComplete := onComplete a; onStep := onStep a;
       onPause := onPause a; onResume := onResume a |} s.

(** [updateGameState(gameState)] *)
Definition updateGameState (gs : gameState) (s : Solver) : Solver :=
  let s1 := withGame gs s in
  if isRunning (autoSolveState s1) then stopAutoSolve s1 else s1.
End AutoSolve.
End SolverEngine.

Import JsArray GameState GameEngine SolverEngine.

(** * Vocabulary of the properties *)

(** A rod is in order when every disk is larger than all the disks above
    it: the list, bottom to top, is strictly decreasing. *)
Definition descending (disks : list Z) : Prop := StronglySorted Z.gt disks.

(** The conditions [validateGameState] tests on a state of this type. *)
Record wellFormed (gs : gameState) : Prop := {
  wf_descending : forall i, descending (disksOf (rods gs) i);
  wf_disks : Permutation (allDisks (rods gs)) (range 1 (numDisks (settings gs)));
  wf_numDisks : 3 <= numDisks (settings gs) <= 8;
  wf_animationSpeed : 100 <= animationSpeed (settings gs);
  wf_moveCount : moveCount gs = Z.of_nat (length (moveHistory gs))
}.

(** The rules a move has to pass once the state and the two indices are
    accepted: different rods, a disk on the source, and nothing smaller or
    equal on top of the target. *)
Definition canPlace (r : Rods) (f t : RodIndex) (d : Z) : Prop :=
  f <> t
  /\ top (disksOf r f) = Some d
  /\ (forall u, top (disksOf r t) = Some u -> d < u).

(** The calls that act on a game state, with their arguments. *)
Inductive Command : Type :=
| MakeMove (fromRod toRod : JsValue) (now : nat -> Z)
| UndoLastMove
| SelectDisk (rodIndex : JsValue)
| ClearSelection
| MoveSelectedDisk (targetRod : JsValue) (now : nat -> Z).

Definition run (c : Command) (gs : gameState) : Completion (Result * gameState) :=
  match c with
  | MakeMove fromRod toRod now => makeMove gs fromRod toRod now
  | UndoLastMove => undoLastMove gs
  | SelectDisk rodIndex => Returns (selectDisk gs rodIndex)
  | ClearSelection => Returns (clearSelection gs)
  | MoveSelectedDisk targetRod now => moveSelectedDisk gs targetRod now
  end.

(** One call, whatever its arguments and whether it succeeds or fails. *)
Definition step (gs gs' : gameState) : Prop :=
  exists c res, run c gs = Returns (res, gs').

(** The states of a game of [n] disks. *)
Inductive reachable (n : Z) : gameState -> Prop :=
| reachable_new now gs :
    createGameState (JsInt n) now = Returns gs -> reachable n gs
| reachable_step gs gs' :
    reachable n gs -> step gs gs' -> reachable n gs'.

(** [played n r h]: the rods [r] are what the moves recorded in [h], each
    legal when it was made and none made on a won board, leave of the
    initial stack of [n] disks. *)
Inductive played (n : Z) : Rods -> list Move -> Prop :=
| played_start : played n (mkRods (initialDisks n) [] []) []
| played_move r h m r' :
    played n r h ->
    rod2 r <> initialDisks n ->
    canPlace r (fromRod m) (toRod m) (diskId m) ->
    transfer r (fromRod m) (toRod m) = Some (diskId m, r') ->
    played n r' (push h m).

(** What holds of every reachable state of a game of [n] disks. *)
Record invariant (n : Z) (gs : gameState) : Prop := {
  inv_played : played n (rods gs) (moveHistory gs);
  inv_numDisks : numDisks (settings gs) = n;
  inv_range : 3 <= n <= 8;
  inv_speed : 100 <= animationSpeed (settings gs);
  inv_moveCount : moveCount gs = Z.of_nat (length (moveHistory gs));
  inv_complete : gameComplete gs = isGameWon gs
}.

(** [createGameState(3)] with the clock at 0. *)
Definition newGame3 : gameState :=
  {| rods := mkRods [3; 2; 1] [] [];
     selectedDisk := None;
     selectedRod := None;
     moveCount := 0;
     gameComplete := false;
     moveHistory := [];
     settings := mkSettings 3 300 true 500;
     metadata := mkMetadata 0 None 7 None None |}.

(** The clock that always reads 0. *)
Definition midnight : nat -> Z := fun _ => 0.

(** The three-disk game after the single move 0 -> 1: disk 1 on rod 1,
    disks 2 and 3 on rod 0. *)
Definition midGame3 : gameState :=
  {| rods := mkRods [3; 2] [1] [];
     selectedDisk := None;
     selectedRod := None;
     moveCount := 1;
     gameComplete := false;
     moveHistory := [mkMove Rod0 Rod1 1 1 0 None];
     settings := mkSettings 3 300 true 500;
     metadata := mkMetadata 0 (Some 0) 7 None None |}.

(** A value that names a rod: an integer among 0, 1 and 2. *)
Definition namesRod (v : JsValue) : Prop := exists z, v = JsInt z /\ 0 <= z <= 2.

(** The initial state of a game of [n] disks: all disks on rod 0 from [n]
    at the bottom to 1 on top, nothing played, nothing selected. *)
Definition initialState (n : Z) (gs : gameState) : Prop :=
  rods gs = mkRods (initialDisks n) [] []
  /\ moveCount gs = 0
  /\ moveHistory gs = []
  /\ gameComplete gs = false
  /\ selectedDisk gs = None /\ selectedRod gs = None
  /\ numDisks (settings gs) = n
  /\ validateGameState gs = true.

(** The reading of [createGameState] by which every argument other than an
    integer from 3 to 8 makes it throw. *)
Definition throwsUnlessDiskCount (arg : JsValue) (now : Z) : Prop :=
  (~ exists n, arg = JsInt n /\ 3 <= n <= 8) ->
  exists message, createGameState arg now = Throws message.

(** The three-disk game one move before the end: disk 1 alone on rod 0,
    disks 3 and 2 on rod 2, after the first six moves of the seven-move
    solution. *)
Definition lastMove3 : gameState :=
  {| rods := mkRods [1] [] [3; 2];
     selectedDisk := None;
     selectedRod := None;
     moveCount := 6;
     gameComplete := false;
     moveHistory := [mkMove Rod0 Rod2 1 1 0 None; mkMove Rod0 Rod1 2 2 0 None;
                     mkMove Rod2 Rod1 1 3 0 None; mkMove Rod0 Rod2 3 4 0 None;
                     mkMove Rod1 Rod0 1 5 0 None; mkMove Rod1 Rod2 2 6 0 None];
     settings := mkSettings 3 300 true 500;
     metadata := mkMetadata 0 (Some 0) 7 None None |}.

(** The unconditional round-trip law: whenever the move succeeds, the undo
    that follows succeeds and restores rods, move count and history
    length. *)
Definition undoRestores (gs : gameState) (fromRod toRod : JsValue) (now : nat -> Z)
    : Prop :=
  forall res gs',
    makeMove gs fromRod toRod now = Returns (res, gs') -> success res = true ->
    exists res' gs'',
      undoLastMove gs' = Returns (res', gs'') /\ success res' = true
      /\ rods gs'' = rods gs
      /\ moveCount gs'' = moveCount gs
      /\ length (moveHistory gs'') = length (moveHistory gs).

(** The reading of [undoLastMove] by which it is driven by the disk of the
    last record: the two refusals, and otherwise a success that takes that
    disk off the record's target rod and puts it back on its source rod. *)
Definition undoReturnsRecordedDisk (gs : gameState) : Prop :=
  (moveHistory gs = [] ->
   undoLastMove gs = Returns (Failure (mkError "NO_MOVES_TO_UNDO"), gs))
  /\ (moveHistory gs <> [] -> gameComplete gs = true ->
     undoLastMove gs = Returns (Failure (mkError "CANNOT_UNDO_COMPLETE_GAME"), gs))
  /\ (forall h m, moveHistory gs = h ++ [m] -> gameComplete gs = false ->
     exists gs',
       undoLastMove gs = Returns (UndoDone m (diskId m), gs')
       /\ moveHistory gs' = h
       /\ disksOf (rods gs) (toRod m) = disksOf (rods gs') (toRod m) ++ [diskId m]
       /\ disksOf (rods gs') (fromRod m) = disksOf (rods gs) (fromRod m) ++ [diskId m]
       /\ moveCount gs' = moveCount gs - 1
       /\ selectedDisk gs' = None /\ selectedRod gs' = None).

(** A three-disk state that passes [validateGameState] and whose single
    record (disk 1 from rod 0 to rod 1) does not describe its rods: disk 1
    is on rod 2 and rod 1 holds disk 2. *)
Definition strayRecord3 : gameState :=
  {| rods := mkRods [3] [2] [1];
     selectedDisk := None;
     selectedRod := None;
     moveCount := 1;
     gameComplete := false;
     moveHistory := [mkMove Rod0 Rod1 1 1 0 None];
     settings := mkSettings 3 300 true 500;
     metadata := mkMetadata 0 (Some 0) 7 None None |}.

(** Replaying the solver's answer for the fresh game of [n] disks: the
    game is created, the solver returns [2^n - 1] moves, every one of them
    is executed, and the last state is complete after [2^n - 1] moves. *)
Definition freshGameSolved (n : Z) (now : Z) (clock : nat -> nat -> Z) : bool :=
  match createGameState (JsInt n) now with
  | Returns gs =>
    match generateOptimalSolution gs with
    | Returns solution =>
      (Z.of_nat (length solution) =? 2 ^ n - 1)
      && match replay gs solution clock 0 with
         | Finished final =>
           gameComplete final && (moveCount final =? 2 ^ n - 1)
           && (Z.of_nat (length (moveHistory final)) =? 2 ^ n - 1)
         | _ => false
         end
    | _ => false
    end
  | _ => false
  end.

(** ** Vocabulary of the further properties *)

(** The three-disk game when it is won, after the seven moves of the
    shortest solution. *)
Definition solvedGame3 : gameState :=
  {| rods := mkRods [] [] [3; 2; 1];
     selectedDisk := None;
     selectedRod := None;
     moveCount := 7;
     gameComplete := true;
     moveHistory := [mkMove Rod0 Rod2 1 1 0 None; mkMove Rod0 Rod1 2 2 0 None;
                     mkMove Rod2 Rod1 1 3 0 None; mkMove Rod0 Rod2 3 4 0 None;
                     mkMove Rod1 Rod0 1 5 0 None; mkMove Rod1 Rod2 2 6 0 None;
                     mkMove Rod0 Rod2 1 7 0 None];
     settings := mkSettings 3 300 true 500;
     metadata := mkMetadata 0 (Some 0) 7 (Some 0) (Some 0) |}.

(** [k] calls of [undoLastMove] one after the other, whatever they
    answer. *)
Fixpoint undoTimes (k : nat) (gs : gameState) : Completion gameState :=
  match k with
  | O => Returns gs
  | S k' => bind (undoLastMove gs) (fun '(_, gs') => undoTimes k' gs')
  end.

Import AutoSolve.

(** What happens on the page of a solver: a call of one of the solver's
    methods, a timeout that fires, the animation system finishing a queued
    disk move, or the page making a call of the engine on the shared game
    state. *)
Inductive Event : Type :=
| StartAutoSolve (options : Options) (now : nat -> Z)
| PauseAutoSolve
| ResumeAutoSolve (now : nat -> Z)
| StopAutoSolve
| SetAutoSolveSpeed (speed : Z)
| UpdateGameState (gs : gameState)
| TimerFires (id : positive) (now : nat -> Z)
| AnimationCompletes
| Play (c : Command).

(** A timeout fires only while it is pending, and an animation completes
    only when one is queued. *)
Definition enabled (e : Event) (s : Solver) : bool :=
  match e with
  | TimerFires id _ => existsb (Pos.eqb id) (timers s)
  | AnimationCompletes => negb (Nat.eqb (animations s) 0)
  | _ => true
  end.

Definition handle (e : Event) (s : Solver) : Completion Solver :=
  match e with
  | StartAutoSolve options now => startAutoSolve options s now
  | PauseAutoSolve => Returns (pauseAutoSolve s)
  | ResumeAutoSolve now => resumeAutoSolve s now
  | StopAutoSolve => Returns (stopAutoSolve s)
  | SetAutoSolveSpeed v => Returns (setAutoSolveSpeed v s)
  | UpdateGameState gs => Returns (updateGameState gs s)
  | TimerFires id now =>
    executeNextMove
      {| game := game s;
         animationSystem := animationSystem s;
         autoSolveState := autoSolveState s;
         gameEngine := gameEngine s;
         timers :=
           filter (fun t => negb (Pos.eqb t id)) (timers s);
         nextTimer := nextTimer s;
         animations := animations s;
         effects := effects s |}
      now
  | AnimationCompletes =>
    Returns
      (animationCompleted
         {| game := game s;
            animationSystem := animationSystem s;
            autoSolveState := autoSolveState s;
            gameEngine := gameEngine s;
            timers := timers s;
            nextTimer := nextTimer s;
            animations := pred (animations s);
            effects := effects s |})
  | Play c =>
    match run c (game s) with
    | Returns (_, gs) => Returns (withGame gs s)
    | Throws message => Throws message
    | PushesUndefined => PushesUndefined
    end
  end.

(** The solvers a page can get to from a new [SolverEngine]. *)
Inductive autoSolving (gs : gameState) (animation engine : bool)
    : Solver -> Prop :=
| autoSolving_new : autoSolving gs animation engine
                      (newSolverEngine gs animation engine)
| autoSolving_event s e s' :
    autoSolving gs animation engine s ->
    enabled e s = true -> handle e s = Returns s' ->
    autoSolving gs animation engine s'.

(** The page left alone for [k] rounds: in each round the animation
    system finishes a queued disk move if there is one, and otherwise the
    oldest pending timeout fires.  The call that executes the move at index
    [i] of the solution reads the clock [clock i].  [None] when nothing is
    queued or pending, or a call does not return. *)
Fixpoint leftAlone (k : nat) (clock : nat -> nat -> Z) (s : Solver) : option Solver :=
  match k with
  | O => Some s
  | S k' =>
    match animations s, timers s with
    | S _, _ =>
      match handle AnimationCompletes s with
      | Returns s' => leftAlone k' clock s'
      | _ => None
      end
    | O, id :: _ =>
      match handle (TimerFires id (clock (currentStep (autoSolveState s)))) s with
      | Returns s' => leftAlone k' clock s'
      | _ => None
      end
    | O, [] => None
    end
  end.

(** Auto-solve is paused and resumed at once, and then two queued
    animations complete. *)
Definition pauseAndResume (now : nat -> Z) : list Event :=
  [PauseAutoSolve; ResumeAutoSolve now; AnimationCompletes; AnimationCompletes].

(** The events of a list, one after the other; [None] when one of them is
    not enabled or does not return. *)
Fixpoint handleAll (events : list Event) (s : Solver)
    : option Solver :=
  match events with
  | [] => Some s
  | e :: rest =>
    if enabled e s
    then match handle e s with
         | Returns s' => handleAll rest s'
         | _ => None
         end
    else None
  end.

(** The flags of [autoSolveState] agree with each other: paused only while
    running, no solution and no step kept while not running, and the step
    within the solution. *)
Record steady (s : Solver) : Prop := {
  steady_paused : isPaused (autoSolveState s) = true ->
                  isRunning (autoSolveState s) = true;
  steady_idle : isRunning (autoSolveState s) = false ->
                solution (autoSolveState s) = []
                /\ currentStep (autoSolveState s) = 0%nat;
  steady_step : (currentStep (autoSolveState s)
                 <= length (solution (autoSolveState s)))%nat
}.


(** The rods of a game of [n] disks: every rod in order, and the disks 1
    to [n] each on one rod. *)
Definition board (n : Z) (r : Rods) : Prop :=
  (forall i, descending (disksOf r i)) /\ Permutation (allDisks r) (range 1 n).

(** [legal r h r']: the moves recorded in [h], each one allowed by the
    rules when it is made, lead from the rods [r] to the rods [r']. *)
Inductive legal : Rods -> list Move -> Rods -> Prop :=
| legal_stay r : legal r [] r
| legal_move r m r1 h r2 :
    canPlace r (fromRod m) (toRod m) (diskId m) ->
    transfer r (fromRod m) (toRod m) = Some (diskId m, r1) ->
    legal r1 h r2 ->
    legal r (m :: h) r2.

(** The disks 1 to [k] are all on rod [i]. *)
Definition tower (k : Z) (r : Rods) (i : RodIndex) : Prop :=
  forall d, 1 <= d <= k -> In d (disksOf r i).

(** The number of moves in [h] of the disks 1 to [k]. *)
Definition smallMoves (k : Z) (h : list Move) : nat :=
  length (filter (fun m => diskId m <=? k) h).

(** Unfolding of the calls of the solver on a solver given by its fields;
    the engine, the lists and the comparisons are left folded. *)
Ltac solver_compute :=
  cbv [handleAll pauseAndResume enabled handle pauseAutoSolve resumeAutoSolve
       executeNextMove moveExecuted animationCompleted scheduleNextMove
       stopAutoSolve setTimeout clearTimeout animateDiskMove emit withAuto
       withGame progress push negb orb andb Nat.eqb pred
       isRunning isPaused currentStep solution speed intervalId onComplete
       onStep onPause onResume game animationSystem autoSolveState gameEngine
       timers nextTimer animations effects].

(** * Properties *)

(** ** Arrays used as stacks *)

Section StackFacts.
Context {A : Type}.
Implicit Types (a r : list A) (x : A).

Lemma pop_push a x : pop (push a x) = (Some x, a).
Proof.
  unfold pop, push. rewrite rev_app_distr. simpl. now rewrite rev_involutive.
Qed.

Lemma pop_nil : pop (@nil A) = (None, []).
Proof. reflexivity. Qed.

Lemma pop_Some a x r : pop a = (Some x, r) -> a = push r x.
Proof.
  unfold pop, push. destruct (rev a) as [|y t] eqn:E; intros H; inversion H; subst.
  rewrite <- (rev_involutive a), E. reflexivity.
Qed.

Lemma pop_None a r : pop a = (None, r) -> a = [] /\ r = [].
Proof.
  unfold pop. destruct (rev a) as [|y t] eqn:E; intros H; inversion H.
  split; [|reflexivity]. rewrite <- (rev_involutive a), E. reflexivity.
Qed.

Lemma top_push a x : top (push a x) = Some x.
Proof. unfold top. now rewrite pop_push. Qed.

Lemma top_nil : top (@nil A) = None.
Proof. reflexivity. Qed.

Lemma top_Some a x : top a = Some x -> exists r, a = push r x /\ pop a = (Some x, r).
Proof.
  unfold top. destruct (pop a) as [[y|] r] eqn:E; simpl; intros H; inversion H; subst.
  exists r. split; [now apply pop_Some | reflexivity].
Qed.

Lemma top_None a : top a = None -> a = [].
Proof.
  unfold top. destruct (pop a) as [[y|] r] eqn:E; simpl; intros H; [discriminate|].
  now apply pop_None in E.
Qed.

Lemma push_inj a b x y : push a x = push b y -> a = b /\ x = y.
Proof. apply app_inj_tail. Qed.

Lemma push_not_nil a x : push a x <> [].
Proof. unfold push. destruct a; discriminate. Qed.
End StackFacts.

(** ** Strictly descending rods *)

Lemma descending_push l d :
  descending (push l d) <-> descending l /\ Forall (fun x => x > d) l.
Proof.
  unfold descending, push. induction l as [|a l IH]; simpl.
  - split; intros _; [split; constructor | repeat constructor].
  - split.
    + intros H. apply StronglySorted_inv in H as [Hs Hf].
      apply IH in Hs as [Hs Hd]. apply Forall_app in Hf as [Hf Ha].
      inversion Ha; subst. repeat split; try constructor; assumption.
    + intros [Hs Hf]. apply StronglySorted_inv in Hs as [Hs Ha].
      inversion Hf; subst. constructor.
      * apply IH. now split.
      * apply Forall_app. split; [assumption | now repeat constructor].
Qed.

Lemma descending_top_least l t :
  descending l -> top l = Some t -> Forall (fun x => x >= t) l.
Proof.
  intros Hs Ht. apply top_Some in Ht as [r [-> _]].
  apply descending_push in Hs as [_ Hf].
  unfold push. apply Forall_app. split.
  - eapply Forall_impl; [|exact Hf]. simpl. intros; lia.
  - repeat constructor. lia.
Qed.

Lemma descendingOrder_descending l : descendingOrder l = true <-> descending l.
Proof.
  unfold descending. split.
  - intros H. apply Sorted_StronglySorted.
    + intros x y z; lia.
    + induction l as [|a l IH]; [constructor|].
      destruct l as [|b l]; [repeat constructor|].
      cbn [descendingOrder] in H. destruct (b >=? a) eqn:E; [discriminate|].
      constructor; [now apply IH | constructor; lia].
  - intros H. apply StronglySorted_Sorted in H.
    induction l as [|a l IH]; [reflexivity|].
    destruct l as [|b l]; [reflexivity|].
    inversion H as [|? ? Hs Hr]; subst. inversion Hr; subst.
    cbn [descendingOrder]. destruct (b >=? a) eqn:E; [lia | now apply IH].
Qed.

(** ** Rods *)

Lemma RodIndex_eqb_eq a b : RodIndex_eqb a b = true <-> a = b.
Proof. destruct a, b; cbv; split; intros H; congruence. Qed.

Lemma RodIndex_eqb_neq a b : RodIndex_eqb a b = false <-> a <> b.
Proof. destruct a, b; cbv; split; intros H; congruence. Qed.

Lemma toRodIndex_rodNumber i : toRodIndex (JsInt (rodNumber i)) = Some i.
Proof. now destruct i. Qed.

(** [toRodIndex] is the rod-index guard of the source. *)
Lemma toRodIndex_Some v i :
  toRodIndex v = Some i <-> exists z, v = JsInt z /\ 0 <= z <= 2 /\ z = rodNumber i.
Proof.
  split.
  - destruct v as [z| |]; try discriminate.
    destruct z as [|[[]|[]|]|]; try discriminate; intros H; inversion H; subst;
      eexists; (split; [reflexivity|]); simpl; lia.
  - intros [z [-> [_ ->]]]. apply toRodIndex_rodNumber.
Qed.

Lemma toRodIndex_None v :
  toRodIndex v = None <-> forall z, v = JsInt z -> z < 0 \/ z > 2.
Proof.
  split.
  - intros H z ->. destruct z as [|[[]|[]|]|]; try discriminate; lia.
  - intros H. destruct v as [z| |]; try reflexivity.
    specialize (H z eq_refl). destruct z as [|[[]|[]|]|]; try reflexivity; lia.
Qed.

Lemma disksOf_setDisks_same r i d : disksOf (setDisks r i d) i = d.
Proof. now destruct i. Qed.

Lemma disksOf_setDisks_other r i j d : i <> j -> disksOf (setDisks r i d) j = disksOf r j.
Proof. destruct i, j; try reflexivity; congruence. Qed.

(** The effect of a transfer between two different rods. *)
Lemma transfer_Some r f t d r' :
  f <> t ->
  transfer r f t = Some (d, r') ->
  disksOf r f = push (disksOf r' f) d
  /\ disksOf r' t = push (disksOf r t) d
  /\ (forall k, k <> f -> k <> t -> disksOf r' k = disksOf r k).
Proof.
  intros Hne. unfold transfer.
  destruct (pop (disksOf r f)) as [[x|] rest] eqn:E; [|discriminate].
  intros H. inversion H; subst. apply pop_Some in E.
  repeat split.
  - rewrite (disksOf_setDisks_other _ t f) by (intros e; now apply Hne).
    rewrite disksOf_setDisks_same. exact E.
  - rewrite disksOf_setDisks_same.
    now rewrite (disksOf_setDisks_other _ f t).
  - intros k Hf Ht.
    rewrite (disksOf_setDisks_other _ t k) by (intros e; now apply Ht).
    now rewrite (disksOf_setDisks_other _ f k) by (intros e; now apply Hf).
Qed.

Lemma transfer_top r f t :
  transfer r f t <> None <-> top (disksOf r f) <> None.
Proof.
  unfold transfer, top. destruct (pop (disksOf r f)) as [[x|] rest]; simpl;
    split; congruence.
Qed.

Lemma transfer_moves_top r f t d r' :
  transfer r f t = Some (d, r') -> top (disksOf r f) = Some d.
Proof.
  unfold transfer, top. destruct (pop (disksOf r f)) as [[x|] rest]; simpl;
    intros H; inversion H; reflexivity.
Qed.

(** Transferring back undoes a transfer. *)
Lemma transfer_inverse r f t d r' :
  f <> t -> transfer r f t = Some (d, r') -> transfer r' t f = Some (d, r).
Proof.
  intros Hne H. unfold transfer in *.
  destruct (pop (disksOf r f)) as [[x|] rest] eqn:E; [|discriminate].
  inversion H; subst; clear H. apply pop_Some in E.
  rewrite disksOf_setDisks_same, pop_push.
  destruct r as [a b c]; destruct f, t; try congruence; simpl in *; subst; reflexivity.
Qed.

(** Disks only change place. *)
Lemma transfer_Permutation r f t d r' :
  transfer r f t = Some (d, r') -> Permutation (allDisks r') (allDisks r).
Proof.
  unfold transfer.
  destruct (pop (disksOf r f)) as [[x|] rest] eqn:E; [|discriminate].
  intros H; inversion H; subst; clear H. apply pop_Some in E.
  apply (Permutation_count_occ Z.eq_dec). intros z.
  destruct r as [a b c]; destruct f, t; unfold allDisks, push in *; simpl in *; subst;
    rewrite !count_occ_app; simpl; destruct (Z.eq_dec d z); lia.
Qed.

(** ** Ranges and the initial stack *)

Lemma length_range lo hi : length (range lo hi) = Z.to_nat (hi - lo + 1).
Proof. unfold range. now rewrite length_map, length_seq. Qed.

Lemma In_range lo hi z : In z (range lo hi) <-> lo <= z <= hi.
Proof.
  unfold range. rewrite in_map_iff. split.
  - intros [k [<- Hk]]. apply in_seq in Hk. lia.
  - intros H. exists (Z.to_nat (z - lo)). split; [lia|]. apply in_seq. lia.
Qed.

Lemma NoDup_range lo hi : NoDup (range lo hi).
Proof.
  unfold range. apply Finite.Injective_map_NoDup; [|apply seq_NoDup].
  intros x y; lia.
Qed.

Lemma In_countdown k z : In z (countdown k) <-> 1 <= z <= Z.of_nat k.
Proof.
  induction k as [|k IH]; [simpl; lia|].
  cbn [countdown In]. rewrite IH. lia.
Qed.

Lemma length_countdown k : length (countdown k) = k.
Proof. induction k; simpl; congruence. Qed.

Lemma nth_error_countdown k i :
  (i < k)%nat -> nth_error (countdown k) i = Some (Z.of_nat k - Z.of_nat i).
Proof.
  revert i. induction k as [|k IH]; intros i Hi; [lia|].
  destruct i as [|i]; cbn [countdown nth_error]; [f_equal; lia|].
  rewrite IH by lia. f_equal. lia.
Qed.

Lemma descending_countdown k : descending (countdown k).
Proof.
  induction k as [|k IH]; [constructor|].
  cbn [countdown]. constructor; [exact IH|].
  apply Forall_forall. intros z Hz. apply In_countdown in Hz. lia.
Qed.

Lemma NoDup_countdown k : NoDup (countdown k).
Proof.
  induction k as [|k IH]; [constructor|].
  cbn [countdown]. constructor; [|exact IH].
  rewrite In_countdown. lia.
Qed.

Lemma countdown_Permutation n : Permutation (initialDisks n) (range 1 n).
Proof.
  unfold initialDisks. apply NoDup_Permutation.
  - apply NoDup_countdown.
  - apply NoDup_range.
  - intros z. rewrite In_countdown, In_range. lia.
Qed.

(** ** What the validator of the state checks *)

Lemma nodup_length_le (l : list Z) : (length (nodup Z.eq_dec l) <= length l)%nat.
Proof.
  induction l as [|a l IH]; simpl; [lia|].
  destruct (in_dec Z.eq_dec a l); simpl; lia.
Qed.

Lemma nodup_length_NoDup (l : list Z) :
  length (nodup Z.eq_dec l) = length l -> NoDup l.
Proof.
  induction l as [|a l IH]; simpl; [constructor|].
  pose proof (nodup_length_le l) as Hle.
  destruct (in_dec Z.eq_dec a l); simpl; intros H; [lia|].
  constructor; [assumption | apply IH; lia].
Qed.

Lemma validateGameState_wellFormed gs :
  validateGameState gs = true <-> wellFormed gs.
Proof.
  unfold validateGameState. rewrite !andb_true_iff, !negb_true_iff, orb_false_iff.
  rewrite !descendingOrder_descending, !Z.eqb_eq, !Z.ltb_ge, Z.gtb_ltb, Z.ltb_ge.
  rewrite forallb_forall.
  split.
  - intros [[[[[[[[[H0 H1] H2] Hlen] Hnd] Hin] [Hlo Hhi]] Hsp] Hmc] Hh].
    assert (Hnodup : NoDup (allDisks (rods gs)))
      by (apply nodup_length_NoDup; lia).
    constructor; try lia.
    + intros []; assumption.
    + apply Permutation_sym, NoDup_Permutation_bis.
      * apply NoDup_range.
      * rewrite length_range. lia.
      * intros z Hz. apply Hin in Hz. apply existsb_exists in Hz as [y [Hy Hzy]].
        apply Z.eqb_eq in Hzy. now subst.
  - intros [Hd Hp Hn Ha Hm].
    pose proof (Permutation_length Hp) as Hlen. rewrite length_range in Hlen.
    assert (Hnodup : NoDup (allDisks (rods gs))).
    { eapply Permutation_NoDup; [apply Permutation_sym; exact Hp | apply NoDup_range]. }
    repeat split; try lia; try apply (Hd Rod0); try apply (Hd Rod1); try apply (Hd Rod2).
    + rewrite nodup_fixed_point by assumption. lia.
    + intros z Hz. apply existsb_exists. exists z. split; [|apply Z.eqb_refl].
      eapply Permutation_in; [apply Permutation_sym; exact Hp | exact Hz].
Qed.

(** [isGameWon] holds exactly when rod 2 carries the whole initial stack. *)
Lemma isGameWon_spec gs :
  0 <= numDisks (settings gs) ->
  isGameWon gs = true <-> rod2 (rods gs) = initialDisks (numDisks (settings gs)).
Proof.
  intros Hn. unfold isGameWon, initialDisks.
  set (n := numDisks (settings gs)) in *. set (l := rod2 (rods gs)).
  destruct (Z.of_nat (length l) =? n) eqn:E; simpl.
  - apply Z.eqb_eq in E. rewrite forallb_forall. split.
    + intros H. apply nth_error_ext. intros i.
      destruct (Nat.lt_ge_cases i (Z.to_nat n)) as [Hi|Hi].
      * rewrite nth_error_countdown by assumption.
        specialize (H (Z.of_nat i)). rewrite In_range, Nat2Z.id in H.
        destruct (nth_error l i) as [d|]; [|discriminate H; lia].
        f_equal. assert (Hd : (d =? n - Z.of_nat i) = true) by (apply H; lia).
        apply Z.eqb_eq in Hd. lia.
      * transitivity (@None Z); [|symmetry]; apply nth_error_None;
          rewrite ?length_countdown; lia.
    + intros H i Hi. apply In_range in Hi. rewrite H.
      rewrite nth_error_countdown by lia. apply Z.eqb_eq. lia.
  - apply Z.eqb_neq in E. split; [discriminate|].
    intros H. exfalso. apply E. rewrite H, length_countdown. lia.
Qed.

(** ** The move validator and the executor *)

Lemma validateMove_Valid gs fr to :
  validateMove gs fr to = Valid <->
  validateGameState gs = true /\ gameComplete gs = false
  /\ exists f t d, toRodIndex fr = Some f /\ toRodIndex to = Some t
                   /\ canPlace (rods gs) f t d.
Proof.
  unfold validateMove, canPlace. split.
  - destruct (validateGameState gs); simpl; [|discriminate].
    destruct (gameComplete gs); [discriminate|].
    destruct (toRodIndex fr) as [f|]; [|discriminate].
    destruct (toRodIndex to) as [t|]; [|discriminate].
    destruct (RodIndex_eqb f t) eqn:Eft; [discriminate|].
    destruct (top (disksOf (rods gs) f)) as [d|] eqn:Ed; [|discriminate].
    intros H. repeat split. exists f, t, d. repeat split; try reflexivity.
    + now apply RodIndex_eqb_neq.
    + assumption.
    + intros u Hu. rewrite Hu in H. destruct (d >=? u) eqn:E; [discriminate | lia].
  - intros [-> [-> [f [t [d [-> [-> [Hne [-> Hu]]]]]]]]]. simpl.
    apply RodIndex_eqb_neq in Hne. rewrite Hne.
    destruct (top (disksOf (rods gs) t)) as [u|]; [|reflexivity].
    specialize (Hu u eq_refl). destruct (d >=? u) eqn:E; [lia | reflexivity].
Qed.

Lemma wellFormed_disk_range gs i d :
  wellFormed gs -> In d (disksOf (rods gs) i) -> 1 <= d <= numDisks (settings gs).
Proof.
  intros Hwf Hin. apply (In_range 1).
  eapply Permutation_in; [apply (wf_disks _ Hwf)|].
  unfold allDisks. rewrite !in_app_iff. destruct i; simpl in Hin; tauto.
Qed.

Lemma top_In (l : list Z) d : top l = Some d -> In d l.
Proof.
  intros H. apply top_Some in H as [r [-> _]]. unfold push. apply in_app_iff.
  right. now left.
Qed.

Lemma isGameWon_ext gs gs' :
  rods gs' = rods gs -> settings gs' = settings gs -> isGameWon gs' = isGameWon gs.
Proof. unfold isGameWon. now intros -> ->. Qed.

(** A refused move: the result carries the validator's error and the state
    is the one passed in. *)
Lemma makeMove_Invalid gs fr to now e :
  validateMove gs fr to = Invalid e ->
  makeMove gs fr to now = Returns (Failure e, gs).
Proof. unfold makeMove. now intros ->. Qed.

(** An accepted move: the call returns a success, and this is the state it
    leaves. *)
Lemma makeMove_Valid gs fr to now :
  validateMove gs fr to = Valid ->
  exists f t d r' gs',
    toRodIndex fr = Some f /\ toRodIndex to = Some t
    /\ canPlace (rods gs) f t d
    /\ transfer (rods gs) f t = Some (d, r')
    /\ let move := mkMove f t d (moveCount gs + 1) (now 0%nat) None in
       makeMove gs fr to now = Returns (MoveDone move d (gameComplete gs'), gs')
       /\ rods gs' = r'
       /\ moveHistory gs' = push (moveHistory gs) move
       /\ moveCount gs' = moveCount gs + 1
       /\ selectedDisk gs' = None /\ selectedRod gs' = None
       /\ settings gs' = settings gs
       /\ gameComplete gs' = isGameWon gs'.
Proof.
  intros Hv. pose proof Hv as Hv'.
  apply validateMove_Valid in Hv' as [Hwf [Hc [f [t [d [Hf [Ht Hp]]]]]]].
  pose proof Hp as [Hne [Htop Hu]].
  apply validateGameState_wellFormed in Hwf.
  assert (Hd : 1 <= d) by (eapply wellFormed_disk_range; eauto using top_In).
  pose proof (wf_moveCount _ Hwf) as Hm.
  destruct (top_Some _ _ Htop) as [rest [Hsrc Hpop]].
  set (r' := setDisks (setDisks (rods gs) f rest) t
               (push (disksOf (setDisks (rods gs) f rest) t) d)).
  assert (Htr : transfer (rods gs) f t = Some (d, r'))
    by (unfold transfer; now rewrite Hpop).
  unfold makeMove, getMoveInfo, createMove, rodDisks_transfer.
  rewrite Hv, Hf, Ht, Htop, Htr. apply RodIndex_eqb_neq in Hne as Hne'. rewrite Hne'.
  replace (d <? 1) with false by lia.
  replace (moveCount gs + 1 <? 1) with false by lia.
  cbv zeta.
  cbn [gameComplete negb rods selectedDisk selectedRod moveCount moveHistory
       settings diskId].
  rewrite Hc. cbn [negb].
  match goal with |- context [isGameWon ?g] => destruct (isGameWon g) eqn:Ew end;
    cbn [andb];
    match goal with |- context [Returns (_, ?g)] =>
      exists f, t, d, r', g end;
    repeat split; try assumption.
  - cbn [gameComplete]. symmetry. rewrite <- Ew. now apply isGameWon_ext.
  - cbn [gameComplete]. symmetry. exact Ew.
Qed.

(** The three ways [undoLastMove] returns, and the one way it leaves the
    model. *)
Lemma undoLastMove_empty gs :
  moveHistory gs = [] ->
  undoLastMove gs = Returns (Failure (createMoveError "NO_MOVES_TO_UNDO"), gs).
Proof. unfold undoLastMove. now intros ->. Qed.

Lemma undoLastMove_complete gs :
  moveHistory gs <> [] -> gameComplete gs = true ->
  undoLastMove gs = Returns (Failure (createMoveError "CANNOT_UNDO_COMPLETE_GAME"), gs).
Proof.
  unfold undoLastMove. intros Hh ->.
  destruct (moveHistory gs); [congruence | reflexivity].
Qed.

Lemma undoLastMove_open gs h m :
  moveHistory gs = push h m -> gameComplete gs = false ->
  match transfer (rods gs) (toRod m) (fromRod m) with
  | Some (d, r') =>
    exists gs',
      undoLastMove gs = Returns (UndoDone m d, gs')
      /\ rods gs' = r' /\ moveHistory gs' = h
      /\ moveCount gs' = moveCount gs - 1
      /\ selectedDisk gs' = None /\ selectedRod gs' = None
      /\ settings gs' = settings gs /\ gameComplete gs' = false
  | None => undoLastMove gs = PushesUndefined
  end.
Proof.
  intros Hh Hc. unfold undoLastMove. rewrite Hh, pop_push, Hc.
  replace (Z.of_nat (length (push h m)) =? 0) with false
    by (symmetry; apply Z.eqb_neq; unfold push; rewrite length_app; cbn [length]; lia).
  destruct (transfer (rods gs) (toRod m) (fromRod m)) as [[d r']|]; [|reflexivity].
  eexists. split; [reflexivity|]. repeat split.
Qed.

(** ** Reachable states *)

Lemma played_push_inv n r' h m :
  played n r' (push h m) ->
  exists r, played n r h /\ rod2 r <> initialDisks n
            /\ canPlace r (fromRod m) (toRod m) (diskId m)
            /\ transfer r (fromRod m) (toRod m) = Some (diskId m, r').
Proof.
  intros H. remember (push h m) as hm eqn:E.
  destruct H as [|r h0 m0 r0 Hp Hw Hc Ht].
  - symmetry in E. now apply push_not_nil in E.
  - apply push_inj in E as [-> ->]. eauto.
Qed.

Lemma canPlace_transfer_descending r f t d r' :
  canPlace r f t d -> transfer r f t = Some (d, r') ->
  (forall i, descending (disksOf r i)) -> forall i, descending (disksOf r' i).
Proof.
  intros [Hne [Htop Hu]] Htr Hd i.
  destruct (transfer_Some _ _ _ _ _ Hne Htr) as [Hsrc [Hdst Hoth]].
  destruct (RodIndex_eqb i f) eqn:Ef; [apply RodIndex_eqb_eq in Ef as ->|].
  - specialize (Hd f). rewrite Hsrc in Hd. now apply descending_push in Hd.
  - apply RodIndex_eqb_neq in Ef.
    destruct (RodIndex_eqb i t) eqn:Et; [apply RodIndex_eqb_eq in Et as ->|].
    + rewrite Hdst. apply descending_push. split; [apply Hd|].
      destruct (top (disksOf r t)) as [u|] eqn:Eu.
      * specialize (Hu u eq_refl).
        eapply Forall_impl; [|apply (descending_top_least _ u (Hd t) Eu)].
        simpl. intros; lia.
      * apply top_None in Eu. rewrite Eu. constructor.
    + apply RodIndex_eqb_neq in Et. rewrite Hoth by assumption. apply Hd.
Qed.

Lemma played_rods n r h :
  played n r h ->
  (forall i, descending (disksOf r i)) /\ Permutation (allDisks r) (range 1 n).
Proof.
  induction 1 as [|r h m r' Hp [IHd IHp] Hw Hc Ht].
  - split.
    + intros []; simpl; [apply descending_countdown | constructor | constructor].
    + unfold allDisks. simpl. rewrite app_nil_r. apply countdown_Permutation.
  - split.
    + eapply canPlace_transfer_descending; eauto.
    + etransitivity; [eapply transfer_Permutation; eauto | exact IHp].
Qed.

Lemma createGameState_Returns n now gs :
  createGameState (JsInt n) now = Returns gs ->
  3 <= n <= 8
  /\ gs = {| rods := mkRods (initialDisks n) [] [];
             selectedDisk := None;
             selectedRod := None;
             moveCount := 0;
             gameComplete := false;
             moveHistory := [];
             settings := mkSettings n 300 true 500;
             metadata := mkMetadata now None (2 ^ n - 1) None None |}.
Proof.
  unfold createGameState.
  destruct ((n <? 3) || (n >? 8)) eqn:E; [discriminate|].
  intros H. inversion H. split; [lia | reflexivity].
Qed.

Lemma invariant_new n now gs :
  createGameState (JsInt n) now = Returns gs -> invariant n gs.
Proof.
  intros H. apply createGameState_Returns in H as [Hn ->].
  constructor; simpl; try lia; try reflexivity.
  - constructor.
  - symmetry. apply not_true_is_false. intros Hw.
    apply isGameWon_spec in Hw; simpl in *; [|lia].
    assert (Hl : length (initialDisks n) = 0%nat) by now rewrite <- Hw.
    unfold initialDisks in Hl. rewrite length_countdown in Hl. lia.
Qed.

Lemma invariant_not_won n gs :
  invariant n gs -> gameComplete gs = false -> rod2 (rods gs) <> initialDisks n.
Proof.
  intros Hi Hc Hw. rewrite (inv_complete _ _ Hi) in Hc.
  rewrite <- (inv_numDisks _ _ Hi) in Hw. apply isGameWon_spec in Hw.
  - congruence.
  - rewrite (inv_numDisks _ _ Hi). pose proof (inv_range _ _ Hi). lia.
Qed.

Lemma invariant_makeMove n gs fr to now res gs' :
  invariant n gs -> makeMove gs fr to now = Returns (res, gs') -> invariant n gs'.
Proof.
  intros Hi Hm. destruct (validateMove gs fr to) as [|e] eqn:Hv.
  - destruct (makeMove_Valid gs fr to now Hv)
      as [f [t [d [r' [gs1 [Hf [Ht [Hp [Htr H]]]]]]]]].
    cbv zeta in H.
    destruct H as [Heq [Hr [Hh [Hc [_ [_ [Hs Hg]]]]]]].
    rewrite Heq in Hm. inversion Hm; subst res gs1; clear Hm.
    apply validateMove_Valid in Hv as [_ [Hopen _]].
    constructor.
    + rewrite Hr, Hh. eapply played_move; simpl; eauto using inv_played.
      now apply invariant_not_won.
    + rewrite Hs. apply Hi.
    + apply Hi.
    + rewrite Hs. apply Hi.
    + rewrite Hc, Hh, (inv_moveCount _ _ Hi). unfold push. rewrite length_app.
      simpl. lia.
    + exact Hg.
  - rewrite (makeMove_Invalid _ _ _ _ _ Hv) in Hm. inversion Hm; subst. exact Hi.
Qed.

Lemma invariant_undoLastMove n gs res gs' :
  invariant n gs -> undoLastMove gs = Returns (res, gs') -> invariant n gs'.
Proof.
  intros Hi Hu.
  destruct (moveHistory gs) as [|m0 h0] eqn:Eh.
  { rewrite (undoLastMove_empty _ Eh) in Hu. inversion Hu; subst. exact Hi. }
  destruct (gameComplete gs) eqn:Ec.
  { rewrite undoLastMove_complete in Hu by (assumption || congruence).
    inversion Hu; subst. exact Hi. }
  destruct (exists_last (l := m0 :: h0)) as [h [m Ehm]]; [discriminate|].
  rewrite Ehm in Eh. change (h ++ [m]) with (push h m) in Eh.
  pose proof (inv_played _ _ Hi) as Hp. rewrite Eh in Hp.
  apply played_push_inv in Hp as [r [Hp [Hw [Hc Htr]]]].
  pose proof Hc as [Hne _].
  apply (transfer_inverse _ _ _ _ _ Hne) in Htr.
  pose proof (undoLastMove_open gs h m Eh Ec) as H. rewrite Htr in H.
  destruct H as [gs1 [Heq [Hr [Hh [Hmc [_ [_ [Hs Hg]]]]]]]].
  rewrite Heq in Hu. inversion Hu; subst res gs1; clear Hu.
  constructor.
  - now rewrite Hr, Hh.
  - rewrite Hs. apply Hi.
  - apply Hi.
  - rewrite Hs. apply Hi.
  - rewrite Hmc, Hh, (inv_moveCount _ _ Hi), Eh. unfold push. rewrite length_app.
    simpl. lia.
  - rewrite Hg. symmetry. apply not_true_is_false. intros Hwon.
    apply isGameWon_spec in Hwon.
    + rewrite Hr, Hs, (inv_numDisks _ _ Hi) in Hwon. contradiction.
    + rewrite Hs, (inv_numDisks _ _ Hi). pose proof (inv_range _ _ Hi). lia.
Qed.

Lemma invariant_selection n gs sd sr :
  invariant n gs ->
  invariant n {| rods := rods gs;
                 selectedDisk := sd;
                 selectedRod := sr;
                 moveCount := moveCount gs;
                 gameComplete := gameComplete gs;
                 moveHistory := moveHistory gs;
                 settings := settings gs;
                 metadata := metadata gs |}.
Proof. intros [Hp Hn Hr Hs Hm Hc]. constructor; assumption. Qed.

Lemma invariant_run n c gs res gs' :
  invariant n gs -> run c gs = Returns (res, gs') -> invariant n gs'.
Proof.
  intros Hi H. destruct c as [fr to now| |i| |to now]; simpl in H.
  - eapply invariant_makeMove; eauto.
  - eapply invariant_undoLastMove; eauto.
  - unfold selectDisk in H.
    destruct (toRodIndex i) as [k|]; [|inversion H; subst; exact Hi].
    destruct (top (disksOf (rods gs) k)) as [d|]; inversion H; subst;
      [now apply invariant_selection | exact Hi].
  - unfold clearSelection in H. inversion H; subst. now apply invariant_selection.
  - unfold moveSelectedDisk in H.
    destruct (selectedDisk gs), (selectedRod gs);
      try (inversion H; subst; exact Hi).
    eapply invariant_makeMove; eauto.
Qed.

Lemma invariant_step n gs gs' : invariant n gs -> step gs gs' -> invariant n gs'.
Proof. intros Hi [c [res H]]. eapply invariant_run; eauto. Qed.

Lemma reachable_invariant n gs : reachable n gs -> invariant n gs.
Proof.
  induction 1 as [now gs H | gs gs' _ IH Hs].
  - eapply invariant_new; eauto.
  - eapply invariant_step; eauto.
Qed.

Lemma invariant_wellFormed n gs : invariant n gs -> wellFormed gs.
Proof.
  intros Hi. destruct (played_rods _ _ _ (inv_played _ _ Hi)) as [Hd Hp].
  pose proof (inv_range _ _ Hi).
  constructor; rewrite ?(inv_numDisks _ _ Hi); try assumption; apply Hi.
Qed.

(** [makeMove] returns on every state; on a state that satisfies the
    invariant every call returns: no exception leaves it and no
    [undefined] reaches a rod. *)
Lemma makeMove_returns gs fr to now :
  exists res gs', makeMove gs fr to now = Returns (res, gs').
Proof.
  destruct (validateMove gs fr to) as [|e] eqn:Hv.
  - destruct (makeMove_Valid gs fr to now Hv)
      as [f [t [d [r' [gs1 [_ [_ [_ [_ [Heq _]]]]]]]]]].
    eauto.
  - rewrite (makeMove_Invalid _ _ _ _ _ Hv). eauto.
Qed.

Lemma invariant_undoLastMove_returns n gs :
  invariant n gs -> exists res gs', undoLastMove gs = Returns (res, gs').
Proof.
  intros Hi. destruct (moveHistory gs) as [|m0 h0] eqn:Eh.
  { rewrite (undoLastMove_empty _ Eh). eauto. }
  destruct (gameComplete gs) eqn:Ec.
  { rewrite undoLastMove_complete by (assumption || congruence). eauto. }
  destruct (exists_last (l := m0 :: h0)) as [h [m Ehm]]; [discriminate|].
  rewrite Ehm in Eh. change (h ++ [m]) with (push h m) in Eh.
  pose proof (inv_played _ _ Hi) as Hp. rewrite Eh in Hp.
  apply played_push_inv in Hp as [r [_ [_ [[Hne _] Htr]]]].
  apply (transfer_inverse _ _ _ _ _ Hne) in Htr.
  pose proof (undoLastMove_open gs h m Eh Ec) as H. rewrite Htr in H.
  destruct H as [gs1 [Heq _]]. eauto.
Qed.

Lemma invariant_run_returns n c gs :
  invariant n gs -> exists res gs', run c gs = Returns (res, gs').
Proof.
  intros Hi. destruct c as [fr to now| |i| |to now]; simpl.
  - apply makeMove_returns.
  - eapply invariant_undoLastMove_returns; eauto.
  - destruct (selectDisk gs i) as [res gs']. eauto.
  - destruct (clearSelection gs) as [res gs']. eauto.
  - unfold moveSelectedDisk.
    destruct (selectedDisk gs), (selectedRod gs); eauto using makeMove_returns.
Qed.

(** ** Concrete games *)

Lemma newGame3_created : createGameState (JsInt 3) 0 = Returns newGame3.
Proof. reflexivity. Qed.

Lemma newGame3_reachable : reachable 3 newGame3.
Proof. apply (reachable_new 3 0). reflexivity. Qed.

Lemma midGame3_made :
  makeMove newGame3 (JsInt 0) (JsInt 1) midnight
  = Returns (MoveDone (mkMove Rod0 Rod1 1 1 0 None) 1 false, midGame3).
Proof. reflexivity. Qed.

Lemma midGame3_reachable : reachable 3 midGame3.
Proof.
  apply (reachable_step 3 newGame3); [apply newGame3_reachable|].
  exists (MakeMove (JsInt 0) (JsInt 1) midnight). eexists. apply midGame3_made.
Qed.

(** ** The engine's properties *)

(** C5.  In every state reachable from [createGameState(n)] by calls of
    [makeMove], [undoLastMove], [selectDisk], [clearSelection] (and
    [moveSelectedDisk]), with any arguments, each rod is strictly
    decreasing from bottom to top, and the disks on the three rods are the
    ranks 1..n, each exactly once; [n] is between 3 and 8, the state passes
    [validateGameState], and every further call returns. *)
Theorem reachable_rods_ordered_and_complete n gs :
  reachable n gs ->
  3 <= n <= 8
  /\ (forall i, StronglySorted Z.gt (disksOf (rods gs) i))
  /\ Permutation (allDisks (rods gs)) (range 1 n)
  /\ (forall k, 1 <= k <= n -> count_occ Z.eq_dec (allDisks (rods gs)) k = 1%nat)
  /\ (forall k, In k (allDisks (rods gs)) -> 1 <= k <= n)
  /\ validateGameState gs = true
  /\ (forall c, exists res gs', run c gs = Returns (res, gs')).
Proof.
  intros Hr. apply reachable_invariant in Hr.
  pose proof (invariant_wellFormed _ _ Hr) as Hwf.
  pose proof (inv_numDisks _ _ Hr) as Hn.
  destruct Hwf as [Hd Hp Hrange Hs Hm]. rewrite Hn in *.
  split; [lia|]. split; [exact Hd|]. split; [exact Hp|].
  split; [|split; [|split]].
  - intros k Hk. rewrite (Permutation_count_occ Z.eq_dec) in Hp. rewrite Hp.
    apply NoDup_count_occ'; [apply NoDup_range | apply In_range; lia].
  - intros k Hk. apply (In_range 1 n). eapply Permutation_in; eauto.
  - apply validateGameState_wellFormed. apply (invariant_wellFormed _ _ Hr).
  - intros c. eapply invariant_run_returns; eauto.
Qed.

Lemma reachable_rods_ordered_and_complete_witness :
  3 <= 3 <= 8
  /\ (forall i, StronglySorted Z.gt (disksOf (rods midGame3) i))
  /\ Permutation (allDisks (rods midGame3)) (range 1 3)
  /\ (forall k, 1 <= k <= 3 -> count_occ Z.eq_dec (allDisks (rods midGame3)) k = 1%nat)
  /\ (forall k, In k (allDisks (rods midGame3)) -> 1 <= k <= 3)
  /\ validateGameState midGame3 = true
  /\ (forall c, exists res gs', run c midGame3 = Returns (res, gs')).
Proof.
  apply (reachable_rods_ordered_and_complete 3 midGame3).
  apply (reachable_step 3 newGame3).
  - apply (reachable_new 3 0). reflexivity.
  - exists (MakeMove (JsInt 0) (JsInt 1) midnight). eexists. reflexivity.
Defined.

Lemma wellFormed_won_rods gs :
  wellFormed gs ->
  rod2 (rods gs) = initialDisks (numDisks (settings gs)) ->
  rods gs = mkRods [] [] (initialDisks (numDisks (settings gs))).
Proof.
  intros Hwf Hw. pose proof (Permutation_length (wf_disks _ Hwf)) as Hl.
  pose proof (wf_numDisks _ Hwf) as Hn.
  rewrite length_range in Hl. unfold allDisks in Hl. rewrite !length_app, Hw in Hl.
  unfold initialDisks in Hl. rewrite length_countdown in Hl.
  destruct (rods gs) as [a b c]; simpl in *.
  assert (length a = 0%nat) by lia. assert (length b = 0%nat) by lia.
  destruct a, b; try discriminate. now subst.
Qed.

(** C6.  In every state reachable from [createGameState(n)] the
    [gameComplete] flag is the value of [isGameWon], and it is [true]
    exactly when rods 0 and 1 are empty and rod 2 holds [n, ..., 1] from
    bottom to top. *)
Theorem reachable_complete_iff_won n gs :
  reachable n gs ->
  gameComplete gs = isGameWon gs
  /\ (gameComplete gs = true <-> rods gs = mkRods [] [] (initialDisks n)).
Proof.
  intros Hr. apply reachable_invariant in Hr.
  pose proof (invariant_wellFormed _ _ Hr) as Hwf.
  pose proof (inv_numDisks _ _ Hr) as Hn. pose proof (inv_range _ _ Hr) as Hrange.
  split; [apply Hr|]. rewrite (inv_complete _ _ Hr), isGameWon_spec by lia.
  rewrite Hn. split.
  - intros Hw. rewrite <- Hn in *. now apply wellFormed_won_rods.
  - now intros ->.
Qed.

Lemma reachable_complete_iff_won_witness :
  gameComplete midGame3 = isGameWon midGame3
  /\ (gameComplete midGame3 = true <-> rods midGame3 = mkRods [] [] (initialDisks 3)).
Proof.
  apply (reachable_complete_iff_won 3 midGame3).
  apply (reachable_step 3 newGame3).
  - apply (reachable_new 3 0). reflexivity.
  - exists (MakeMove (JsInt 0) (JsInt 1) midnight). eexists. reflexivity.
Defined.

(** C7.  For every [n] from 3 to 8, [calculateMinimumMoves(n)] is the
    integer [2^n - 1] (7, 15, 31, 63, 127, 255), and [createGameState(n)]
    returns a state whose [optimalMoves] is the same integer. *)
Theorem minimum_moves_formula n :
  3 <= n <= 8 ->
  calculateMinimumMoves n = 2 ^ n - 1
  /\ In (n, calculateMinimumMoves n)
        [(3, 7); (4, 15); (5, 31); (6, 63); (7, 127); (8, 255)]
  /\ forall now, exists gs,
       createGameState (JsInt n) now = Returns gs
       /\ optimalMoves (metadata gs) = calculateMinimumMoves n.
Proof.
  intros Hn. split; [reflexivity|]. split.
  - assert (H : n = 3 \/ n = 4 \/ n = 5 \/ n = 6 \/ n = 7 \/ n = 8) by lia.
    repeat (destruct H as [->|H]); try subst n; cbv; tauto.
  - intros now. unfold createGameState.
    replace ((n <? 3) || (n >? 8)) with false by lia.
    eexists. split; reflexivity.
Qed.

Lemma minimum_moves_formula_witness :
  calculateMinimumMoves 5 = 2 ^ 5 - 1
  /\ In (5, calculateMinimumMoves 5)
        [(3, 7); (4, 15); (5, 31); (6, 63); (7, 127); (8, 255)]
  /\ forall now, exists gs,
       createGameState (JsInt 5) now = Returns gs
       /\ optimalMoves (metadata gs) = calculateMinimumMoves 5.
Proof. apply (minimum_moves_formula 5). lia. Defined.

(** C8.  When [makeMove], [undoLastMove], [selectDisk] or
    [moveSelectedDisk] returns a failure result, the state it leaves is the
    state it was given: rods, counters, history, selection, completion flag,
    settings and metadata are all the same. *)
Theorem failure_leaves_state_unchanged c gs res gs' :
  run c gs = Returns (res, gs') -> success res = false -> gs' = gs.
Proof.
  intros H Hf. destruct c as [fr to now| |i| |to now]; simpl in H.
  - destruct (validateMove gs fr to) as [|e] eqn:Hv.
    + destruct (makeMove_Valid gs fr to now Hv)
        as [f [t [d [r' [gs1 [_ [_ [_ [_ [Heq _]]]]]]]]]].
      rewrite Heq in H. inversion H; subst. discriminate.
    + rewrite (makeMove_Invalid _ _ _ _ _ Hv) in H. now inversion H.
  - unfold undoLastMove in H.
    destruct (Z.of_nat (length (moveHistory gs)) =? 0); [now inversion H|].
    destruct (gameComplete gs); [now inversion H|].
    destruct (pop (moveHistory gs)) as [[m|] h]; [|discriminate].
    destruct (transfer (rods gs) (toRod m) (fromRod m)) as [[d r']|];
      [|discriminate].
    inversion H; subst. discriminate.
  - unfold selectDisk in H.
    destruct (toRodIndex i) as [k|]; [|now inversion H].
    destruct (top (disksOf (rods gs) k)); inversion H; subst;
      [discriminate | reflexivity].
  - unfold clearSelection in H. inversion H; subst. discriminate.
  - unfold moveSelectedDisk in H.
    destruct (selectedDisk gs), (selectedRod gs); try (now inversion H).
    destruct (validateMove gs (JsInt (rodNumber r)) to) as [|e] eqn:Hv.
    + destruct (makeMove_Valid gs _ to now Hv)
        as [f [t [d [r' [gs1 [_ [_ [_ [_ [Heq _]]]]]]]]]].
      rewrite Heq in H. inversion H; subst. discriminate.
    + rewrite (makeMove_Invalid _ _ _ _ _ Hv) in H. now inversion H.
Qed.

Lemma failure_leaves_state_unchanged_witness :
  run (MakeMove (JsInt 0) (JsInt 1) midnight) midGame3
  = Returns (Failure (createMoveError MoveError.LARGER_ON_SMALLER), midGame3)
  /\ success (Failure (createMoveError MoveError.LARGER_ON_SMALLER)) = false
  /\ midGame3 = midGame3.
Proof.
  split; [reflexivity|]. split; [reflexivity|].
  apply (failure_leaves_state_unchanged
           (MakeMove (JsInt 0) (JsInt 1) midnight) midGame3
           (Failure (createMoveError MoveError.LARGER_ON_SMALLER)) midGame3);
    reflexivity.
Defined.

Lemma namesRod_toRodIndex v : namesRod v <-> exists i, toRodIndex v = Some i.
Proof.
  split.
  - intros [z [-> Hz]].
    assert (H : z = 0 \/ z = 1 \/ z = 2) by lia.
    destruct H as [-> | [-> | ->]]; eexists; reflexivity.
  - intros [i H]. apply toRodIndex_Some in H as [z [-> [Hz _]]]. now exists z.
Qed.

(** C4.  On a state that passes [validateGameState], [validateMove] reports
    the first rule that fails, in this order: the game is complete
    (GAME_COMPLETE); [fromRod] is not an integer among 0, 1, 2
    (INVALID_SOURCE_ROD); [toRod] is not (INVALID_TARGET_ROD); the two are
    the same rod (SAME_ROD); the source rod is empty (EMPTY_SOURCE_ROD); the
    target rod's top disk is smaller than or equal to the source rod's top
    disk (LARGER_ON_SMALLER).  It accepts the move when no rule fails. *)
Theorem validateMove_first_failing_rule gs fromRod toRod :
  validateGameState gs = true ->
  (gameComplete gs = true ->
   validateMove gs fromRod toRod = Invalid (mkError "GAME_COMPLETE"))
  /\ (gameComplete gs = false ->
      (~ namesRod fromRod ->
       validateMove gs fromRod toRod = Invalid (mkError "INVALID_SOURCE_ROD"))
      /\ (namesRod fromRod -> ~ namesRod toRod ->
          validateMove gs fromRod toRod = Invalid (mkError "INVALID_TARGET_ROD"))
      /\ (namesRod fromRod -> namesRod toRod -> fromRod = toRod ->
          validateMove gs fromRod toRod = Invalid (mkError "SAME_ROD"))
      /\ (forall f t, fromRod = JsInt (rodNumber f) -> toRod = JsInt (rodNumber t) ->
          f <> t ->
          (disksOf (rods gs) f = [] ->
           validateMove gs fromRod toRod = Invalid (mkError "EMPTY_SOURCE_ROD"))
          /\ (forall below d, disksOf (rods gs) f = below ++ [d] ->
              (forall below' u, disksOf (rods gs) t = below' ++ [u] -> u <= d ->
               validateMove gs fromRod toRod = Invalid (mkError "LARGER_ON_SMALLER"))
              /\ (forall below' u, disksOf (rods gs) t = below' ++ [u] -> d < u ->
                  validateMove gs fromRod toRod = Valid)
              /\ (disksOf (rods gs) t = [] ->
                  validateMove gs fromRod toRod = Valid)))).
Proof.
  intros Hv. unfold validateMove. rewrite Hv. cbn [negb]. split.
  - now intros ->.
  - intros ->. split; [|split; [|split]].
    + intros Hf. destruct (toRodIndex fromRod) as [f|] eqn:Ef; [|reflexivity].
      exfalso. apply Hf. apply namesRod_toRodIndex. eauto.
    + intros Hf Ht. apply namesRod_toRodIndex in Hf as [f ->].
      destruct (toRodIndex toRod) as [t|] eqn:Et; [|reflexivity].
      exfalso. apply Ht. apply namesRod_toRodIndex. eauto.
    + intros Hf _ <-. apply namesRod_toRodIndex in Hf as [f ->].
      replace (RodIndex_eqb f f) with true; [reflexivity|].
      symmetry. now apply RodIndex_eqb_eq.
    + intros f t -> -> Hne. rewrite !toRodIndex_rodNumber.
      apply RodIndex_eqb_neq in Hne. rewrite Hne. split.
      * now intros ->.
      * intros below d ->. change (below ++ [d]) with (push below d).
        rewrite top_push. split; [|split].
        -- intros below' u -> Hu. change (below' ++ [u]) with (push below' u).
           rewrite top_push. now replace (d >=? u) with true by lia.
        -- intros below' u -> Hu. change (below' ++ [u]) with (push below' u).
           rewrite top_push. now replace (d >=? u) with false by lia.
        -- now intros ->.
Qed.

Lemma validateMove_first_failing_rule_witness :
  validateGameState midGame3 = true
  /\ validateMove midGame3 (JsInt 0) (JsInt 1) = Invalid (mkError "LARGER_ON_SMALLER").
Proof.
  split; [reflexivity|].
  destruct (validateMove_first_failing_rule midGame3 (JsInt 0) (JsInt 1) eq_refl)
    as [_ H].
  destruct (H eq_refl) as [_ [_ [_ H4]]].
  destruct (H4 Rod0 Rod1 eq_refl eq_refl) as [_ H5]; [discriminate|].
  destruct (H5 [3] 2 eq_refl) as [H6 _].
  apply (H6 [] 1 eq_refl). lia.
Defined.

(** C10, counterexample.  [undefined] is no integer, and
    [createGameState(undefined)] returns the three-disk game: the default
    value of the parameter takes its place. *)
Lemma createGameState_undefined_returns : ~ throwsUnlessDiskCount JsUndefined 0.
Proof.
  intros H. destruct H as [message H].
  - intros [n [Hn _]]. discriminate Hn.
  - discriminate H.
Qed.

Lemma initialState_created n now :
  3 <= n <= 8 ->
  exists gs, createGameState (JsInt n) now = Returns gs /\ initialState n gs.
Proof.
  intros Hn. destruct (createGameState (JsInt n) now) as [gs| |] eqn:E.
  - exists gs. split; [reflexivity|].
    pose proof (reachable_new n now gs E) as Hr.
    apply createGameState_Returns in E as [_ ->].
    repeat split.
    apply validateGameState_wellFormed. eapply invariant_wellFormed.
    apply (reachable_invariant n). exact Hr.
  - unfold createGameState in E.
    replace ((n <? 3) || (n >? 8)) with false in E by lia. discriminate.
  - unfold createGameState in E.
    replace ((n <? 3) || (n >? 8)) with false in E by lia. discriminate.
Qed.

(** C10, amended.  [createGameState] returns the initial state of a game of
    [n] disks when its argument is an integer [n] from 3 to 8, returns the
    initial state of a game of 3 disks when its argument is [undefined]
    (or left out), and throws for every other argument; it never returns
    an error result. *)
Theorem createGameState_returns_or_throws arg now :
  (forall n, arg = JsInt n -> 3 <= n <= 8 ->
     exists gs, createGameState arg now = Returns gs /\ initialState n gs)
  /\ (arg = JsUndefined ->
     exists gs, createGameState arg now = Returns gs /\ initialState 3 gs)
  /\ ((~ exists n, arg = JsInt n /\ 3 <= n <= 8) -> arg <> JsUndefined ->
     exists message, createGameState arg now = Throws message).
Proof.
  split; [|split].
  - intros n -> Hn. now apply initialState_created.
  - intros ->. apply (initialState_created 3 now). lia.
  - intros Hn Hu. destruct arg as [n| |]; [| congruence | eexists; reflexivity].
    unfold createGameState.
    destruct ((n <? 3) || (n >? 8)) eqn:E; [eexists; reflexivity|].
    exfalso. apply Hn. exists n. split; [reflexivity | lia].
Qed.

Lemma createGameState_returns_or_throws_witness :
  exists message, createGameState (JsInt 9) 0 = Throws message.
Proof.
  apply (createGameState_returns_or_throws (JsInt 9) 0).
  - intros [n [Hn Hr]]. inversion Hn. lia.
  - discriminate.
Defined.

(** ** Undo *)

Lemma replay_reachable n clock sol : forall gs k final,
  reachable n gs -> replay gs sol clock k = Finished final -> reachable n final.
Proof.
  induction sol as [|m sol IH]; intros gs k final Hr H; simpl in H.
  - inversion H; subst. exact Hr.
  - destruct (makeMove gs (JsInt (from m)) (JsInt (to m)) (clock k))
      as [[res gs']| |] eqn:E; try discriminate.
    assert (Hr' : reachable n gs').
    { apply (reachable_step n gs); [exact Hr|].
      exists (MakeMove (JsInt (from m)) (JsInt (to m)) (clock k)), res. exact E. }
    destruct res; try discriminate; eapply IH; eauto.
Qed.

Lemma lastMove3_reachable : reachable 3 lastMove3.
Proof.
  apply (replay_reachable 3 (fun _ => midnight)
           [mkSolverMove 0 2 1; mkSolverMove 0 1 2; mkSolverMove 2 1 1;
            mkSolverMove 0 2 3; mkSolverMove 1 0 1; mkSolverMove 1 2 2]
           newGame3 0%nat).
  - apply newGame3_reachable.
  - reflexivity.
Qed.

(** C2, counterexample.  The move 0 -> 2 that wins the three-disk game
    succeeds, and the undo that follows is refused. *)
Lemma undo_refused_after_winning_move :
  ~ undoRestores lastMove3 (JsInt 0) (JsInt 2) midnight.
Proof.
  intros H. edestruct H as [res' [gs'' [Hu [Hs _]]]]; [reflexivity | reflexivity |].
  vm_compute in Hu. inversion Hu; subst. discriminate.
Qed.

(** C2, amended.  When [makeMove] succeeds and the move does not complete
    the game, the [undoLastMove] that follows succeeds and restores the
    rods, [moveCount] and [moveHistory] (hence its length) to what they were
    before the move; settings and completion flag are unchanged, the
    selection is cleared.  When the move completes the game, the undo is
    refused and changes nothing. *)
Theorem makeMove_undo_round_trip gs src dst now res gs' :
  makeMove gs src dst now = Returns (res, gs') ->
  success res = true ->
  (gameComplete gs' = false ->
   exists move d gs'',
     undoLastMove gs' = Returns (UndoDone move d, gs'')
     /\ res = MoveDone move d false
     /\ rods gs'' = rods gs
     /\ moveCount gs'' = moveCount gs
     /\ moveHistory gs'' = moveHistory gs
     /\ length (moveHistory gs'') = length (moveHistory gs)
     /\ settings gs'' = settings gs
     /\ gameComplete gs'' = gameComplete gs
     /\ selectedDisk gs'' = None /\ selectedRod gs'' = None)
  /\ (gameComplete gs' = true ->
     undoLastMove gs'
     = Returns (Failure (createMoveError "CANNOT_UNDO_COMPLETE_GAME"), gs')).
Proof.
  intros Hm Hs. destruct (validateMove gs src dst) as [|e] eqn:Hv.
  2:{ rewrite (makeMove_Invalid _ _ _ _ _ Hv) in Hm. inversion Hm; subst.
      discriminate. }
  destruct (makeMove_Valid gs src dst now Hv)
    as [f [t [d [r' [gs1 [Hf [Ht [Hp [Htr H]]]]]]]]].
  cbv zeta in H. destruct H as [Heq [Hr [Hh [Hc [_ [_ [Hset Hg]]]]]]].
  rewrite Heq in Hm. inversion Hm; subst res gs1; clear Hm.
  apply validateMove_Valid in Hv as [_ [Hopen _]].
  split.
  - intros Hc'.
    pose proof (undoLastMove_open gs' _ _ Hh Hc') as Hu. cbn [toRod fromRod] in Hu.
    destruct Hp as [Hne _].
    rewrite Hr in Hu. rewrite (transfer_inverse _ _ _ _ _ Hne Htr) in Hu.
    destruct Hu as [gs'' [Hu [Hr' [Hh' [Hc'' [Hsd [Hsr [Hset' Hg']]]]]]]].
    eexists _, d, gs''. rewrite Hc'. split; [exact Hu|].
    repeat split; try congruence; lia.
  - intros Hc'. apply undoLastMove_complete; [|exact Hc'].
    rewrite Hh. apply push_not_nil.
Qed.

Lemma makeMove_undo_round_trip_witness :
  exists move d gs'',
    undoLastMove midGame3 = Returns (UndoDone move d, gs'')
    /\ MoveDone (mkMove Rod0 Rod1 1 1 0 None) 1 false = MoveDone move d false
    /\ rods gs'' = rods newGame3
    /\ moveCount gs'' = moveCount newGame3
    /\ moveHistory gs'' = moveHistory newGame3
    /\ length (moveHistory gs'') = length (moveHistory newGame3)
    /\ settings gs'' = settings newGame3
    /\ gameComplete gs'' = gameComplete newGame3
    /\ selectedDisk gs'' = None /\ selectedRod gs'' = None.
Proof.
  apply (makeMove_undo_round_trip newGame3 (JsInt 0) (JsInt 1) midnight
           (MoveDone (mkMove Rod0 Rod1 1 1 0 None) 1 false) midGame3);
    reflexivity.
Defined.

(** C9, counterexample.  On [strayRecord3] the undo succeeds and moves
    disk 2, the top of rod 1, onto rod 0; disk 1, the disk of the record,
    stays on rod 2. *)
Lemma undo_moves_top_of_target_rod :
  validateGameState strayRecord3 = true /\ ~ undoReturnsRecordedDisk strayRecord3.
Proof.
  split; [reflexivity|]. intros [_ [_ H]].
  destruct (H [] (mkMove Rod0 Rod1 1 1 0 None) eq_refl eq_refl) as [gs' [Hu _]].
  vm_compute in Hu. discriminate Hu.
Qed.

(** C9, amended.  [undoLastMove] fails with NO_MOVES_TO_UNDO when the
    history is empty; fails with CANNOT_UNDO_COMPLETE_GAME when the history
    is not empty and [gameComplete] is true; and otherwise, when the target
    rod of the last record is not empty, succeeds: it pops the last record,
    moves the top disk of that record's target rod onto the record's source
    rod, decrements [moveCount] and clears the selection.  In every state
    reachable from [createGameState] the top disk of the last record's
    target rod is the disk of that record. *)
Theorem undoLastMove_cases gs :
  (moveHistory gs = [] ->
   undoLastMove gs = Returns (Failure (mkError "NO_MOVES_TO_UNDO"), gs))
  /\ (moveHistory gs <> [] -> gameComplete gs = true ->
     undoLastMove gs = Returns (Failure (mkError "CANNOT_UNDO_COMPLETE_GAME"), gs))
  /\ (forall h m below d,
       moveHistory gs = h ++ [m] -> gameComplete gs = false ->
       disksOf (rods gs) (toRod m) = below ++ [d] ->
       exists gs',
         undoLastMove gs = Returns (UndoDone m d, gs')
         /\ moveHistory gs' = h
         /\ transfer (rods gs) (toRod m) (fromRod m) = Some (d, rods gs')
         /\ (fromRod m <> toRod m ->
             disksOf (rods gs') (toRod m) = below
             /\ disksOf (rods gs') (fromRod m) = disksOf (rods gs) (fromRod m) ++ [d]
             /\ forall k, k <> fromRod m -> k <> toRod m ->
                          disksOf (rods gs') k = disksOf (rods gs) k)
         /\ moveCount gs' = moveCount gs - 1
         /\ selectedDisk gs' = None /\ selectedRod gs' = None
         /\ gameComplete gs' = false /\ settings gs' = settings gs)
  /\ (forall n h m,
       reachable n gs -> moveHistory gs = h ++ [m] ->
       fromRod m <> toRod m
       /\ exists below, disksOf (rods gs) (toRod m) = below ++ [diskId m]).
Proof.
  split; [apply undoLastMove_empty|]. split; [apply undoLastMove_complete|]. split.
  - intros h m below d Hh Hc Hd.
    change (below ++ [d]) with (push below d) in Hd.
    assert (Htr : exists r', transfer (rods gs) (toRod m) (fromRod m) = Some (d, r')).
    { unfold transfer. rewrite Hd, pop_push. eauto. }
    destruct Htr as [r' Htr].
    pose proof (undoLastMove_open gs h m Hh Hc) as Hu. rewrite Htr in Hu.
    destruct Hu as [gs' [Hu [Hr [Hh' [Hm [Hsd [Hsr [Hset Hg]]]]]]]].
    exists gs'. subst r'.
    split; [exact Hu|]. split; [exact Hh'|]. split; [exact Htr|].
    split; [|repeat split; assumption].
    intros Hne. apply not_eq_sym in Hne.
    destruct (transfer_Some _ _ _ _ _ Hne Htr) as [Hsrc [Hdst Hoth]].
    rewrite Hd in Hsrc. apply push_inj in Hsrc as [Hbelow _].
    split; [now symmetry|]. split; [exact Hdst|].
    intros k Hk1 Hk2. now apply Hoth.
  - intros n h m Hr Hh. apply reachable_invariant in Hr.
    pose proof (inv_played _ _ Hr) as Hp. rewrite Hh in Hp.
    apply played_push_inv in Hp as [r [_ [_ [[Hne _] Htr]]]].
    split; [exact Hne|].
    destruct (transfer_Some _ _ _ _ _ Hne Htr) as [_ [Hdst _]].
    exists (disksOf r (toRod m)). exact Hdst.
Qed.

Lemma undoLastMove_cases_witness :
  exists gs',
    undoLastMove midGame3 = Returns (UndoDone (mkMove Rod0 Rod1 1 1 0 None) 1, gs')
    /\ moveHistory gs' = []
    /\ transfer (rods midGame3) Rod1 Rod0 = Some (1, rods gs')
    /\ (Rod0 <> Rod1 ->
        disksOf (rods gs') Rod1 = []
        /\ disksOf (rods gs') Rod0 = disksOf (rods midGame3) Rod0 ++ [1]
        /\ forall k, k <> Rod0 -> k <> Rod1 ->
                     disksOf (rods gs') k = disksOf (rods midGame3) k)
    /\ moveCount gs' = moveCount midGame3 - 1
    /\ selectedDisk gs' = None /\ selectedRod gs' = None
    /\ gameComplete gs' = false /\ settings gs' = settings midGame3.
Proof.
  destruct (undoLastMove_cases midGame3) as [_ [_ [H _]]].
  apply (H [] (mkMove Rod0 Rod1 1 1 0 None) [] 1); reflexivity.
Defined.

(** ** The solver *)

Lemma freshGameSolved_spec n now clock :
  freshGameSolved n now clock = true ->
  exists gs solution final,
    createGameState (JsInt n) now = Returns gs
    /\ generateOptimalSolution gs = Returns solution
    /\ Z.of_nat (length solution) = 2 ^ n - 1
    /\ replay gs solution clock 0 = Finished final
    /\ gameComplete final = true
    /\ moveCount final = 2 ^ n - 1
    /\ Z.of_nat (length (moveHistory final)) = 2 ^ n - 1.
Proof.
  unfold freshGameSolved.
  destruct (createGameState (JsInt n) now) as [gs| |] eqn:Eg; try discriminate.
  destruct (generateOptimalSolution gs) as [solution| |] eqn:Es; try discriminate.
  destruct (replay gs solution clock 0) as [final| |] eqn:Er;
    rewrite ?andb_false_r; try discriminate.
  rewrite !andb_true_iff, !Z.eqb_eq. intros [H1 [[H2 H3] H4]].
  exists gs, solution, final. repeat split; assumption.
Qed.

(** C3.  For every [n] from 3 to 8, the solution generated for
    [createGameState(n)] has exactly [2^n - 1] moves; replayed through
    [makeMove] every move succeeds, and the state reached has
    [gameComplete] set, [moveCount] and the length of the history equal to
    [2^n - 1]. *)
Theorem fresh_game_solution_replays n now clock :
  3 <= n <= 8 ->
  exists gs solution final,
    createGameState (JsInt n) now = Returns gs
    /\ generateOptimalSolution gs = Returns solution
    /\ Z.of_nat (length solution) = 2 ^ n - 1
    /\ replay gs solution clock 0 = Finished final
    /\ gameComplete final = true
    /\ moveCount final = 2 ^ n - 1
    /\ Z.of_nat (length (moveHistory final)) = 2 ^ n - 1.
Proof.
  intros Hn. apply freshGameSolved_spec.
  assert (H : n = 3 \/ n = 4 \/ n = 5 \/ n = 6 \/ n = 7 \/ n = 8) by lia.
  destruct H as [-> | [-> | [-> | [-> | [-> | ->]]]]]; vm_compute; reflexivity.
Qed.

Lemma fresh_game_solution_replays_witness :
  exists gs solution final,
    createGameState (JsInt 3) 0 = Returns gs
    /\ generateOptimalSolution gs = Returns solution
    /\ Z.of_nat (length solution) = 2 ^ 3 - 1
    /\ replay gs solution (fun _ => midnight) 0 = Finished final
    /\ gameComplete final = true
    /\ moveCount final = 2 ^ 3 - 1
    /\ Z.of_nat (length (moveHistory final)) = 2 ^ 3 - 1.
Proof. apply (fresh_game_solution_replays 3 0 (fun _ => midnight)). lia. Defined.

(** C1, evaluated on the state of its scenario.  [midGame3] is reachable
    and passes [validateGameState].  The solver returns six moves for it;
    replayed, the first (0 -> 2) is executed and moves disk 2, the second
    (0 -> 1) would put disk 3 on disk 1 and is refused with
    LARGER_ON_SMALLER, so the replay stops with the game unsolved.  The
    disks recorded in the moves are the largest disk of each source rod in
    the solver's own bookkeeping, not the disks the engine moves. *)
Theorem solver_midgame_solution_rejected :
  reachable 3 midGame3
  /\ validateGameState midGame3 = true
  /\ rods midGame3 = mkRods [3; 2] [1] []
  /\ generateOptimalSolution midGame3
     = Returns [mkSolverMove 0 2 3; mkSolverMove 0 1 2; mkSolverMove 2 1 3;
                mkSolverMove 1 0 3; mkSolverMove 1 2 2; mkSolverMove 0 2 3]
  /\ forall clock, exists stopped,
       replay midGame3
         [mkSolverMove 0 2 3; mkSolverMove 0 1 2; mkSolverMove 2 1 3;
          mkSolverMove 1 0 3; mkSolverMove 1 2 2; mkSolverMove 0 2 3] clock 0
       = Rejected 1 (mkError "LARGER_ON_SMALLER") stopped
       /\ rods stopped = mkRods [3] [1] [2]
       /\ gameComplete stopped = false.
Proof.
  split; [apply midGame3_reachable|]. repeat split.
  intros clock. eexists. split; [reflexivity|]. split; reflexivity.
Qed.

(** * Further properties of the engine *)

(** ** Copies and sequences of moves *)

Lemma cloneGameState_same gs : cloneGameState gs = gs.
Proof.
  destruct gs as [[a b c] sd sr mc gc mh [n sp sh au] [st lm om ge tg]].
  unfold cloneGameState. cbn. f_equal.
  induction mh as [|[f t d k ts du] mh IH]; cbn; [reflexivity | now rewrite IH].
Qed.

Lemma rodDisks_transfer_Valid gs fr to :
  validateMove gs fr to = Valid ->
  exists f t d r',
    toRodIndex fr = Some f /\ toRodIndex to = Some t
    /\ canPlace (rods gs) f t d
    /\ transfer (rods gs) f t = Some (d, r')
    /\ rodDisks_transfer (rods gs) fr to = Returns (d, r').
Proof.
  intros Hv. apply validateMove_Valid in Hv as [_ [_ [f [t [d [Hf [Ht Hp]]]]]]].
  pose proof Hp as [_ [Htop _]].
  destruct (top_Some _ _ Htop) as [rest [_ Hpop]].
  exists f, t, d. eexists. repeat split; try eassumption.
  - apply Hp.
  - apply Hp.
  - unfold transfer. rewrite Hpop. reflexivity.
  - unfold rodDisks_transfer, transfer. rewrite Hf, Ht, Hpop. reflexivity.
Qed.

(** A state whose counter has run ahead of its history does not pass
    [validateGameState], so no move is valid on it. *)
Lemma validateMove_counter_ahead gs fr to :
  moveCount gs <> Z.of_nat (length (moveHistory gs)) ->
  validateMove gs fr to = Invalid (createMoveError MoveError.INVALID_GAME_STATE).
Proof.
  intros Hne. unfold validateMove.
  destruct (validateGameState gs) eqn:E; [|reflexivity].
  apply validateGameState_wellFormed in E. destruct (Hne (wf_moveCount _ E)).
Qed.

(** The second element of a sequence is judged on the clone after the
    first simulated move. *)
Lemma validateMovesFrom_second gs r' item rest validated i :
  validateGameState gs = true ->
  let simulated :=
    {| rods := r';
       selectedDisk := selectedDisk gs;
       selectedRod := selectedRod gs;
       moveCount := moveCount gs + 1;
       gameComplete := gameComplete gs;
       moveHistory := moveHistory gs;
       settings := settings gs;
       metadata := metadata gs |} in
  validateMovesFrom simulated (item :: rest) i validated
  = Returns match item with
            | NotAMove => SequenceBadFormat i validated
            | MoveItem _ _ =>
              SequenceBadMove i item (mkError "INVALID_GAME_STATE") validated
            end.
Proof.
  intros Hwf simulated. apply validateGameState_wellFormed in Hwf.
  destruct item as [f2 t2|]; [|reflexivity].
  cbn [validateMovesFrom]. rewrite validateMove_counter_ahead; [reflexivity|].
  cbn. rewrite (wf_moveCount _ Hwf). lia.
Qed.

Lemma validateMoveSequence_cases gs moves :
  validateMoveSequence gs (MovesArray moves)
  = match moves with
    | [] => Returns (SequenceValid [] 0)
    | NotAMove :: _ => Returns (SequenceBadFormat 0 [])
    | MoveItem f t as first :: rest =>
      match validateMove gs (numberValue f) (numberValue t) with
      | Invalid error => Returns (SequenceBadMove 0 first error [])
      | Valid =>
        let validated :=
          [mkValidatedMove f t 1
             match toRodIndex (numberValue f) with
             | Some s => match top (disksOf (rods gs) s) with Some d => d | None => 0 end
             | None => 0
             end] in
        match rest with
        | [] => Returns (SequenceValid validated 1)
        | NotAMove :: _ => Returns (SequenceBadFormat 1 validated)
        | MoveItem _ _ as second :: _ =>
          Returns (SequenceBadMove 1 second (mkError "INVALID_GAME_STATE") validated)
        end
      end
    end.
Proof.
  unfold validateMoveSequence. rewrite cloneGameState_same.
  destruct moves as [|[f t|] rest]; try reflexivity.
  cbn [validateMovesFrom].
  destruct (validateMove gs (numberValue f) (numberValue t)) eqn:Hv; [|reflexivity].
  destruct (rodDisks_transfer_Valid _ _ _ Hv) as [s [u [d [r' [Hs [Hu [Hp [_ Htr]]]]]]]].
  pose proof Hp as [_ [Htop _]].
  apply validateMove_Valid in Hv as [Hwf _].
  rewrite Htr, Hs, Htop. cbn [bind].
  destruct rest as [|item rest]; [reflexivity|].
  rewrite (validateMovesFrom_second gs r' item rest _ 1%nat Hwf).
  now destruct item.
Qed.

(** X1.  [validateMoveSequence] accepts an array exactly when it is empty
    or holds one move that [validateMove] accepts on the state.  When the
    first of two or more moves is accepted, the second one is refused at
    index 1 with INVALID_GAME_STATE, whatever it is: the simulation has
    counted the first move on the clone without recording it in the
    clone's history. *)
Theorem validateMoveSequence_accepts_one_move gs moves :
  ((exists validated total,
      validateMoveSequence gs (MovesArray moves)
      = Returns (SequenceValid validated total))
   <-> moves = []
       \/ exists f t, moves = [MoveItem f t]
                      /\ validateMove gs (numberValue f) (numberValue t) = Valid)
  /\ (forall f t f2 t2 rest,
        moves = MoveItem f t :: MoveItem f2 t2 :: rest ->
        validateMove gs (numberValue f) (numberValue t) = Valid ->
        exists validated,
          validateMoveSequence gs (MovesArray moves)
          = Returns (SequenceBadMove 1 (MoveItem f2 t2)
                       (mkError "INVALID_GAME_STATE") validated)).
Proof.
  rewrite validateMoveSequence_cases. split.
  - split.
    + intros [validated [total H]].
      destruct moves as [|[f t|] rest]; [now left | | discriminate].
      destruct (validateMove gs (numberValue f) (numberValue t)) eqn:Hv;
        [|discriminate].
      destruct rest as [|[f2 t2|] rest]; try discriminate.
      right. exists f, t. now split.
    + intros [-> | [f [t [-> Hv]]]]; [eauto|]. rewrite Hv. eauto.
  - intros f t f2 t2 rest -> Hv. rewrite Hv. eauto.
Qed.

Lemma validateMoveSequence_accepts_one_move_witness :
  exists validated,
    validateMoveSequence newGame3
      (MovesArray [MoveItem (NumInt 0) (NumInt 1); MoveItem (NumInt 1) (NumInt 2)])
    = Returns (SequenceBadMove 1 (MoveItem (NumInt 1) (NumInt 2))
                 (mkError "INVALID_GAME_STATE") validated).
Proof.
  destruct (validateMoveSequence_accepts_one_move newGame3
              [MoveItem (NumInt 0) (NumInt 1); MoveItem (NumInt 1) (NumInt 2)])
    as [_ H].
  apply (H (NumInt 0) (NumInt 1) (NumInt 1) (NumInt 2) []); reflexivity.
Defined.

(** X2.  [executeMoveSequence] always returns.  It succeeds only on the
    empty array, which changes nothing, and on an array of one move that
    [makeMove] executes, where it leaves the state [makeMove] leaves; an
    array of two or more elements is never executed; and whenever it does
    not succeed the state is the one it was given. *)
Theorem executeMoveSequence_outcomes gs moves clock :
  exists outcome gs',
    executeMoveSequence gs (MovesArray moves) clock = Returns (outcome, gs')
    /\ (sequenceSucceeded outcome = false -> gs' = gs)
    /\ (sequenceSucceeded outcome = true ->
        (moves = [] /\ outcome = SequenceExecuted [] 0 /\ gs' = gs)
        \/ exists f t result,
             moves = [MoveItem f t]
             /\ makeMove gs (numberValue f) (numberValue t) (clock 0%nat)
                = Returns (result, gs')
             /\ success result = true
             /\ outcome = SequenceExecuted [result] 1)
    /\ ((2 <= length moves)%nat -> sequenceSucceeded outcome = false).
Proof.
  unfold executeMoveSequence. rewrite validateMoveSequence_cases.
  destruct moves as [|[f t|] rest].
  - cbn. do 2 eexists. split; [reflexivity|].
    repeat split; try discriminate; [now left | cbn; lia].
  - destruct (validateMove gs (numberValue f) (numberValue t)) eqn:Hv.
    + destruct rest as [|[f2 t2|] rest].
      * cbn [bind executeMovesFrom length].
        destruct (makeMove_Valid gs _ _ (clock 0%nat) Hv)
          as [s [u [d [r' [gs1 [_ [_ [_ [_ H]]]]]]]]].
        cbv zeta in H. destruct H as [Heq _]. rewrite Heq. cbn.
        do 2 eexists. split; [reflexivity|].
        repeat split; try discriminate; [|cbn; lia].
        intros _. right. exists f, t. eexists. repeat split; [exact Heq | reflexivity].
      * cbn. do 2 eexists. split; [reflexivity|]. repeat split; discriminate.
      * cbn. do 2 eexists. split; [reflexivity|]. repeat split; discriminate.
    + cbn. do 2 eexists. split; [reflexivity|]. repeat split; discriminate.
  - cbn. do 2 eexists. split; [reflexivity|]. repeat split; discriminate.
Qed.

Lemma executeMoveSequence_outcomes_witness :
  exists outcome,
    executeMoveSequence newGame3
      (MovesArray [MoveItem (NumInt 0) (NumInt 1); MoveItem (NumInt 0) (NumInt 2);
                   MoveItem (NumInt 1) (NumInt 2)])
      (fun _ => midnight)
    = Returns (outcome, newGame3)
    /\ sequenceSucceeded outcome = false.
Proof.
  destruct (executeMoveSequence_outcomes newGame3
              [MoveItem (NumInt 0) (NumInt 1); MoveItem (NumInt 0) (NumInt 2);
               MoveItem (NumInt 1) (NumInt 2)] (fun _ => midnight))
    as [outcome [gs' [Heq [Hfail [_ Hlong]]]]].
  assert (Hf : sequenceSucceeded outcome = false) by (apply Hlong; cbn; lia).
  exists outcome. rewrite (Hfail Hf) in Heq. split; assumption.
Defined.

(** ** The moves a state allows *)

Lemma validateMove_pair gs f t :
  validateGameState gs = true -> gameComplete gs = false -> f <> t ->
  isValid (validateMove gs (JsInt (rodNumber f)) (JsInt (rodNumber t)))
  = match top (disksOf (rods gs) f), top (disksOf (rods gs) t) with
    | Some d, Some u => d <? u
    | Some _, None => true
    | None, _ => false
    end.
Proof.
  intros Hv Hc Hne. unfold validateMove.
  rewrite Hv, Hc, !toRodIndex_rodNumber. cbn [negb].
  apply RodIndex_eqb_neq in Hne. rewrite Hne.
  destruct (top (disksOf (rods gs) f)) as [d|]; [|reflexivity].
  destruct (top (disksOf (rods gs) t)) as [u|]; [|reflexivity].
  destruct (Z.geb_spec d u), (Z.ltb_spec d u); try reflexivity; lia.
Qed.

Lemma validateMove_complete gs fr to :
  gameComplete gs = true -> isValid (validateMove gs fr to) = false.
Proof.
  intros Hc. unfold validateMove. rewrite Hc. now destruct (validateGameState gs).
Qed.

Lemma getMoveInfoObject_pair gs f t :
  isValid (validateMove gs (JsInt (rodNumber f)) (JsInt (rodNumber t))) = true ->
  getMoveInfoObject gs (JsInt (rodNumber f)) (JsInt (rodNumber t))
  = Returns (AcceptedMove
               match top (disksOf (rods gs) f) with
               | Some d => JsInt d
               | None => JsUndefined
               end
               f t (disksOf (rods gs) f) (disksOf (rods gs) t) (moveCount gs + 1)).
Proof.
  unfold getMoveInfoObject.
  destruct (validateMove gs (JsInt (rodNumber f)) (JsInt (rodNumber t)));
    [|discriminate].
  now rewrite !toRodIndex_rodNumber.
Qed.

Lemma collectValidMoves_filter gs pairs :
  collectValidMoves gs pairs
  = Returns
      (map (fun p =>
              AcceptedMove
                match top (disksOf (rods gs) (fst p)) with
                | Some d => JsInt d
                | None => JsUndefined
                end
                (fst p) (snd p) (disksOf (rods gs) (fst p)) (disksOf (rods gs) (snd p))
                (moveCount gs + 1))
           (filter (fun p =>
                      negb (RodIndex_eqb (fst p) (snd p))
                      && isValid (validateMove gs (JsInt (rodNumber (fst p)))
                                    (JsInt (rodNumber (snd p)))))
                   pairs)).
Proof.
  induction pairs as [|[f t] pairs IH]; [reflexivity|].
  cbn [collectValidMoves filter fst snd].
  destruct (negb (RodIndex_eqb f t)
            && isValid (validateMove gs (JsInt (rodNumber f)) (JsInt (rodNumber t))))
    eqn:E.
  - apply andb_true_iff in E as [_ E].
    rewrite (getMoveInfoObject_pair _ _ _ E), IH. reflexivity.
  - exact IH.
Qed.

Lemma wellFormed_count_one gs i d :
  wellFormed gs -> In d (disksOf (rods gs) i) ->
  count_occ Z.eq_dec (allDisks (rods gs)) d = 1%nat.
Proof.
  intros Hwf Hin. pose proof (wellFormed_disk_range _ _ _ Hwf Hin) as Hr.
  rewrite (proj1 (Permutation_count_occ Z.eq_dec _ _) (wf_disks _ Hwf)).
  apply NoDup_count_occ'; [apply NoDup_range | apply In_range; lia].
Qed.

Lemma wellFormed_tops_differ gs f t d u :
  wellFormed gs -> f <> t ->
  top (disksOf (rods gs) f) = Some d -> top (disksOf (rods gs) t) = Some u -> d <> u.
Proof.
  intros Hwf Hne Hd Hu ->. apply top_In in Hd, Hu.
  pose proof (wellFormed_count_one _ _ _ Hwf Hd) as Hp.
  apply (count_occ_In Z.eq_dec) in Hd, Hu.
  unfold allDisks in Hp. rewrite !count_occ_app in Hp.
  destruct f, t; simpl in Hd, Hu; try congruence; lia.
Qed.

Lemma wellFormed_some_disk gs :
  wellFormed gs -> allDisks (rods gs) <> [].
Proof.
  intros Hwf H. pose proof (Permutation_length (wf_disks _ Hwf)) as Hl.
  pose proof (wf_numDisks _ Hwf). rewrite H, length_range in Hl. simpl in Hl. lia.
Qed.

Lemma top_None_iff (l : list Z) : top l = None <-> l = [].
Proof. split; [apply top_None | now intros ->]. Qed.

Lemma length_filter_sum {A : Type} (p : A -> bool) (l : list A) :
  length (filter p l) = fold_right (fun x n => ((if p x then 1 else 0) + n)%nat) 0%nat l.
Proof.
  induction l as [|a l IH]; [reflexivity|]. cbn [filter fold_right].
  destruct (p a); cbn [length]; lia.
Qed.

Lemma one_rod_holds_all r :
  (exists i, forall j, j <> i -> disksOf r j = [])
  <-> (top (rod1 r) = None /\ top (rod2 r) = None)
      \/ (top (rod0 r) = None /\ top (rod2 r) = None)
      \/ (top (rod0 r) = None /\ top (rod1 r) = None).
Proof.
  rewrite !top_None_iff. split.
  - intros [i H]. pose proof (H Rod0) as H0. pose proof (H Rod1) as H1.
    pose proof (H Rod2) as H2. cbn [disksOf] in *.
    destruct i; [left | right; left | right; right];
      split; (apply H0 || apply H1 || apply H2); discriminate.
  - intros [[H1 H2] | [[H0 H2] | [H0 H1]]];
      [exists Rod0 | exists Rod1 | exists Rod2];
      intros [] Hj; cbn [disksOf]; congruence.
Qed.

(** X3.  On a state that passes [validateGameState] and is not complete,
    [getValidMoves] returns two or three moves, never none: two exactly when
    all the disks are on one rod, three otherwise.  On a complete state it
    returns none. *)
Theorem getValidMoves_two_or_three gs :
  validateGameState gs = true ->
  exists validMoves,
    getValidMoves gs = Returns validMoves
    /\ (gameComplete gs = true -> validMoves = [])
    /\ (gameComplete gs = false ->
        (length validMoves = 2%nat \/ length validMoves = 3%nat)
        /\ (length validMoves = 2%nat <->
            exists i, forall j, j <> i -> disksOf (rods gs) j = [])).
Proof.
  intros Hv. unfold getValidMoves. rewrite collectValidMoves_filter.
  eexists. split; [reflexivity|]. split.
  - intros Hc. apply length_zero_iff_nil. rewrite length_map, length_filter_sum.
    cbn [rodPairs flat_map map app fold_right fst snd].
    rewrite !(validateMove_complete _ _ _ Hc), !andb_false_r. reflexivity.
  - intros Hc. rewrite length_map, length_filter_sum, one_rod_holds_all.
    cbn [rodPairs flat_map map app fold_right fst snd].
    change (RodIndex_eqb Rod0 Rod0) with true.
    change (RodIndex_eqb Rod1 Rod1) with true.
    change (RodIndex_eqb Rod2 Rod2) with true.
    change (RodIndex_eqb Rod0 Rod1) with false.
    change (RodIndex_eqb Rod0 Rod2) with false.
    change (RodIndex_eqb Rod1 Rod0) with false.
    change (RodIndex_eqb Rod1 Rod2) with false.
    change (RodIndex_eqb Rod2 Rod0) with false.
    change (RodIndex_eqb Rod2 Rod1) with false.
    cbn [negb andb].
    rewrite !(validateMove_pair gs) by (assumption || discriminate).
    apply validateGameState_wellFormed in Hv.
    assert (H01 := fun d u =>
      wellFormed_tops_differ gs Rod0 Rod1 d u Hv ltac:(discriminate)).
    assert (H02 := fun d u =>
      wellFormed_tops_differ gs Rod0 Rod2 d u Hv ltac:(discriminate)).
    assert (H12 := fun d u =>
      wellFormed_tops_differ gs Rod1 Rod2 d u Hv ltac:(discriminate)).
    pose proof (wellFormed_some_disk gs Hv) as Hsome.
    pose proof (top_None_iff (rod0 (rods gs))) as E0.
    pose proof (top_None_iff (rod1 (rods gs))) as E1.
    pose proof (top_None_iff (rod2 (rods gs))) as E2.
    unfold allDisks in Hsome. cbn [disksOf] in *.
    destruct (top (rod0 (rods gs))) as [d0|], (top (rod1 (rods gs))) as [d1|],
             (top (rod2 (rods gs))) as [d2|];
      try (pose proof (H01 _ _ eq_refl eq_refl));
      try (pose proof (H02 _ _ eq_refl eq_refl));
      try (pose proof (H12 _ _ eq_refl eq_refl));
      repeat match goal with
             | |- context [?a <? ?b] => destruct (Z.ltb_spec a b)
             end;
      try lia; cbn [Nat.add];
      try (split; [auto | split; [intros; discriminate | intuition congruence]]);
      try (split; [auto | split; [intros; discriminate | intuition discriminate]]);
      try (split; [auto | split; [intros _; tauto | reflexivity]]).
    exfalso. apply Hsome.
    rewrite (proj1 E0 eq_refl), (proj1 E1 eq_refl), (proj1 E2 eq_refl). reflexivity.
Qed.

Lemma getValidMoves_two_or_three_witness :
  exists validMoves,
    getValidMoves midGame3 = Returns validMoves
    /\ (gameComplete midGame3 = true -> validMoves = [])
    /\ (gameComplete midGame3 = false ->
        (length validMoves = 2%nat \/ length validMoves = 3%nat)
        /\ (length validMoves = 2%nat <->
            exists i, forall j, j <> i -> disksOf (rods midGame3) j = [])).
Proof. apply (getValidMoves_two_or_three midGame3). reflexivity. Defined.

Lemma In_rodPairs f t : In (f, t) rodPairs.
Proof. destruct f, t; cbn; tauto. Qed.

Lemma collectValidMoves_In gs pairs validMoves info :
  collectValidMoves gs pairs = Returns validMoves ->
  In info validMoves
  <-> exists f t,
        In (f, t) pairs /\ f <> t
        /\ validateMove gs (JsInt (rodNumber f)) (JsInt (rodNumber t)) = Valid
        /\ info = AcceptedMove
                    match top (disksOf (rods gs) f) with
                    | Some d => JsInt d
                    | None => JsUndefined
                    end
                    f t (disksOf (rods gs) f) (disksOf (rods gs) t) (moveCount gs + 1).
Proof.
  rewrite collectValidMoves_filter. intros H. injection H as <-.
  rewrite in_map_iff. split.
  - intros [[f t] [<- Hin]]. apply filter_In in Hin as [Hin Hp].
    cbn [fst snd] in *. apply andb_true_iff in Hp as [Hne Hp].
    apply negb_true_iff, RodIndex_eqb_neq in Hne.
    exists f, t. repeat split; try assumption.
    now destruct (validateMove gs (JsInt (rodNumber f)) (JsInt (rodNumber t))).
  - intros [f [t [Hin [Hne [Hv ->]]]]]. exists (f, t). split; [reflexivity|].
    apply filter_In. split; [assumption|]. cbn [fst snd].
    rewrite Hv. apply RodIndex_eqb_neq in Hne. now rewrite Hne.
Qed.

(** X4.  The moves [getValidMoves] lists are the moves [makeMove]
    executes: every listed move names two rods and the top disk of the
    first, and [makeMove] on these rods succeeds and moves that disk; and
    every call of [makeMove] that succeeds is made on a listed pair of
    rods. *)
Theorem getValidMoves_are_the_executable_moves gs validMoves :
  getValidMoves gs = Returns validMoves ->
  (forall info, In info validMoves ->
     exists d f t,
       info = AcceptedMove (JsInt d) f t (disksOf (rods gs) f) (disksOf (rods gs) t)
                (moveCount gs + 1)
       /\ top (disksOf (rods gs) f) = Some d
       /\ forall now, exists move completed gs',
            makeMove gs (JsInt (rodNumber f)) (JsInt (rodNumber t)) now
            = Returns (MoveDone move d completed, gs'))
  /\ (forall src dst now res gs',
        makeMove gs src dst now = Returns (res, gs') -> success res = true ->
        exists d f t,
          src = JsInt (rodNumber f) /\ dst = JsInt (rodNumber t)
          /\ In (AcceptedMove (JsInt d) f t (disksOf (rods gs) f) (disksOf (rods gs) t)
                   (moveCount gs + 1)) validMoves).
Proof.
  unfold getValidMoves. intros H. split.
  - intros info Hin.
    apply (collectValidMoves_In _ _ _ _ H) in Hin as [f [t [_ [_ [Hv ->]]]]].
    pose proof (rodDisks_transfer_Valid _ _ _ Hv)
      as [f' [t' [d [r' [Hf [Ht [[_ [Htop _]] _]]]]]]].
    rewrite toRodIndex_rodNumber in Hf, Ht.
    injection Hf as <-. injection Ht as <-.
    exists d, f, t. rewrite Htop. repeat split.
    intros now.
    destruct (makeMove_Valid gs _ _ now Hv)
      as [f' [t' [d' [r'' [gs1 [Hf' [Ht' [[_ [Htop' _]] [_ Hm]]]]]]]]].
    rewrite toRodIndex_rodNumber in Hf'. injection Hf' as <-.
    rewrite Htop in Htop'. injection Htop' as <-.
    cbv zeta in Hm. destruct Hm as [Hm _]. eauto.
  - intros src dst now res gs' Hm Hs.
    destruct (validateMove gs src dst) eqn:Hv.
    2:{ rewrite (makeMove_Invalid _ _ _ _ _ Hv) in Hm. inversion Hm; subst.
        discriminate. }
    pose proof (rodDisks_transfer_Valid _ _ _ Hv)
      as [f [t [d [r' [Hf [Ht [[Hne [Htop _]] _]]]]]]].
    apply toRodIndex_Some in Hf as [zf [-> [_ ->]]].
    apply toRodIndex_Some in Ht as [zt [-> [_ ->]]].
    exists d, f, t. repeat split.
    apply (collectValidMoves_In _ _ _ _ H). exists f, t.
    rewrite Htop. repeat split; try assumption. apply In_rodPairs.
Qed.

Lemma getValidMoves_are_the_executable_moves_witness :
  exists d f t,
    JsInt 0 = JsInt (rodNumber f) /\ JsInt 1 = JsInt (rodNumber t)
    /\ In (AcceptedMove (JsInt d) f t (disksOf (rods newGame3) f)
             (disksOf (rods newGame3) t) (moveCount newGame3 + 1))
          [AcceptedMove (JsInt 1) Rod0 Rod1 [3; 2; 1] [] 1;
           AcceptedMove (JsInt 1) Rod0 Rod2 [3; 2; 1] [] 1].
Proof.
  destruct (getValidMoves_are_the_executable_moves newGame3
              [AcceptedMove (JsInt 1) Rod0 Rod1 [3; 2; 1] [] 1;
               AcceptedMove (JsInt 1) Rod0 Rod2 [3; 2; 1] [] 1] eq_refl) as [_ H].
  apply (H (JsInt 0) (JsInt 1) midnight
           (MoveDone (mkMove Rod0 Rod1 1 1 0 None) 1 false) midGame3); reflexivity.
Defined.

(** X5.  In every reachable state [validateGameConfiguration] finds the
    configuration valid, and the game can continue exactly as long as it is
    not complete: then it has two or three valid moves; once complete it has
    none. *)
Theorem reachable_configuration_continues n gs :
  reachable n gs ->
  exists count,
    validateGameConfiguration gs
    = GoodConfiguration (negb (gameComplete gs)) (gameComplete gs) count
        (negb (gameComplete gs))
    /\ (gameComplete gs = true -> count = 0%nat)
    /\ (gameComplete gs = false -> count = 2%nat \/ count = 3%nat).
Proof.
  intros Hr. apply reachable_invariant in Hr.
  pose proof (invariant_wellFormed _ _ Hr) as Hwf.
  apply validateGameState_wellFormed in Hwf.
  destruct (getValidMoves_two_or_three gs Hwf) as [validMoves [Hg [Hc Ho]]].
  unfold validateGameConfiguration. rewrite Hwf, Hg. cbn [negb].
  rewrite <- (inv_complete _ _ Hr).
  exists (length validMoves). destruct (gameComplete gs).
  - rewrite (Hc eq_refl). repeat split. discriminate.
  - destruct (Ho eq_refl) as [[Hl | Hl] _]; rewrite Hl; repeat split;
      try discriminate; auto.
Qed.

Lemma reachable_configuration_continues_witness :
  exists count,
    validateGameConfiguration midGame3
    = GoodConfiguration (negb (gameComplete midGame3)) (gameComplete midGame3) count
        (negb (gameComplete midGame3))
    /\ (gameComplete midGame3 = true -> count = 0%nat)
    /\ (gameComplete midGame3 = false -> count = 2%nat \/ count = 3%nat).
Proof.
  apply (reachable_configuration_continues 3 midGame3).
  apply (reachable_step 3 newGame3).
  - apply (reachable_new 3 0). reflexivity.
  - exists (MakeMove (JsInt 0) (JsInt 1) midnight). eexists. reflexivity.
Defined.

(** ** Selecting and moving *)

Lemma selectDisk_Selected gs rodIndex d r dests gs' :
  selectDisk gs rodIndex = (Selected d r dests, gs') ->
  toRodIndex rodIndex = Some r
  /\ top (disksOf (rods gs) r) = Some d
  /\ rods gs' = rods gs /\ gameComplete gs' = gameComplete gs
  /\ moveCount gs' = moveCount gs /\ moveHistory gs' = moveHistory gs
  /\ settings gs' = settings gs
  /\ selectedDisk gs' = Some d /\ selectedRod gs' = Some r
  /\ dests = getValidDestinations gs' r.
Proof.
  unfold selectDisk. destruct (toRodIndex rodIndex) as [i|]; [|discriminate].
  destruct (top (disksOf (rods gs) i)) as [topDisk|] eqn:Et; [|discriminate].
  intros H. injection H as <- <- <- <-. repeat split. exact Et.
Qed.

(** X6.  After [selectDisk] has succeeded, [moveSelectedDisk] succeeds for
    exactly the targets listed in the [validDestinations] that [selectDisk]
    returned; when it succeeds it moves the selected disk from the selected
    rod and clears the selection, and when it fails it changes nothing. *)
Theorem selectDisk_destinations_are_the_targets gs rodIndex d r dests gs' :
  selectDisk gs rodIndex = (Selected d r dests, gs') ->
  forall target now, exists res gs'',
    moveSelectedDisk gs' target now = Returns (res, gs'')
    /\ (success res = true <-> exists t, In t dests /\ target = JsInt (rodNumber t))
    /\ (success res = true ->
        exists move completed,
          res = MoveDone move d completed /\ fromRod move = r
          /\ selectedDisk gs'' = None /\ selectedRod gs'' = None)
    /\ (success res = false -> gs'' = gs').
Proof.
  intros Hsel target now.
  apply selectDisk_Selected in Hsel
    as [_ [Htop [Hr [_ [_ [_ [_ [Hsd [Hsr ->]]]]]]]]].
  unfold moveSelectedDisk. rewrite Hsd, Hsr.
  destruct (validateMove gs' (JsInt (rodNumber r)) target) as [|e] eqn:Hv.
  - destruct (makeMove_Valid gs' _ _ now Hv)
      as [f [t [d' [r' [gs1 [Hf [Ht [[Hne [Htop' _]] [_ Hm]]]]]]]]].
    cbv zeta in Hm. destruct Hm as [Hm [_ [_ [_ [Hd1 [Hr1 _]]]]]].
    rewrite toRodIndex_rodNumber in Hf. injection Hf as <-.
    rewrite Hr, Htop in Htop'. injection Htop' as <-.
    rewrite Hm. do 2 eexists. split; [reflexivity|]. repeat split; try discriminate.
    + intros _. exists t. apply toRodIndex_Some in Ht as [z [-> [_ ->]]].
      split; [|reflexivity]. unfold getValidDestinations. apply filter_In.
      split; [destruct t; cbn; tauto|].
      rewrite Hv. apply RodIndex_eqb_neq in Hne. now rewrite Hne.
    + intros _. do 2 eexists. repeat split; assumption.
  - rewrite (makeMove_Invalid _ _ _ _ _ Hv). do 2 eexists.
    split; [reflexivity|]. repeat split; try discriminate.
    intros [t [Hin ->]]. unfold getValidDestinations in Hin.
    apply filter_In in Hin as [_ Hin]. rewrite Hv, andb_false_r in Hin.
    discriminate.
Qed.

Lemma selectDisk_destinations_are_the_targets_witness :
  exists res gs'',
    moveSelectedDisk
      {| rods := rods newGame3;
         selectedDisk := Some 1;
         selectedRod := Some Rod0;
         moveCount := moveCount newGame3;
         gameComplete := gameComplete newGame3;
         moveHistory := moveHistory newGame3;
         settings := settings newGame3;
         metadata := metadata newGame3 |}
      (JsInt 1) midnight
    = Returns (res, gs'')
    /\ (success res = true
        <-> exists t, In t [Rod1; Rod2] /\ JsInt 1 = JsInt (rodNumber t))
    /\ (success res = true ->
        exists move completed,
          res = MoveDone move 1 completed /\ fromRod move = Rod0
          /\ selectedDisk gs'' = None /\ selectedRod gs'' = None)
    /\ (success res = false ->
        gs'' = {| rods := rods newGame3;
                  selectedDisk := Some 1;
                  selectedRod := Some Rod0;
                  moveCount := moveCount newGame3;
                  gameComplete := gameComplete newGame3;
                  moveHistory := moveHistory newGame3;
                  settings := settings newGame3;
                  metadata := metadata newGame3 |}).
Proof.
  apply (selectDisk_destinations_are_the_targets newGame3 (JsInt 0) 1 Rod0
           [Rod1; Rod2]).
  reflexivity.
Defined.

(** X7.  A complete game is frozen: on a state whose [gameComplete] flag is
    set every call returns; [makeMove], [undoLastMove] and
    [moveSelectedDisk] fail and change nothing, and [selectDisk] and
    [clearSelection] change at most the selection. *)
Theorem complete_game_is_frozen c gs :
  gameComplete gs = true ->
  exists res gs',
    run c gs = Returns (res, gs')
    /\ rods gs' = rods gs /\ moveCount gs' = moveCount gs
    /\ moveHistory gs' = moveHistory gs /\ gameComplete gs' = true
    /\ settings gs' = settings gs /\ metadata gs' = metadata gs
    /\ match c with
       | SelectDisk _ | ClearSelection => True
       | _ => success res = false /\ gs' = gs
       end.
Proof.
  intros Hc.
  assert (Hmove : forall fr to now, exists e,
             makeMove gs fr to now = Returns (Failure e, gs)).
  { intros fr to now. pose proof (validateMove_complete gs fr to Hc) as Hv.
    destruct (validateMove gs fr to) as [|e] eqn:E; [discriminate|].
    exists e. now apply makeMove_Invalid. }
  destruct c as [fr to now| |i| |to now]; cbn [run].
  - destruct (Hmove fr to now) as [e ->]. do 2 eexists. split; [reflexivity|].
    repeat split; assumption.
  - unfold undoLastMove. rewrite Hc.
    destruct (Z.of_nat (length (moveHistory gs)) =? 0);
      do 2 eexists; (split; [reflexivity|]); repeat split; assumption.
  - unfold selectDisk. destruct (toRodIndex i) as [k|].
    + destruct (top (disksOf (rods gs) k));
        do 2 eexists; (split; [reflexivity|]); repeat split; assumption.
    + do 2 eexists. split; [reflexivity|]. repeat split; assumption.
  - unfold clearSelection. do 2 eexists. split; [reflexivity|].
    repeat split; assumption.
  - unfold moveSelectedDisk. destruct (selectedDisk gs), (selectedRod gs).
    + destruct (Hmove (JsInt (rodNumber r)) to now) as [e ->].
      do 2 eexists. split; [reflexivity|]. repeat split; assumption.
    + do 2 eexists. split; [reflexivity|]. repeat split; assumption.
    + do 2 eexists. split; [reflexivity|]. repeat split; assumption.
    + do 2 eexists. split; [reflexivity|]. repeat split; assumption.
Qed.

Lemma complete_game_is_frozen_witness :
  exists res gs',
    run UndoLastMove solvedGame3 = Returns (res, gs')
    /\ rods gs' = rods solvedGame3 /\ moveCount gs' = moveCount solvedGame3
    /\ moveHistory gs' = moveHistory solvedGame3 /\ gameComplete gs' = true
    /\ settings gs' = settings solvedGame3 /\ metadata gs' = metadata solvedGame3
    /\ (success res = false /\ gs' = solvedGame3).
Proof. apply (complete_game_is_frozen UndoLastMove solvedGame3). reflexivity. Defined.

(** ** Starting over *)

(** X8.  [resetGameState] of a state whose [numDisks] is between 3 and 8
    returns the initial state of a game of that many disks and keeps the
    settings of the state it was given; the state it returns passes
    [validateGameState] exactly when the kept [animationSpeed] is at least
    100.  For any other [numDisks] it throws. *)
Theorem resetGameState_restarts gs now :
  (3 <= numDisks (settings gs) <= 8 ->
   exists gs',
     resetGameState gs now = Returns gs'
     /\ rods gs' = mkRods (initialDisks (numDisks (settings gs))) [] []
     /\ moveCount gs' = 0 /\ moveHistory gs' = [] /\ gameComplete gs' = false
     /\ selectedDisk gs' = None /\ selectedRod gs' = None
     /\ settings gs' = settings gs
     /\ optimalMoves (metadata gs') = 2 ^ numDisks (settings gs) - 1
     /\ (validateGameState gs' = true <-> 100 <= animationSpeed (settings gs)))
  /\ (~ 3 <= numDisks (settings gs) <= 8 ->
      exists message, resetGameState gs now = Throws message).
Proof.
  unfold resetGameState, createGameState. split.
  - intros Hn. replace ((numDisks (settings gs) <? 3) || (numDisks (settings gs) >? 8))
      with false by lia.
    eexists. split; [reflexivity|]. cbn.
    repeat split; try (now destruct (settings gs)).
    + intros Hv. apply validateGameState_wellFormed in Hv.
      apply (wf_animationSpeed _ Hv).
    + intros Hs. apply validateGameState_wellFormed. constructor; cbn; try lia.
      * intros []; cbn; [apply descending_countdown | constructor | constructor].
      * unfold allDisks. cbn. rewrite app_nil_r. apply countdown_Permutation.
  - intros Hn.
    replace ((numDisks (settings gs) <? 3) || (numDisks (settings gs) >? 8))
      with true by lia.
    eexists. reflexivity.
Qed.

Lemma resetGameState_restarts_witness :
  exists gs',
    resetGameState lastMove3 5 = Returns gs'
    /\ rods gs' = mkRods (initialDisks (numDisks (settings lastMove3))) [] []
    /\ moveCount gs' = 0 /\ moveHistory gs' = [] /\ gameComplete gs' = false
    /\ selectedDisk gs' = None /\ selectedRod gs' = None
    /\ settings gs' = settings lastMove3
    /\ optimalMoves (metadata gs') = 2 ^ numDisks (settings lastMove3) - 1
    /\ (validateGameState gs' = true <-> 100 <= animationSpeed (settings lastMove3)).
Proof.
  destruct (resetGameState_restarts lastMove3 5) as [H _].
  apply H. cbn. lia.
Defined.

(** ** The history *)

Lemma played_nil_inv n r : played n r [] -> r = mkRods (initialDisks n) [] [].
Proof.
  intros H. remember (@nil Move) as h eqn:E. destruct H; [reflexivity|].
  now apply push_not_nil in E.
Qed.

Lemma invariant_rewinds n k : forall gs,
  invariant n gs -> gameComplete gs = false -> length (moveHistory gs) = k ->
  exists gs0,
    undoTimes k gs = Returns gs0
    /\ rods gs0 = mkRods (initialDisks n) [] []
    /\ moveHistory gs0 = [] /\ moveCount gs0 = 0
    /\ gameComplete gs0 = false /\ settings gs0 = settings gs.
Proof.
  induction k as [|k IH]; intros gs Hi Hc Hl.
  - exists gs. apply length_zero_iff_nil in Hl.
    pose proof (inv_played _ _ Hi) as Hp. pose proof (inv_moveCount _ _ Hi) as Hm.
    rewrite Hl in Hp, Hm. apply played_nil_inv in Hp.
    repeat split; assumption.
  - destruct (moveHistory gs) as [|m0 h0] eqn:Eh; [discriminate|].
    destruct (exists_last (l := m0 :: h0)) as [h [m Ehm]]; [discriminate|].
    rewrite Ehm in Eh, Hl. change (h ++ [m]) with (push h m) in Eh.
    pose proof (inv_played _ _ Hi) as Hp. rewrite Eh in Hp.
    apply played_push_inv in Hp as [r [_ [_ [[Hne _] Htr]]]].
    apply (transfer_inverse _ _ _ _ _ Hne) in Htr.
    pose proof (undoLastMove_open gs h m Eh Hc) as H. rewrite Htr in H.
    destruct H as [gs1 [Heq [_ [Hh [_ [_ [_ [Hs Hg]]]]]]]].
    assert (Hi1 : invariant n gs1) by (eapply invariant_undoLastMove; eauto).
    destruct (IH gs1 Hi1 Hg) as [gs0 [Hu H0]].
    { rewrite Hh. rewrite length_app in Hl. cbn in Hl. lia. }
    exists gs0. cbn [undoTimes]. rewrite Heq. cbn [bind]. split; [exact Hu|].
    rewrite <- Hs. exact H0.
Qed.

(** X9.  An unfinished game can always be rewound to its start: from a
    reachable state that is not complete, calling [undoLastMove] as many
    times as there are moves in the history succeeds every time and leaves
    the initial rods, an empty history and a move count of 0. *)
Theorem reachable_game_rewinds n gs :
  reachable n gs -> gameComplete gs = false ->
  exists gs0,
    undoTimes (length (moveHistory gs)) gs = Returns gs0
    /\ rods gs0 = mkRods (initialDisks n) [] []
    /\ moveHistory gs0 = [] /\ moveCount gs0 = 0
    /\ gameComplete gs0 = false /\ settings gs0 = settings gs.
Proof.
  intros Hr Hc. apply reachable_invariant in Hr.
  now apply (invariant_rewinds n (length (moveHistory gs))).
Qed.

Lemma reachable_game_rewinds_witness :
  exists gs0,
    undoTimes (length (moveHistory lastMove3)) lastMove3 = Returns gs0
    /\ rods gs0 = mkRods (initialDisks 3) [] []
    /\ moveHistory gs0 = [] /\ moveCount gs0 = 0
    /\ gameComplete gs0 = false /\ settings gs0 = settings lastMove3.
Proof.
  apply (reachable_game_rewinds 3 lastMove3); [|reflexivity].
  apply (replay_reachable 3 (fun _ => midnight)
           [mkSolverMove 0 2 1; mkSolverMove 0 1 2; mkSolverMove 2 1 1;
            mkSolverMove 0 2 3; mkSolverMove 1 0 1; mkSolverMove 1 2 2]
           newGame3 0%nat).
  - apply (reachable_new 3 0). reflexivity.
  - reflexivity.
Defined.

(** How one call changes the history of a state that satisfies the
    invariant: not at all, by one record appended, or by the last record
    removed. *)
Lemma invariant_run_history n c gs res gs' :
  invariant n gs -> run c gs = Returns (res, gs') ->
  moveHistory gs' = moveHistory gs
  \/ (exists f t d,
        moveHistory gs' = push (moveHistory gs)
                            (mkMove f t d (moveCount gs + 1)
                               match c with
                               | MakeMove _ _ now | MoveSelectedDisk _ now => now 0%nat
                               | _ => 0
                               end None)
        /\ f <> t /\ 1 <= d <= n)
  \/ (exists m, moveHistory gs = push (moveHistory gs') m).
Proof.
  intros Hi H.
  assert (Hmove : forall fr to now,
            makeMove gs fr to now = Returns (res, gs') ->
            moveHistory gs' = moveHistory gs
            \/ exists f t d,
                 moveHistory gs' = push (moveHistory gs)
                                     (mkMove f t d (moveCount gs + 1) (now 0%nat) None)
                 /\ f <> t /\ 1 <= d <= n).
  { intros fr to now Hm. destruct (validateMove gs fr to) as [|e] eqn:Hv.
    - destruct (makeMove_Valid gs fr to now Hv)
        as [f [t [d [r' [gs1 [_ [_ [[Hne [Htop _]] [_ Hx]]]]]]]]].
      cbv zeta in Hx. destruct Hx as [Heq [_ [Hh _]]].
      rewrite Heq in Hm. injection Hm as <- <-.
      assert (Hd : 1 <= d <= n).
      { rewrite <- (inv_numDisks _ _ Hi).
        eapply wellFormed_disk_range; eauto using invariant_wellFormed, top_In. }
      right. exists f, t, d. repeat split; try assumption; lia.
    - rewrite (makeMove_Invalid _ _ _ _ _ Hv) in Hm. injection Hm as <- <-.
      now left. }
  destruct c as [fr to now| |i| |to now]; cbn [run] in H.
  - destruct (Hmove fr to now H); auto.
  - destruct (moveHistory gs) as [|m0 h0] eqn:Eh.
    { rewrite (undoLastMove_empty _ Eh) in H. injection H as <- <-. now left. }
    destruct (gameComplete gs) eqn:Ec.
    { rewrite undoLastMove_complete in H by (assumption || congruence).
      injection H as <- <-. left. now rewrite Eh. }
    destruct (exists_last (l := m0 :: h0)) as [h [m Ehm]]; [discriminate|].
    rewrite Ehm in *. change (h ++ [m]) with (push h m) in *.
    pose proof (inv_played _ _ Hi) as Hp. rewrite Eh in Hp.
    apply played_push_inv in Hp as [r [_ [_ [[Hne _] Htr]]]].
    apply (transfer_inverse _ _ _ _ _ Hne) in Htr.
    pose proof (undoLastMove_open gs h m Eh Ec) as Hu. rewrite Htr in Hu.
    destruct Hu as [gs1 [Heq [_ [Hh _]]]].
    rewrite Heq in H. injection H as <- <-. right. right. exists m. now rewrite Hh.
  - left. unfold selectDisk in H. destruct (toRodIndex i) as [k|].
    + destruct (top (disksOf (rods gs) k)); injection H as <- <-; reflexivity.
    + injection H as <- <-. reflexivity.
  - left. unfold clearSelection in H. injection H as <- <-. reflexivity.
  - unfold moveSelectedDisk in H. destruct (selectedDisk gs), (selectedRod gs);
      try (injection H as <- <-; now left).
    destruct (Hmove _ to now H); auto.
Qed.

(** X10.  In every reachable state the history numbers its records from 1:
    the record at position [i] (from 0) has [moveNumber] [i + 1];
    [moveCount] is the length of the history; and every record passes
    [validateMove] of gameState.js and carries a disk between 1 and
    [n]. *)
Theorem reachable_history_numbered n gs :
  reachable n gs ->
  moveCount gs = Z.of_nat (length (moveHistory gs))
  /\ forall i m,
       nth_error (moveHistory gs) i = Some m ->
       moveNumber m = Z.of_nat i + 1
       /\ GameState.validateMove m = true
       /\ 1 <= diskId m <= n.
Proof.
  intros Hr. split; [apply (reachable_invariant _ _ Hr)|].
  induction Hr as [now gs H | gs gs' Hr IH [c [res Hs]]].
  - apply createGameState_Returns in H as [_ ->]. intros [|i] m; discriminate.
  - apply reachable_invariant in Hr.
    destruct (invariant_run_history _ _ _ _ _ Hr Hs)
      as [Hh | [[f [t [d [Hh [Hne Hd]]]]] | [last Hh]]].
    + rewrite Hh. exact IH.
    + rewrite Hh. intros i m Hn. unfold push in Hn.
      destruct (Nat.lt_ge_cases i (length (moveHistory gs))) as [Hi | Hi].
      * rewrite nth_error_app1 in Hn by assumption. now apply IH.
      * rewrite nth_error_app2 in Hn by assumption.
        destruct (i - length (moveHistory gs))%nat as [|k] eqn:Ek;
          [|destruct k; discriminate].
        injection Hn as <-. cbn [moveNumber diskId]. unfold GameState.validateMove.
        cbn [fromRod toRod diskId moveNumber].
        apply RodIndex_eqb_neq in Hne. rewrite Hne, (inv_moveCount _ _ Hr).
        replace (d <? 1) with false by lia.
        replace (Z.of_nat (length (moveHistory gs)) + 1 <? 1) with false by lia.
        repeat split; try lia.
    + intros i m Hn. apply IH. rewrite Hh. unfold push.
      rewrite nth_error_app1; [exact Hn|].
      apply nth_error_Some. congruence.
Qed.

Lemma reachable_history_numbered_witness :
  moveCount midGame3 = Z.of_nat (length (moveHistory midGame3))
  /\ forall i m,
       nth_error (moveHistory midGame3) i = Some m ->
       moveNumber m = Z.of_nat i + 1
       /\ GameState.validateMove m = true
       /\ 1 <= diskId m <= 3.
Proof.
  apply (reachable_history_numbered 3 midGame3).
  apply (reachable_step 3 newGame3).
  - apply (reachable_new 3 0). reflexivity.
  - exists (MakeMove (JsInt 0) (JsInt 1) midnight). eexists. reflexivity.
Defined.

(** ** Which disks can move *)

Lemma indexOf_Some l d p :
  indexOf l d = Some p -> nth_error l p = Some d.
Proof.
  revert p. induction l as [|a l IH]; intros p; cbn [indexOf]; [discriminate|].
  destruct (a =? d) eqn:E.
  - intros H. injection H as <-. apply Z.eqb_eq in E. now subst.
  - destruct (indexOf l d) as [q|]; [|discriminate].
    intros H. injection H as <-. cbn. now apply IH.
Qed.

Lemma indexOf_None l d : indexOf l d = None <-> ~ In d l.
Proof.
  induction l as [|a l IH]; cbn [indexOf In]; [tauto|].
  destruct (Z.eqb_spec a d) as [->|Hne].
  - split; [discriminate | tauto].
  - destruct (indexOf l d) as [q|].
    + split; [discriminate|]. intros H.
      assert (Hn : ~ In d l) by tauto. apply IH in Hn. discriminate Hn.
    + split; [|reflexivity]. intros _ [H|H]; [congruence|]. now apply IH.
Qed.

Lemma descending_NoDup l : descending l -> NoDup l.
Proof.
  induction 1 as [|a l Hs IH Hf]; constructor; [|exact IH].
  intros Hin. rewrite Forall_forall in Hf. specialize (Hf a Hin). lia.
Qed.

Lemma top_last_position (l : list Z) d :
  top l = Some d <-> l <> [] /\ nth_error l (length l - 1) = Some d.
Proof.
  split.
  - intros H. apply top_Some in H as [r [-> _]]. unfold push. split.
    + destruct r; discriminate.
    + rewrite length_app, nth_error_app2 by (cbn; lia).
      cbn [length]. replace (length r + 1 - 1 - length r)%nat with 0%nat by lia.
      reflexivity.
  - intros [Hne H]. destruct (exists_last Hne) as [r [x ->]].
    rewrite length_app, nth_error_app2 in H by (cbn; lia).
    cbn [length] in H.
    replace (length r + 1 - 1 - length r)%nat with 0%nat in H by lia.
    injection H as ->. apply top_push.
Qed.

Lemma found_disk_is_free (l : list Z) d p :
  NoDup l -> indexOf l d = Some p ->
  nth_error l p = Some d
  /\ ((Z.of_nat p =? Z.of_nat (length l) - 1) = true <-> top l = Some d).
Proof.
  intros Hnd Hi. apply indexOf_Some in Hi. split; [exact Hi|].
  assert (Hp : (p < length l)%nat) by (apply nth_error_Some; congruence).
  rewrite Z.eqb_eq, top_last_position. split.
  - intros Hq. replace (length l - 1)%nat with p by lia. split; [|exact Hi].
    intros ->. cbn in Hp. lia.
  - intros [_ Hl]. rewrite <- Hi in Hl.
    apply (proj1 (NoDup_nth_error l) Hnd) in Hl; lia.
Qed.

(** X11.  On a state that passes [validateGameState], [canMoveDisk] finds
    every disk from 1 to [numDisks] at its position on its rod and answers
    that it can move exactly when it is the top disk of that rod, which is
    exactly when [selectDisk] on that rod picks it up; any other value is
    reported as not found. *)
Theorem canMoveDisk_finds_top_disks gs :
  validateGameState gs = true ->
  (forall d, 1 <= d <= numDisks (settings gs) ->
     exists canMove i position,
       canMoveDisk gs (JsInt d)
       = DiskFound canMove i position (length (disksOf (rods gs) i))
       /\ nth_error (disksOf (rods gs) i) position = Some d
       /\ (canMove = true <-> top (disksOf (rods gs) i) = Some d)
       /\ (canMove = true <->
           exists dests gs',
             selectDisk gs (JsInt (rodNumber i)) = (Selected d i dests, gs')))
  /\ (forall v, (forall d, v = JsInt d -> ~ 1 <= d <= numDisks (settings gs)) ->
      canMoveDisk gs v = DiskNotFound).
Proof.
  intros Hv. apply validateGameState_wellFormed in Hv. split.
  - intros d Hd.
    assert (Hin : In d (allDisks (rods gs))).
    { eapply Permutation_in; [apply Permutation_sym, (wf_disks _ Hv)|].
      now apply In_range. }
    assert (Hnd : forall i, NoDup (disksOf (rods gs) i))
      by (intros i; apply descending_NoDup, (wf_descending _ Hv)).
    assert (Hsel : forall i, top (disksOf (rods gs) i) = Some d <->
              exists dests gs',
                selectDisk gs (JsInt (rodNumber i)) = (Selected d i dests, gs')).
    { intros i. unfold selectDisk. rewrite toRodIndex_rodNumber. split.
      - intros ->. eauto.
      - intros [dests [gs' H]].
        destruct (top (disksOf (rods gs) i)); [|discriminate].
        now injection H as -> _ _. }
    unfold canMoveDisk.
    destruct (indexOf (disksOf (rods gs) Rod0) d) as [p|] eqn:E0.
    { destruct (found_disk_is_free _ _ _ (Hnd Rod0) E0) as [Hn Hf].
      do 3 eexists. split; [reflexivity|]. split; [exact Hn|].
      split; [exact Hf|]. now rewrite Hf. }
    destruct (indexOf (disksOf (rods gs) Rod1) d) as [p|] eqn:E1.
    { destruct (found_disk_is_free _ _ _ (Hnd Rod1) E1) as [Hn Hf].
      do 3 eexists. split; [reflexivity|]. split; [exact Hn|].
      split; [exact Hf|]. now rewrite Hf. }
    destruct (indexOf (disksOf (rods gs) Rod2) d) as [p|] eqn:E2.
    { destruct (found_disk_is_free _ _ _ (Hnd Rod2) E2) as [Hn Hf].
      do 3 eexists. split; [reflexivity|]. split; [exact Hn|].
      split; [exact Hf|]. now rewrite Hf. }
    exfalso. apply indexOf_None in E0, E1, E2. unfold allDisks in Hin.
    rewrite !in_app_iff in Hin. cbn [disksOf] in *. tauto.
  - intros v Hout. unfold canMoveDisk. destruct v as [d| |]; try reflexivity.
    specialize (Hout d eq_refl).
    assert (Hno : forall i, indexOf (disksOf (rods gs) i) d = None).
    { intros i. apply indexOf_None. intros Hin. apply Hout.
      eapply wellFormed_disk_range; eauto. }
    now rewrite !Hno.
Qed.

Lemma canMoveDisk_finds_top_disks_witness :
  exists canMove i position,
    canMoveDisk midGame3 (JsInt 3)
    = DiskFound canMove i position (length (disksOf (rods midGame3) i))
    /\ nth_error (disksOf (rods midGame3) i) position = Some 3
    /\ (canMove = true <-> top (disksOf (rods midGame3) i) = Some 3)
    /\ (canMove = true <->
        exists dests gs',
          selectDisk midGame3 (JsInt (rodNumber i)) = (Selected 3 i dests, gs')).
Proof.
  destruct (canMoveDisk_finds_top_disks midGame3 eq_refl) as [H _].
  apply (H 3). cbn. lia.
Defined.

(** * Further properties of the solver *)

(** ** The moves the solver books *)

Lemma findDiskFrom_Some k r pos d :
  findDiskFrom k r pos = Some d ->
  1 <= d <= Z.of_nat k /\ arrayGet pos (d - 1) = Some r.
Proof.
  induction k as [|k IH]; [discriminate|]. cbn [findDiskFrom].
  destruct (arrayGet pos (Z.of_nat (S k) - 1)) as [x|] eqn:E.
  - destruct (Z.eqb_spec x r) as [->|Hne].
    + intros H. injection H as <-. split; [lia | exact E].
    + intros H. apply IH in H as [Hd Hg]. split; [lia | exact Hg].
  - intros H. apply IH in H as [Hd Hg]. split; [lia | exact Hg].
Qed.

Lemma findDiskFrom_None k r pos :
  findDiskFrom k r pos = None ->
  forall d, 1 <= d <= Z.of_nat k -> arrayGet pos (d - 1) <> Some r.
Proof.
  induction k as [|k IH]; intros H d Hd; [lia|]. cbn [findDiskFrom] in H.
  destruct (Z.eq_dec d (Z.of_nat (S k))) as [->|Hne].
  - destruct (arrayGet pos (Z.of_nat (S k) - 1)) as [x|]; [|discriminate].
    destruct (Z.eqb_spec x r); [discriminate | congruence].
  - apply IH; [|lia].
    destruct (arrayGet pos (Z.of_nat (S k) - 1)) as [x|]; [|exact H].
    destruct (x =? r); [discriminate | exact H].
Qed.

(** [recordMove] books one move when some disk is on [source] in the
    solver's array, and otherwise leaves solution and array alone. *)
Lemma recordMove_cases N n s t st :
  match findDiskFrom (Z.to_nat N) s (snd st) with
  | Some d =>
    recordMove N n s t st
    = (push (fst st) (mkSolverMove s t d), arraySet (snd st) (d - 1) t)
    /\ 1 <= d <= Z.of_nat (Z.to_nat N)
  | None => recordMove N n s t st = st
  end.
Proof.
  destruct st as [sol pos]. unfold recordMove, findDiskAtPosition. cbn [fst snd].
  destruct (findDiskFrom (Z.to_nat N) s pos) as [d|] eqn:E; [|reflexivity].
  apply findDiskFrom_Some in E as [Hd Hg]. rewrite Hg, Z.eqb_refl.
  replace (d =? 0) with false by lia. split; [reflexivity | exact Hd].
Qed.

(** A move the solver may book for a game of [N] disks: between two
    different rods, of a disk from 1 to [N]. *)
Lemma recordMove_grows N n s t st :
  exists added,
    fst (recordMove N n s t st) = fst st ++ added
    /\ (length added <= 1)%nat
    /\ (added = [] -> recordMove N n s t st = st)
    /\ (findDiskFrom (Z.to_nat N) s (snd st) <> None -> added <> [])
    /\ Forall (fun m => from m = s /\ to m = t /\ 1 <= disk m <= Z.of_nat (Z.to_nat N))
         added.
Proof.
  pose proof (recordMove_cases N n s t st) as H.
  destruct (findDiskFrom (Z.to_nat N) s (snd st)) as [d|].
  - destruct H as [-> Hd]. exists [mkSolverMove s t d]. cbn [fst length].
    repeat split; try (intros; discriminate); try lia.
    repeat constructor; cbn; lia.
  - rewrite H. exists []. rewrite app_nil_r.
    repeat split; try (cbn; lia); try congruence. constructor.
Qed.

Lemma solveTowersOfHanoi_grows N n : forall s t a st,
  s <> t -> s <> a -> t <> a ->
  exists added,
    fst (solveTowersOfHanoi N n s t a st) = fst st ++ added
    /\ Z.of_nat (length added) <= 2 ^ Z.of_nat n - 1
    /\ (added = [] -> solveTowersOfHanoi N n s t a st = st)
    /\ ((1 <= n)%nat -> findDiskFrom (Z.to_nat N) s (snd st) <> None -> added <> [])
    /\ Forall (fun m => from m <> to m
                        /\ (from m = s \/ from m = t \/ from m = a)
                        /\ (to m = s \/ to m = t \/ to m = a)
                        /\ 1 <= disk m <= Z.of_nat (Z.to_nat N))
         added.
Proof.
  induction n as [|n IH]; intros s t a st Hst Hsa Hta.
  - exists []. cbn. rewrite app_nil_r. repeat split; try lia; try constructor.
  - assert (Hmid : forall st0, exists added,
              fst (recordMove N (Z.of_nat (S n)) s t st0) = fst st0 ++ added
              /\ (length added <= 1)%nat
              /\ (added = [] -> recordMove N (Z.of_nat (S n)) s t st0 = st0)
              /\ (findDiskFrom (Z.to_nat N) s (snd st0) <> None -> added <> [])
              /\ Forall (fun m => from m <> to m
                                  /\ (from m = s \/ from m = t \/ from m = a)
                                  /\ (to m = s \/ to m = t \/ to m = a)
                                  /\ 1 <= disk m <= Z.of_nat (Z.to_nat N))
                   added).
    { intros st0.
      destruct (recordMove_grows N (Z.of_nat (S n)) s t st0)
        as [added [H1 [H2 [H3 [H4 H5]]]]].
      exists added. repeat split; try assumption.
      eapply Forall_impl; [|exact H5]. cbn. intros m [-> [-> Hd]].
      repeat split; auto; lia. }
    destruct n as [|n].
    + cbn [solveTowersOfHanoi].
      destruct (recordMove_grows N 1 s t st) as [added [H1 [H2 [H3 [H4 H5]]]]].
      exists added. repeat split; try assumption.
      * change (2 ^ Z.of_nat 1) with 2. lia.
      * intros _. exact H4.
      * eapply Forall_impl; [|exact H5]. cbn. intros m [-> [-> Hd]].
        repeat split; auto; lia.
    + change (solveTowersOfHanoi N (S (S n)) s t a st)
        with (solveTowersOfHanoi N (S n) a t s
                (recordMove N (Z.of_nat (S (S n))) s t
                   (solveTowersOfHanoi N (S n) s a t st))).
      destruct (IH s a t st) as [add1 [E1 [L1 [U1 [G1 F1]]]]]; auto.
      set (st1 := solveTowersOfHanoi N (S n) s a t st) in *.
      destruct (Hmid st1) as [add2 [E2 [L2 [U2 [G2 F2]]]]].
      set (st2 := recordMove N (Z.of_nat (S (S n))) s t st1) in *.
      destruct (IH a t s st2) as [add3 [E3 [L3 [U3 [G3 F3]]]]]; auto.
      exists (add1 ++ add2 ++ add3). split; [|split; [|split; [|split]]].
      * rewrite E3, E2, E1, <- !app_assoc. reflexivity.
      * rewrite !length_app.
        replace (2 ^ Z.of_nat (S (S n))) with (2 * 2 ^ Z.of_nat (S n))
          by (rewrite (Nat2Z.inj_succ (S n)), Z.pow_succ_r; lia).
        lia.
      * intros H. apply app_eq_nil in H as [H1 H]. apply app_eq_nil in H as [H2 H3].
        rewrite (U3 H3). subst st2. rewrite (U2 H2). subst st1. exact (U1 H1).
      * intros _ Hs. destruct add1 as [|m1 add1]; [|discriminate].
        destruct add2 as [|m2 add2]; [|discriminate].
        exfalso. apply G2; [|reflexivity]. subst st1. now rewrite (U1 eq_refl).
      * repeat (apply Forall_app; split).
        -- eapply Forall_impl; [|exact F1]. cbn. tauto.
        -- exact F2.
        -- eapply Forall_impl; [|exact F3]. cbn. tauto.
Qed.

(** X12.  Whatever the state, a solution that [generateOptimalSolution]
    returns has at most [2^numDisks - 1] moves, and each of them goes from
    one of the rods 0, 1, 2 to a different one and names a disk between 1
    and [numDisks]. *)
Theorem generateOptimalSolution_bounded gs solution :
  generateOptimalSolution gs = Returns solution ->
  Z.of_nat (length solution) <= 2 ^ numDisks (settings gs) - 1
  /\ Forall (fun m => from m <> to m
                      /\ 0 <= from m <= 2 /\ 0 <= to m <= 2
                      /\ 1 <= disk m <= numDisks (settings gs))
       solution.
Proof.
  unfold generateOptimalSolution, getCurrentDiskPositions.
  destruct (Z.ltb_spec (numDisks (settings gs)) 0) as [|Hn0]; [discriminate|].
  match goal with |- context [isGameComplete ?p] =>
    set (positions := p); destruct (isGameComplete positions) end.
  - intros H. injection H as <-. split; [|constructor].
    pose proof (Z.pow_pos_nonneg 2 (numDisks (settings gs))). cbn [length]. lia.
  - destruct (Z.ltb_spec (numDisks (settings gs)) 1) as [|Hn1]; [discriminate|].
    intros H. injection H as <-.
    destruct (solveTowersOfHanoi_grows (numDisks (settings gs))
                (Z.to_nat (numDisks (settings gs))) 0 2 1 ([], positions))
      as [added [E [L [_ [_ F]]]]]; try lia.
    rewrite E. cbn [fst app]. rewrite Z2Nat.id in * by lia. split; [exact L|].
    eapply Forall_impl; [|exact F]. cbn. intros m [H1 [H2 [H3 H4]]].
    repeat split; lia.
Qed.

Lemma generateOptimalSolution_bounded_witness :
  Z.of_nat (length [mkSolverMove 0 2 3; mkSolverMove 0 1 2; mkSolverMove 2 1 3;
                    mkSolverMove 1 0 3; mkSolverMove 1 2 2; mkSolverMove 0 2 3])
  <= 2 ^ numDisks (settings midGame3) - 1
  /\ Forall (fun m => from m <> to m
                      /\ 0 <= from m <= 2 /\ 0 <= to m <= 2
                      /\ 1 <= disk m <= numDisks (settings midGame3))
       [mkSolverMove 0 2 3; mkSolverMove 0 1 2; mkSolverMove 2 1 3;
        mkSolverMove 1 0 3; mkSolverMove 1 2 2; mkSolverMove 0 2 3].
Proof. apply (generateOptimalSolution_bounded midGame3). reflexivity. Defined.

(** ** The solver's picture of the rods *)

Lemma nth_error_replace {A : Type} (p : list A) (i j : nat) (v : A) :
  (i < length p)%nat ->
  nth_error (firstn i p ++ v :: skipn (S i) p) j
  = if (j =? i)%nat then Some v else nth_error p j.
Proof.
  revert i j. induction p as [|a p IH]; intros i j Hi; [cbn in Hi; lia|].
  destruct i as [|i], j as [|j]; cbn; try reflexivity.
  apply IH. cbn in Hi. lia.
Qed.

Lemma arraySet_in_range p i v :
  0 <= i < Z.of_nat (length p) ->
  length (arraySet p i v) = length p
  /\ forall j, 0 <= j -> arrayGet (arraySet p i v) j
                         = if j =? i then Some v else arrayGet p j.
Proof.
  intros Hi. unfold arraySet.
  replace (i <? 0) with false by lia.
  replace (Z.to_nat i <? length p)%nat with true
    by (symmetry; apply Nat.ltb_lt; lia).
  split.
  - rewrite length_app, length_firstn. cbn [length]. rewrite length_skipn. lia.
  - intros j Hj. unfold arrayGet. replace (j <? 0) with false by lia.
    rewrite nth_error_replace by lia.
    destruct (Z.eqb_spec j i) as [->|Hne].
    + now rewrite Nat.eqb_refl.
    + replace (Z.to_nat j =? Z.to_nat i)%nat with false
        by (symmetry; apply Nat.eqb_neq; lia).
      reflexivity.
Qed.

(** Writing the disks of one rod into the array. *)
Lemma positions_of_rod N r : forall (disks : list Z) (pos : list (option Z)),
  (forall d, In d disks -> 1 <= d <= N) -> Z.of_nat (length pos) = N ->
  let pos' := fold_left (fun p d => arraySet p (d - 1) r) disks pos in
  Z.of_nat (length pos') = N
  /\ forall d, 1 <= d ->
       arrayGet pos' (d - 1) = if in_dec Z.eq_dec d disks then Some r
                               else arrayGet pos (d - 1).
Proof.
  induction disks as [|a disks IH]; intros pos Hin Hlen; cbn zeta.
  - split; [exact Hlen | reflexivity].
  - cbn [fold_left].
    assert (Ha : 1 <= a <= N) by (apply Hin; now left).
    destruct (arraySet_in_range pos (a - 1) r) as [Hl Hg]; [lia|].
    destruct (IH (arraySet pos (a - 1) r)) as [Hl' Hg'].
    { intros d Hd. apply Hin. now right. }
    { now rewrite Hl. }
    split; [exact Hl'|]. intros d Hd. rewrite (Hg' d Hd), Hg by lia.
    destruct (in_dec Z.eq_dec d disks) as [Hi|Hi];
      destruct (in_dec Z.eq_dec d (a :: disks)) as [Hj|Hj];
      try reflexivity.
    + exfalso. apply Hj. now right.
    + destruct Hj as [->|Hj]; [|contradiction]. now rewrite Z.eqb_refl.
    + destruct (Z.eqb_spec (d - 1) (a - 1)); [|reflexivity].
      exfalso. apply Hj. left. lia.
Qed.

Lemma arrayGet_repeat_None k j : arrayGet (repeat None k) j = None.
Proof.
  unfold arrayGet. destruct (j <? 0); [reflexivity|].
  destruct (nth_error (repeat None k) (Z.to_nat j)) as [x|] eqn:E; [|reflexivity].
  apply nth_error_In, repeat_spec in E. now subst.
Qed.

(** On a state that passes [validateGameState] the solver's array has one
    entry per disk, and the entry of a disk is the rod that carries it. *)
Lemma getCurrentDiskPositions_wellFormed gs :
  wellFormed gs ->
  exists positions,
    getCurrentDiskPositions gs = Returns positions
    /\ Z.of_nat (length positions) = numDisks (settings gs)
    /\ forall d i, In d (disksOf (rods gs) i) ->
                   arrayGet positions (d - 1) = Some (rodNumber i).
Proof.
  intros Hwf. pose proof (wf_numDisks _ Hwf) as Hn.
  unfold getCurrentDiskPositions. replace (numDisks (settings gs) <? 0) with false by lia.
  eexists. split; [reflexivity|]. cbn [fold_left disksOf].
  set (N := numDisks (settings gs)) in *.
  assert (Hrange : forall i d, In d (disksOf (rods gs) i) -> 1 <= d <= N)
    by (intros i d; apply wellFormed_disk_range; exact Hwf).
  destruct (positions_of_rod N (rodNumber Rod0) (rod0 (rods gs)) (repeat None (Z.to_nat N)))
    as [L0 G0]; [apply (Hrange Rod0) | rewrite repeat_length; lia |].
  cbv zeta in L0, G0.
  set (p0 := fold_left _ (rod0 (rods gs)) _) in *.
  destruct (positions_of_rod N (rodNumber Rod1) (rod1 (rods gs)) p0)
    as [L1 G1]; [apply (Hrange Rod1) | exact L0 |].
  cbv zeta in L1, G1.
  set (p1 := fold_left _ (rod1 (rods gs)) p0) in *.
  destruct (positions_of_rod N (rodNumber Rod2) (rod2 (rods gs)) p1)
    as [L2 G2]; [apply (Hrange Rod2) | exact L1 |].
  cbv zeta in L2, G2.
  split; [exact L2|]. intros d i Hin.
  pose proof (Hrange i d Hin) as Hd.
  pose proof (wellFormed_count_one _ _ _ Hwf Hin) as Hc.
  unfold allDisks in Hc. rewrite !count_occ_app in Hc.
  assert (Hocc : forall l, In d l -> (0 < count_occ Z.eq_dec l d)%nat)
    by (intros l; apply count_occ_In).
  rewrite G2, G1, G0, arrayGet_repeat_None by lia.
  destruct (in_dec Z.eq_dec d (rod2 (rods gs))) as [H2|H2];
    destruct (in_dec Z.eq_dec d (rod1 (rods gs))) as [H1|H1];
    destruct (in_dec Z.eq_dec d (rod0 (rods gs))) as [H0|H0];
    destruct i; cbn [disksOf] in Hin; try reflexivity; try contradiction;
    try (apply Hocc in H0); try (apply Hocc in H1); try (apply Hocc in H2);
    lia.
Qed.

Lemma solveTowersOfHanoi_books_from_auxiliary N n s t a st :
  s <> t -> s <> a -> t <> a -> (2 <= n)%nat ->
  findDiskFrom (Z.to_nat N) a (snd st) <> None ->
  fst (solveTowersOfHanoi N n s t a st) <> fst st.
Proof.
  intros Hst Hsa Hta Hn Ha. destruct n as [|[|n]]; try lia.
  change (solveTowersOfHanoi N (S (S n)) s t a st)
    with (solveTowersOfHanoi N (S n) a t s
            (recordMove N (Z.of_nat (S (S n))) s t
               (solveTowersOfHanoi N (S n) s a t st))).
  destruct (solveTowersOfHanoi_grows N (S n) s a t st)
    as [add1 [E1 [_ [U1 _]]]]; auto.
  set (st1 := solveTowersOfHanoi N (S n) s a t st) in *.
  destruct (recordMove_grows N (Z.of_nat (S (S n))) s t st1)
    as [add2 [E2 [_ [U2 _]]]].
  set (st2 := recordMove N (Z.of_nat (S (S n))) s t st1) in *.
  destruct (solveTowersOfHanoi_grows N (S n) a t s st2)
    as [add3 [E3 [_ [_ [G3 _]]]]]; auto.
  rewrite E3, E2, E1, <- !app_assoc. intros H.
  rewrite <- (app_nil_r (fst st)) in H at 2. apply app_inv_head in H.
  apply app_eq_nil in H as [H1 H]. apply app_eq_nil in H as [H2 H3].
  apply G3; [lia | | exact H3].
  subst st2. rewrite (U2 H2). subst st1. now rewrite (U1 H1).
Qed.

Lemma isGameComplete_entries positions :
  isGameComplete positions = true
  <-> forall j r, 0 <= j -> arrayGet positions j = Some r -> r = 2.
Proof.
  unfold isGameComplete. rewrite forallb_forall. split.
  - intros H j r Hj Hg. unfold arrayGet in Hg.
    replace (j <? 0) with false in Hg by lia.
    destruct (nth_error positions (Z.to_nat j)) as [x|] eqn:E; [|discriminate].
    subst x. apply nth_error_In, H, Z.eqb_eq in E. exact E.
  - intros H [r|] Hin; [|reflexivity]. apply Z.eqb_eq.
    apply In_nth_error in Hin as [k Hk].
    apply (H (Z.of_nat k)); [lia|]. unfold arrayGet.
    destruct (Z.ltb_spec (Z.of_nat k) 0); [lia|]. now rewrite Nat2Z.id, Hk.
Qed.

Lemma descending_same_disks l : forall l',
  descending l -> descending l' -> (forall x, In x l <-> In x l') -> l = l'.
Proof.
  induction l as [|a l IH]; intros [|a' l'] Hs Hs' Hin.
  - reflexivity.
  - destruct (proj2 (Hin a') (or_introl eq_refl)).
  - destruct (proj1 (Hin a) (or_introl eq_refl)).
  - apply StronglySorted_inv in Hs as [Hs Hf], Hs' as [Hs' Hf'].
    rewrite Forall_forall in Hf, Hf'.
    assert (a = a').
    { destruct (proj1 (Hin a) (or_introl eq_refl)) as [|H1]; [congruence|].
      destruct (proj2 (Hin a') (or_introl eq_refl)) as [|H2]; [congruence|].
      specialize (Hf' _ H1). specialize (Hf _ H2). lia. }
    subst a'. f_equal. apply IH; try assumption.
    intros x. split; intros Hx.
    + destruct (proj1 (Hin x) (or_intror Hx)) as [->|]; [|assumption].
      specialize (Hf _ Hx). lia.
    + destruct (proj2 (Hin x) (or_intror Hx)) as [->|]; [|assumption].
      specialize (Hf' _ Hx). lia.
Qed.

Lemma wellFormed_won_iff gs :
  wellFormed gs ->
  isGameWon gs = true <-> rod0 (rods gs) = [] /\ rod1 (rods gs) = [].
Proof.
  intros Hwf. pose proof (wf_numDisks _ Hwf) as Hn.
  rewrite isGameWon_spec by lia. split.
  - intros Hw. rewrite (wellFormed_won_rods _ Hwf Hw). now split.
  - intros [H0 H1]. apply descending_same_disks.
    + apply (wf_descending _ Hwf Rod2).
    + apply descending_countdown.
    + intros x. unfold initialDisks. rewrite In_countdown.
      pose proof (wf_disks _ Hwf) as Hp. unfold allDisks in Hp.
      rewrite H0, H1 in Hp. cbn [app] in Hp. split.
      * intros Hx. apply (Permutation_in _ Hp), In_range in Hx. lia.
      * intros Hx. apply (Permutation_in _ (Permutation_sym Hp)), In_range. lia.
Qed.

(** The solver on a well-formed state: it answers, and with no move
    exactly when rods 0 and 1 are empty. *)
Lemma generateOptimalSolution_wellFormed gs :
  wellFormed gs ->
  exists solution,
    generateOptimalSolution gs = Returns solution
    /\ (solution = [] <-> rod0 (rods gs) = [] /\ rod1 (rods gs) = []).
Proof.
  intros Hv.
  pose proof (wf_numDisks _ Hv) as Hn.
  destruct (getCurrentDiskPositions_wellFormed gs Hv) as [positions [Hp [Hl Hg]]].
  { unfold generateOptimalSolution. rewrite Hp.
    destruct (isGameComplete positions) eqn:Ec.
    - exists []. split; [reflexivity|]. split; [intros _ | reflexivity].
      rewrite isGameComplete_entries in Ec.
      split.
      + destruct (rod0 (rods gs)) as [|d l] eqn:E; [reflexivity|].
        assert (H : In d (disksOf (rods gs) Rod0)) by (cbn; rewrite E; now left).
        pose proof (wellFormed_disk_range _ _ _ Hv H).
        apply Hg, Ec in H; [discriminate | lia].
      + destruct (rod1 (rods gs)) as [|d l] eqn:E; [reflexivity|].
        assert (H : In d (disksOf (rods gs) Rod1)) by (cbn; rewrite E; now left).
        pose proof (wellFormed_disk_range _ _ _ Hv H).
        apply Hg, Ec in H; [discriminate | lia].
    - replace (numDisks (settings gs) <? 1) with false by lia.
      eexists. split; [reflexivity|].
      set (N := numDisks (settings gs)) in *.
      assert (Hfind : forall i d, In d (disksOf (rods gs) i) ->
                findDiskFrom (Z.to_nat N) (rodNumber i) positions <> None).
      { intros i d Hin Hnone.
        pose proof (wellFormed_disk_range _ _ _ Hv Hin) as Hd.
        apply (findDiskFrom_None _ _ _ Hnone d); [lia | now apply Hg]. }
      split.
      + intros Hempty. exfalso.
        assert (Hnot : ~ (rod0 (rods gs) = [] /\ rod1 (rods gs) = [])).
        { intros [H0 H1].
          assert (Ht : isGameComplete positions = true); [|congruence].
          apply isGameComplete_entries. intros j r Hj Hr.
          destruct (Z.lt_ge_cases j N) as [Hlt|Hge].
          - assert (Hin : In (j + 1) (allDisks (rods gs))).
            { eapply Permutation_in; [apply Permutation_sym, (wf_disks _ Hv)|].
              apply In_range. fold N. lia. }
            unfold allDisks in Hin. rewrite H0, H1 in Hin. cbn [app] in Hin.
            apply (Hg _ Rod2) in Hin. replace (j + 1 - 1) with j in Hin by lia.
            cbn in Hin. congruence.
          - unfold arrayGet in Hr. replace (j <? 0) with false in Hr by lia.
            destruct (nth_error positions (Z.to_nat j)) eqn:E; [|discriminate].
            assert (nth_error positions (Z.to_nat j) <> None) by congruence.
            apply nth_error_Some in H. lia. }
        apply Hnot. split.
        * destruct (rod0 (rods gs)) as [|d l] eqn:E; [reflexivity|]. exfalso.
          destruct (solveTowersOfHanoi_grows N (Z.to_nat N) 0 2 1 ([], positions))
            as [added [E1 [_ [_ [G _]]]]]; try lia.
          rewrite E1 in Hempty. cbn [fst app] in Hempty.
          apply G; [lia | | exact Hempty].
          apply (Hfind Rod0 d). cbn. rewrite E. now left.
        * destruct (rod1 (rods gs)) as [|d l] eqn:E; [reflexivity|]. exfalso.
          apply (solveTowersOfHanoi_books_from_auxiliary N (Z.to_nat N) 0 2 1
                   ([], positions)); try lia; [|exact Hempty].
          apply (Hfind Rod1 d). cbn. rewrite E. now left.
      + intros [H0 H1]. exfalso.
        assert (Ht : isGameComplete positions = true); [|congruence].
        apply isGameComplete_entries. intros j r Hj Hr.
        destruct (Z.lt_ge_cases j N) as [Hlt|Hge].
        * assert (Hin : In (j + 1) (allDisks (rods gs))).
          { eapply Permutation_in; [apply Permutation_sym, (wf_disks _ Hv)|].
            apply In_range. fold N. lia. }
          unfold allDisks in Hin. rewrite H0, H1 in Hin. cbn [app] in Hin.
          apply (Hg _ Rod2) in Hin. replace (j + 1 - 1) with j in Hin by lia.
          cbn in Hin. congruence.
        * unfold arrayGet in Hr. replace (j <? 0) with false in Hr by lia.
          destruct (nth_error positions (Z.to_nat j)) eqn:E; [|discriminate].
          assert (nth_error positions (Z.to_nat j) <> None) by congruence.
          apply nth_error_Some in H. lia. }
Qed.

(** X13.  On a state that passes [validateGameState] the solver returns a
    solution, and the solution is empty exactly when the game is won (rods
    0 and 1 empty, all disks on rod 2); [getNextOptimalMove] then answers
    [null], and otherwise the first move of the solution. *)
Theorem generateOptimalSolution_empty_iff_won gs :
  validateGameState gs = true ->
  exists solution,
    generateOptimalSolution gs = Returns solution
    /\ (solution = [] <-> isGameWon gs = true)
    /\ (solution = [] <-> rod0 (rods gs) = [] /\ rod1 (rods gs) = [])
    /\ getNextOptimalMove gs = Returns (hd_error solution).
Proof.
  intros Hv. apply validateGameState_wellFormed in Hv.
  destruct (generateOptimalSolution_wellFormed gs Hv) as [solution [Hs Hiff]].
  exists solution.
  split; [exact Hs|]. split; [now rewrite wellFormed_won_iff|].
  split; [exact Hiff|].
  unfold getNextOptimalMove. rewrite Hs. cbn [bind]. now destruct solution.
Qed.

Lemma generateOptimalSolution_empty_iff_won_witness :
  exists solution,
    generateOptimalSolution solvedGame3 = Returns solution
    /\ (solution = [] <-> isGameWon solvedGame3 = true)
    /\ (solution = [] <-> rod0 (rods solvedGame3) = [] /\ rod1 (rods solvedGame3) = [])
    /\ getNextOptimalMove solvedGame3 = Returns (hd_error solution).
Proof. apply (generateOptimalSolution_empty_iff_won solvedGame3). reflexivity. Defined.

(** * Properties of auto-solve *)

(** ** What a call of [executeNextMove] does *)

Lemma withGame_same s : withGame (game s) s = s.
Proof. now destruct s. Qed.

Lemma makeMove_refuses gs fr to now res gs' :
  makeMove gs fr to now = Returns (res, gs') -> success res = false ->
  gs' = gs /\ exists error, res = Failure error.
Proof.
  intros H Hs. destruct (validateMove gs fr to) as [|e] eqn:Hv.
  - destruct (makeMove_Valid gs fr to now Hv)
      as [f [t [d [r' [gs1 [_ [_ [_ [_ H1]]]]]]]]].
    cbv zeta in H1. destruct H1 as [H1 _]. rewrite H1 in H.
    inversion H; subst. discriminate.
  - rewrite (makeMove_Invalid _ _ _ _ _ Hv) in H. inversion H; subst. eauto.
Qed.

(** The five ways through [executeNextMove]: nothing to do while not
    running or paused; the solution is played out; the engine is missing;
    the move is refused; the move is executed. *)
Lemma executeNextMove_inv (P : Solver -> Prop) s now :
  (isRunning (autoSolveState s) = false \/ isPaused (autoSolveState s) = true ->
   P s) ->
  (isRunning (autoSolveState s) = true -> isPaused (autoSolveState s) = false ->
   (length (solution (autoSolveState s)) <= currentStep (autoSolveState s))%nat ->
   P (stopAutoSolve (if onComplete (autoSolveState s)
                     then emit CallOnComplete s else s))) ->
  (isRunning (autoSolveState s) = true -> isPaused (autoSolveState s) = false ->
   (currentStep (autoSolveState s) < length (solution (autoSolveState s)))%nat ->
   gameEngine s = false ->
   P (stopAutoSolve (emit (ConsoleError "GameEngine not available for auto-solve") s))) ->
  (forall move error,
     isRunning (autoSolveState s) = true -> isPaused (autoSolveState s) = false ->
     gameEngine s = true ->
     nth_error (solution (autoSolveState s)) (currentStep (autoSolveState s))
     = Some move ->
     makeMove (game s) (JsInt (from move)) (JsInt (to move)) now
     = Returns (Failure error, game s) ->
     P (stopAutoSolve (emit (ConsoleError "Auto-solve move failed:") s))) ->
  (forall move res gs',
     isRunning (autoSolveState s) = true -> isPaused (autoSolveState s) = false ->
     gameEngine s = true ->
     nth_error (solution (autoSolveState s)) (currentStep (autoSolveState s))
     = Some move ->
     makeMove (game s) (JsInt (from move)) (JsInt (to move)) now
     = Returns (res, gs') ->
     success res = true ->
     P (moveExecuted move gs' s)) ->
  exists s', executeNextMove s now = Returns s' /\ P s'.
Proof.
  intros Hidle Hdone Hnone Hrefused Hmade. unfold executeNextMove.
  destruct (negb (isRunning (autoSolveState s)) || isPaused (autoSolveState s))
    eqn:Eidle.
  { apply orb_true_iff in Eidle as [Er|Ep]; [apply negb_true_iff in Er|]; eauto. }
  apply orb_false_iff in Eidle as [Er Ep]. apply negb_false_iff in Er.
  destruct (Nat.leb_spec (length (solution (autoSolveState s)))
              (currentStep (autoSolveState s))) as [Hle|Hlt]; [eauto|].
  destruct (gameEngine s) eqn:Eg; [|eauto].
  destruct (nth_error (solution (autoSolveState s)) (currentStep (autoSolveState s)))
    as [move|] eqn:E.
  2: { apply nth_error_None in E. lia. }
  destruct (makeMove_returns (game s) (JsInt (from move)) (JsInt (to move)) now)
    as [res [gs' Hm]].
  rewrite Hm. destruct (success res) eqn:Es; [eauto|].
  destruct (makeMove_refuses _ _ _ _ _ _ Hm Es) as [-> [error ->]].
  rewrite withGame_same. eauto.
Qed.

Lemma executeNextMove_returns s now : exists s', executeNextMove s now = Returns s'.
Proof.
  destruct (executeNextMove_inv (fun _ => True) s now) as [s' [H _]]; eauto.
Qed.

Lemma executeNextMove_Returns (P : Solver -> Prop) s now s' :
  executeNextMove s now = Returns s' ->
  (exists s'', executeNextMove s now = Returns s'' /\ P s'') -> P s'.
Proof. intros H [s'' [H' Hp]]. congruence. Qed.

(** The three ways through [startAutoSolve] on a solver that is not
    running: the solver throws; nothing is left to solve; the first move is
    tried. *)
Lemma startAutoSolve_inv (P : Solver -> Prop) options s now :
  (isRunning (autoSolveState s) = true ->
   P (emit (ConsoleWarn "Auto-solve is already running") s)) ->
  (forall configured,
     isRunning (autoSolveState s) = false ->
     configured
     = {| isRunning := isRunning (autoSolveState s);
          isPaused := isPaused (autoSolveState s);
          currentStep := currentStep (autoSolveState s);
          solution := solution (autoSolveState s);
          speed := match speedOption options with
                   | Some v => if v =? 0 then 1000 else v
                   | None => 1000
                   end;
          intervalId := intervalId (autoSolveState s);
          onComplete := onCompleteOption options; onStep := onStepOption options;
          onPause := onPauseOption options; onResume := onResumeOption options |} ->
     (forall message,
        generateOptimalSolution (game s) = Throws message ->
        P (stopAutoSolve (emit (ConsoleError "Failed to start auto-solve:")
                            (withAuto configured s))))
     /\ (generateOptimalSolution (game s) = Returns [] ->
         P (stopAutoSolve
              (if onCompleteOption options
               then emit CallOnComplete
                      (withAuto (progress configured true false 0 []
                                   (intervalId configured)) (withAuto configured s))
               else withAuto (progress configured true false 0 []
                                (intervalId configured)) (withAuto configured s))))
     /\ (forall moves s',
           generateOptimalSolution (game s) = Returns moves -> moves <> [] ->
           executeNextMove
             (withAuto (progress configured true false 0 moves (intervalId configured))
                (withAuto configured s)) now = Returns s' ->
           P s')) ->
  exists s', startAutoSolve options s now = Returns s' /\ P s'.
Proof.
  intros Hrun Hstart. unfold startAutoSolve.
  destruct (isRunning (autoSolveState s)) eqn:Er; [eauto|].
  specialize (Hstart _ eq_refl eq_refl) as [Hthrow [Hnone Hsome]].
  destruct (generateOptimalSolution (game s)) as [moves|message|] eqn:Eg.
  - destruct moves as [|move moves]; cbn [length Nat.eqb]; [eauto|].
    match goal with
    | |- context [executeNextMove ?s1 now] =>
      destruct (executeNextMove_returns s1 now) as [s' E]
    end.
    rewrite E. exists s'. split; [reflexivity|].
    apply (Hsome (move :: moves)); [reflexivity | discriminate | exact E].
  - eauto.
  - unfold generateOptimalSolution, getCurrentDiskPositions in Eg.
    destruct (numDisks (settings (game s)) <? 0); [discriminate|].
    match type of Eg with
    | context [isGameComplete ?p] => destruct (isGameComplete p)
    end; [discriminate|].
    destruct (numDisks (settings (game s)) <? 1); discriminate.
Qed.

Lemma startAutoSolve_returns options s now :
  exists s', startAutoSolve options s now = Returns s'.
Proof.
  destruct (startAutoSolve_inv (fun _ => True) options s now) as [s' [H _]]; eauto.
Qed.

Lemma resumeAutoSolve_returns s now : exists s', resumeAutoSolve s now = Returns s'.
Proof.
  unfold resumeAutoSolve.
  destruct (negb (isRunning (autoSolveState s)) || negb (isPaused (autoSolveState s)));
    [eauto | apply executeNextMove_returns].
Qed.

(** ** The flags of auto-solve *)

Lemma steady_same s s' :
  autoSolveState s' = autoSolveState s -> steady s -> steady s'.
Proof. intros E [H1 H2 H3]. constructor; rewrite E; assumption. Qed.

Lemma steady_stopAutoSolve s : steady (stopAutoSolve s).
Proof.
  unfold stopAutoSolve.
  destruct (intervalId (autoSolveState s)); constructor; cbn;
    intuition (discriminate || lia).
Qed.

Lemma steady_scheduleNextMove s : steady s -> steady (scheduleNextMove s).
Proof. intros [H1 H2 H3]. constructor; cbn; assumption. Qed.

Lemma autoSolveState_moveExecuted move gs s :
  exists id,
    autoSolveState (moveExecuted move gs s)
    = progress (autoSolveState s) (isRunning (autoSolveState s))
        (isPaused (autoSolveState s)) (S (currentStep (autoSolveState s)))
        (solution (autoSolveState s)) id.
Proof.
  unfold moveExecuted.
  destruct (animationSystem s), (onStep (autoSolveState s)); cbn;
    eexists; reflexivity.
Qed.

Lemma steady_executeNextMove s now s' :
  steady s -> executeNextMove s now = Returns s' -> steady s'.
Proof.
  intros Hs H. apply (executeNextMove_Returns steady _ _ _ H).
  apply executeNextMove_inv; intros; try apply steady_stopAutoSolve; try assumption.
  destruct (autoSolveState_moveExecuted move gs' s) as [id E].
  constructor; rewrite E; cbn; try congruence.
  apply nth_error_Some. congruence.
Qed.

Lemma steady_startAutoSolve options s now s' :
  steady s -> startAutoSolve options s now = Returns s' -> steady s'.
Proof.
  intros Hs H.
  destruct (startAutoSolve_inv steady options s now) as [s'' [H' Hp]];
    [| | congruence].
  - intros _. now apply (steady_same s).
  - intros configured _ _. split; [|split]; intros; try apply steady_stopAutoSolve.
    eapply steady_executeNextMove; [|eassumption].
    constructor; cbn; try discriminate; try reflexivity. lia.
Qed.

Lemma steady_pauseAutoSolve s : steady s -> steady (pauseAutoSolve s).
Proof.
  intros Hs. unfold pauseAutoSolve.
  destruct (negb (isRunning (autoSolveState s)) || isPaused (autoSolveState s))
    eqn:Eidle; [exact Hs|].
  apply orb_false_iff in Eidle as [Er Ep]. apply negb_false_iff in Er.
  destruct Hs as [H1 H2 H3].
  destruct (intervalId (autoSolveState s)); destruct (onPause (autoSolveState s));
    constructor; cbn; auto.
Qed.

Lemma steady_resumeAutoSolve s now s' :
  steady s -> resumeAutoSolve s now = Returns s' -> steady s'.
Proof.
  intros Hs. unfold resumeAutoSolve.
  destruct (negb (isRunning (autoSolveState s)) || negb (isPaused (autoSolveState s)))
    eqn:Eidle.
  { intros H. inversion H; subst. exact Hs. }
  apply orb_false_iff in Eidle as [Er Ep]. apply negb_false_iff in Er.
  intros H. apply steady_executeNextMove in H; [exact H|].
  destruct Hs as [H1 H2 H3].
  destruct (onResume (autoSolveState s)); constructor; cbn; auto; congruence.
Qed.

Lemma steady_handle e s s' : steady s -> handle e s = Returns s' -> steady s'.
Proof.
  intros Hs. destruct e; cbn [handle].
  - apply steady_startAutoSolve, Hs.
  - intros H. inversion H. now apply steady_pauseAutoSolve.
  - apply steady_resumeAutoSolve, Hs.
  - intros H. inversion H. apply steady_stopAutoSolve.
  - intros H. inversion H. destruct Hs. constructor; cbn; assumption.
  - intros H. inversion H. unfold updateGameState. cbn [autoSolveState withGame].
    destruct (isRunning (autoSolveState s)); [apply steady_stopAutoSolve|].
    now apply (steady_same s).
  - apply steady_executeNextMove. now apply (steady_same s).
  - intros H. inversion H. unfold animationCompleted. cbn [autoSolveState].
    destruct (isRunning (autoSolveState s) && negb (isPaused (autoSolveState s))).
    + apply steady_scheduleNextMove. now apply (steady_same s).
    + now apply (steady_same s).
  - destruct (run c (game s)) as [[res gs']| |]; try discriminate.
    intros H. inversion H. now apply (steady_same s).
Qed.

Lemma steady_new gs animation engine : steady (newSolverEngine gs animation engine).
Proof. constructor; cbn; auto; discriminate. Qed.

Lemma handleAll_autoSolving gs animation engine events : forall s s',
  autoSolving gs animation engine s -> handleAll events s = Some s' ->
  autoSolving gs animation engine s'.
Proof.
  induction events as [|e events IH]; intros s s' Hs H; cbn [handleAll] in H.
  - inversion H; subst. exact Hs.
  - destruct (enabled e s) eqn:Ee; [|discriminate].
    destruct (handle e s) as [s1| |] eqn:Eh; try discriminate.
    apply (IH s1); [|exact H]. eapply autoSolving_event; eassumption.
Qed.

(** X14.  Whatever the page does with a solver (calls of its methods,
    timeouts firing, animations completing, moves played by hand), the
    flags of auto-solve agree: it is paused only while it is running; while
    it is not running it keeps no solution and its step is 0; and the step
    never exceeds the length of the solution. *)
Theorem autoSolve_flags_agree gs animation engine s :
  autoSolving gs animation engine s ->
  (isAutoSolvePaused s = true -> isAutoSolveRunning s = true)
  /\ (isAutoSolveRunning s = false ->
      solution (autoSolveState s) = [] /\ currentStep (autoSolveState s) = 0%nat)
  /\ (currentStep (autoSolveState s) <= length (solution (autoSolveState s)))%nat.
Proof.
  intros H. unfold isAutoSolvePaused, isAutoSolveRunning.
  assert (Hs : steady s).
  { induction H as [|s e s' _ IH _ H]; [apply steady_new|].
    eapply steady_handle; eassumption. }
  destruct Hs as [H1 H2 H3]. split; [exact H1|]. split; [exact H2 | exact H3].
Qed.

Lemma autoSolve_flags_agree_witness :
  exists s,
    handleAll [StartAutoSolve (mkOptions None true true true true) midnight;
               PauseAutoSolve]
      (newSolverEngine newGame3 false true) = Some s
    /\ isAutoSolvePaused s = true
    /\ (isAutoSolvePaused s = true -> isAutoSolveRunning s = true)
    /\ (isAutoSolveRunning s = false ->
        solution (autoSolveState s) = [] /\ currentStep (autoSolveState s) = 0%nat)
    /\ (currentStep (autoSolveState s) <= length (solution (autoSolveState s)))%nat.
Proof.
  eexists. split; [reflexivity|]. split; [reflexivity|].
  apply (autoSolve_flags_agree newGame3 false true).
  apply (handleAll_autoSolving newGame3 false true
           [StartAutoSolve (mkOptions None true true true true) midnight;
            PauseAutoSolve] (newSolverEngine newGame3 false true));
    [apply autoSolving_new | reflexivity].
Defined.

(** ** The game under auto-solve *)

Lemma game_stopAutoSolve s : game (stopAutoSolve s) = game s.
Proof. unfold stopAutoSolve. now destruct (intervalId (autoSolveState s)). Qed.

Lemma game_moveExecuted move gs s : game (moveExecuted move gs s) = gs.
Proof.
  unfold moveExecuted. now destruct (animationSystem s), (onStep (autoSolveState s)).
Qed.

Lemma game_pauseAutoSolve s : game (pauseAutoSolve s) = game s.
Proof.
  unfold pauseAutoSolve.
  destruct (negb (isRunning (autoSolveState s)) || isPaused (autoSolveState s));
    [reflexivity|].
  now destruct (intervalId (autoSolveState s)), (onPause (autoSolveState s)).
Qed.

(** A call of [executeNextMove] leaves the game as it is or makes one
    move of the solution on it, through [makeMove]. *)
Lemma executeNextMove_game s now s' :
  executeNextMove s now = Returns s' ->
  game s' = game s
  \/ exists move res,
       nth_error (solution (autoSolveState s)) (currentStep (autoSolveState s))
       = Some move
       /\ makeMove (game s) (JsInt (from move)) (JsInt (to move)) now
          = Returns (res, game s')
       /\ success res = true.
Proof.
  intros H.
  apply (executeNextMove_Returns
           (fun s' =>
              game s' = game s
              \/ exists move res,
                   nth_error (solution (autoSolveState s))
                     (currentStep (autoSolveState s)) = Some move
                   /\ makeMove (game s) (JsInt (from move)) (JsInt (to move)) now
                      = Returns (res, game s')
                   /\ success res = true) _ _ _ H).
  apply executeNextMove_inv; intros; rewrite ?game_stopAutoSolve; auto.
  - left. now destruct (onComplete (autoSolveState s)).
  - right. exists move, res. rewrite game_moveExecuted. auto.
Qed.

Lemma handle_game e s s' :
  handle e s = Returns s' ->
  match e with
  | Play c => exists res, run c (game s) = Returns (res, game s')
  | UpdateGameState gs => game s' = gs
  | _ =>
    game s' = game s
    \/ exists move res now,
         makeMove (game s) (JsInt (from move)) (JsInt (to move)) now
         = Returns (res, game s')
         /\ success res = true
  end.
Proof.
  destruct e; cbn [handle]; intros H.
  - destruct (startAutoSolve_inv
                (fun s' => game s' = game s
                           \/ exists move res now,
                                makeMove (game s) (JsInt (from move)) (JsInt (to move)) now
                                = Returns (res, game s')
                                /\ success res = true) options s now)
      as [s'' [H' Hp]];
      [| | assert (s'' = s') by congruence; subst s''; exact Hp].
    + intros _. now left.
    + intros configured _ _. split; [|split]; intros.
      * left. now rewrite game_stopAutoSolve.
      * left. rewrite game_stopAutoSolve. now destruct (onCompleteOption options).
      * apply executeNextMove_game in H2 as [E|[move [res [_ [E Hs]]]]]; eauto 6.
  - inversion H. left. apply game_pauseAutoSolve.
  - unfold resumeAutoSolve in H.
    destruct (negb (isRunning (autoSolveState s)) || negb (isPaused (autoSolveState s))).
    + inversion H. now left.
    + apply executeNextMove_game in H as [E|[move [res [_ [E Hs]]]]].
      * left. rewrite E. now destruct (onResume (autoSolveState s)).
      * right. exists move, res, now. split; [|exact Hs]. rewrite <- E.
        now destruct (onResume (autoSolveState s)).
  - inversion H. left. apply game_stopAutoSolve.
  - inversion H. now left.
  - inversion H. unfold updateGameState. cbn [autoSolveState withGame].
    destruct (isRunning (autoSolveState s)); [now rewrite game_stopAutoSolve|reflexivity].
  - apply executeNextMove_game in H as [E|[move [res [_ [E Hs]]]]]; eauto 6.
  - inversion H. left. unfold animationCompleted. cbn [autoSolveState].
    now destruct (isRunning (autoSolveState s) && negb (isPaused (autoSolveState s))).
  - destruct (run c (game s)) as [[res gs']| |]; try discriminate.
    inversion H. eauto.
Qed.

(** X15.  Auto-solve changes the game only through [makeMove]: on a page
    whose game is a reachable state, every event returns and leaves a
    reachable state, and an event of the solver itself leaves the game as it
    was or advanced by one successful [makeMove]. *)
Theorem autoSolve_plays_by_the_rules n e s :
  reachable n (game s) ->
  match e with UpdateGameState gs => reachable n gs | _ => True end ->
  exists s',
    handle e s = Returns s'
    /\ reachable n (game s')
    /\ match e with
       | Play _ | UpdateGameState _ => True
       | _ =>
         game s' = game s
         \/ exists move res now,
              makeMove (game s) (JsInt (from move)) (JsInt (to move)) now
              = Returns (res, game s')
              /\ success res = true
       end.
Proof.
  intros Hr He.
  assert (Hret : exists s', handle e s = Returns s').
  { destruct e; cbn [handle]; eauto using startAutoSolve_returns,
      resumeAutoSolve_returns, executeNextMove_returns.
    destruct (invariant_run_returns n c (game s) (reachable_invariant _ _ Hr))
      as [res [gs' ->]]. eauto. }
  destruct Hret as [s' H]. exists s'. split; [exact H|].
  pose proof (handle_game e s s' H) as Hg.
  assert (Hmove : game s' = game s
                  \/ (exists move res now,
                        makeMove (game s) (JsInt (from move)) (JsInt (to move)) now
                        = Returns (res, game s') /\ success res = true) ->
                  reachable n (game s')).
  { intros [->|[move [res [now [Hm _]]]]]; [exact Hr|].
    apply (reachable_step n (game s)); [exact Hr|].
    exists (MakeMove (JsInt (from move)) (JsInt (to move)) now), res. exact Hm. }
  destruct e; try (split; [now apply Hmove | exact Hg]).
  - split; [|exact I]. now rewrite Hg.
  - split; [|exact I]. destruct Hg as [res Hg].
    apply (reachable_step n (game s)); [exact Hr|]. now exists c, res.
Qed.

Lemma autoSolve_plays_by_the_rules_witness :
  exists s',
    handle (StartAutoSolve (mkOptions None false false false false) midnight)
      (newSolverEngine midGame3 true true) = Returns s'
    /\ reachable 3 (game s')
    /\ (game s' = midGame3
        \/ exists move res now,
             makeMove midGame3 (JsInt (from move)) (JsInt (to move)) now
             = Returns (res, game s')
             /\ success res = true).
Proof.
  apply (autoSolve_plays_by_the_rules 3
           (StartAutoSolve (mkOptions None false false false false) midnight)
           (newSolverEngine midGame3 true true)).
  - apply midGame3_reachable.
  - exact I.
Defined.

(** ** Timeouts *)















(** X17.  With an animation system the bound fails.  When auto-solve is
    paused and resumed while an animation is queued, [resumeAutoSolve]
    makes the next move at once and queues a second animation; when the two
    animations complete each of them sets a timeout, so two timeouts are
    pending that will both call [executeNextMove]. *)
Theorem pause_and_resume_doubles_timeouts s now move res gs' :
  animationSystem s = true -> gameEngine s = true ->
  isAutoSolveRunning s = true -> isAutoSolvePaused s = false ->
  (1 <= animations s)%nat ->
  nth_error (solution (autoSolveState s)) (currentStep (autoSolveState s)) = Some move ->
  makeMove (game s) (JsInt (from move)) (JsInt (to move)) now = Returns (res, gs') ->
  success res = true ->
  exists s',
    handleAll (pauseAndResume now) s = Some s'
    /\ timers s'
       = match intervalId (autoSolveState s) with
         | Some id => filter (fun t => negb (Pos.eqb t id)) (timers s)
         | None => timers s
         end ++ [nextTimer s; Pos.succ (nextTimer s)]
    /\ isAutoSolveRunning s' = true /\ isAutoSolvePaused s' = false
    /\ game s' = gs'
    /\ currentStep (autoSolveState s') = S (currentStep (autoSolveState s)).
Proof.
  destruct s as [g an [run pau k sol sp iid oc os op ore] en ti nt am ef].
  unfold isAutoSolveRunning, isAutoSolvePaused. cbn.
  intros -> -> -> -> Ham Hnth Hmove Hres.
  destruct am as [|am]; [lia|].
  assert (Hk : (length sol <=? k)%nat = false).
  { apply Nat.leb_gt, nth_error_Some. congruence. }
  (destruct iid as [id|], op, ore, os; solver_compute;
    rewrite Hk, Hnth, Hmove, Hres; solver_compute;
    rewrite <- app_assoc; eexists; repeat split; reflexivity).
Qed.

Lemma pause_and_resume_doubles_timeouts_witness :
  exists s,
    handleAll [StartAutoSolve (mkOptions None false false false false) midnight]
      (newSolverEngine newGame3 true true) = Some s
    /\ timers s = []
    /\ exists s',
         handleAll (pauseAndResume midnight) s = Some s'
         /\ timers s' = [1%positive; 2%positive]
         /\ isAutoSolveRunning s' = true /\ isAutoSolvePaused s' = false
         /\ rods (game s') = mkRods [3] [2] [1]
         /\ currentStep (autoSolveState s') = 2%nat.
Proof.
  eexists. split; [vm_compute; reflexivity|]. split; [reflexivity|].
  match goal with
  | |- exists s', handleAll _ ?s = _ /\ _ =>
    edestruct (pause_and_resume_doubles_timeouts s midnight (mkSolverMove 0 1 2))
      as [s' [H1 [H2 [H3 [H4 [H5 H6]]]]]]
  end; try reflexivity; try (cbn; lia).
  exists s'. repeat split; try assumption.
  rewrite H5. reflexivity.
Defined.

(** ** Starting *)

Lemma In_effects_stopAutoSolve e s : In e (effects s) -> In e (effects (stopAutoSolve s)).
Proof.
  unfold stopAutoSolve. destruct (intervalId (autoSolveState s)); cbn; [|auto].
  unfold push. rewrite in_app_iff. auto.
Qed.

Lemma isRunning_stopAutoSolve s : isRunning (autoSolveState (stopAutoSolve s)) = false.
Proof. unfold stopAutoSolve. now destruct (intervalId (autoSolveState s)). Qed.

Lemma speed_stopAutoSolve s :
  speed (autoSolveState (stopAutoSolve s)) = speed (autoSolveState s).
Proof. unfold stopAutoSolve. now destruct (intervalId (autoSolveState s)). Qed.

(** X18.  [startAutoSolve] on a solver that is not running, with the
    engine present and a game that passes [validateGameState]: it returns;
    it sets the speed to [options.speed], or 1000 when that is missing or
    0.  When the game is won there is no move, the game is left alone, the
    completion callback is called and auto-solve is not running
    afterwards.  Otherwise the first move of the solution goes to
    [makeMove] at once: if it is executed auto-solve is running at step 1,
    and the next call is left to the animation system when there is one and
    to a timeout otherwise; if it is refused the game is unchanged, the
    error is logged and auto-solve is not running. *)
Theorem startAutoSolve_tries_first_move options s now :
  isAutoSolveRunning s = false -> gameEngine s = true ->
  validateGameState (game s) = true ->
  exists s' moves,
    startAutoSolve options s now = Returns s'
    /\ generateOptimalSolution (game s) = Returns moves
    /\ speed (autoSolveState s')
       = match speedOption options with
         | Some v => if v =? 0 then 1000 else v
         | None => 1000
         end
    /\ match moves with
       | [] =>
         isGameWon (game s) = true /\ game s' = game s
         /\ isAutoSolveRunning s' = false
         /\ (onCompleteOption options = true -> In CallOnComplete (effects s'))
       | move :: _ =>
         isGameWon (game s) = false
         /\ ((exists res,
                makeMove (game s) (JsInt (from move)) (JsInt (to move)) now
                = Returns (res, game s')
                /\ success res = true
                /\ isAutoSolveRunning s' = true /\ isAutoSolvePaused s' = false
                /\ currentStep (autoSolveState s') = 1%nat
                /\ solution (autoSolveState s') = moves
                /\ if animationSystem s
                   then animations s' = S (animations s) /\ timers s' = timers s
                   else animations s' = animations s
                        /\ timers s' = push (timers s) (nextTimer s)
                        /\ intervalId (autoSolveState s') = Some (nextTimer s))
             \/ (exists error,
                   makeMove (game s) (JsInt (from move)) (JsInt (to move)) now
                   = Returns (Failure error, game s)
                   /\ game s' = game s /\ isAutoSolveRunning s' = false
                   /\ In (ConsoleError "Auto-solve move failed:") (effects s')))
       end.
Proof.
  unfold isAutoSolveRunning, isAutoSolvePaused. intros Hidle Hengine Hvalid.
  apply validateGameState_wellFormed in Hvalid.
  destruct (generateOptimalSolution_wellFormed _ Hvalid) as [moves [Hmoves Hwon]].
  rewrite <- (wellFormed_won_iff _ Hvalid) in Hwon.
  unfold startAutoSolve. rewrite Hidle, Hmoves.
  destruct moves as [|move moves]; cbn [length Nat.eqb].
  - eexists. exists []. split; [reflexivity|]. split; [reflexivity|].
    split; [rewrite speed_stopAutoSolve; now destruct (onCompleteOption options)|].
    split; [now apply Hwon|]. rewrite game_stopAutoSolve, isRunning_stopAutoSolve.
    split; [now destruct (onCompleteOption options)|]. split; [reflexivity|].
    intros ->. apply In_effects_stopAutoSolve. cbn. unfold push.
    apply in_app_iff. right. now left.
  - assert (Hnot : isGameWon (game s) = false).
    { destruct (isGameWon (game s)); [|reflexivity].
      destruct Hwon as [_ Hwon]. discriminate (Hwon eq_refl). }
    unfold executeNextMove. cbn -[makeMove stopAutoSolve moveExecuted].
    rewrite Hengine.
    destruct (makeMove_returns (game s) (JsInt (from move)) (JsInt (to move)) now)
      as [res [gs' Hm]].
    rewrite Hm. destruct (success res) eqn:Hres.
    + eexists. exists (move :: moves). split; [reflexivity|]. split; [reflexivity|].
      unfold moveExecuted. cbn -[makeMove].
      destruct (animationSystem s) eqn:Ha, (onStepOption options); cbn;
        (split; [reflexivity|]); (split; [exact Hnot|]); left; exists res;
        repeat split; assumption.
    + destruct (makeMove_refuses _ _ _ _ _ _ Hm Hres) as [-> [error ->]].
      eexists. exists (move :: moves). split; [reflexivity|]. split; [reflexivity|].
      rewrite speed_stopAutoSolve, game_stopAutoSolve, isRunning_stopAutoSolve.
      split; [reflexivity|]. split; [exact Hnot|]. right. exists error.
      split; [exact Hm|]. split; [reflexivity|]. split; [reflexivity|].
      apply In_effects_stopAutoSolve. cbn. unfold push.
      apply in_app_iff. right. now left.
Qed.

Lemma startAutoSolve_tries_first_move_witness :
  exists s' moves,
    startAutoSolve (mkOptions (Some 0) true false false false)
      (newSolverEngine midGame3 false true) midnight = Returns s'
    /\ generateOptimalSolution midGame3 = Returns moves
    /\ speed (autoSolveState s') = 1000
    /\ match moves with
       | [] =>
         isGameWon midGame3 = true /\ game s' = midGame3
         /\ isAutoSolveRunning s' = false
         /\ (true = true -> In CallOnComplete (effects s'))
       | move :: _ =>
         isGameWon midGame3 = false
         /\ ((exists res,
                makeMove midGame3 (JsInt (from move)) (JsInt (to move)) midnight
                = Returns (res, game s')
                /\ success res = true
                /\ isAutoSolveRunning s' = true /\ isAutoSolvePaused s' = false
                /\ currentStep (autoSolveState s') = 1%nat
                /\ solution (autoSolveState s') = moves
                /\ (animations s' = 0%nat
                    /\ timers s' = [1%positive]
                    /\ intervalId (autoSolveState s') = Some 1%positive))
             \/ (exists error,
                   makeMove midGame3 (JsInt (from move)) (JsInt (to move)) midnight
                   = Returns (Failure error, midGame3)
                   /\ game s' = midGame3 /\ isAutoSolveRunning s' = false
                   /\ In (ConsoleError "Auto-solve move failed:") (effects s')))
       end.
Proof.
  apply (startAutoSolve_tries_first_move (mkOptions (Some 0) true false false false)
           (newSolverEngine midGame3 false true) midnight); reflexivity.
Defined.

(** ** Playing a solution out *)

Lemma freshGameSolved_holds n now clock :
  3 <= n <= 8 -> freshGameSolved n now clock = true.
Proof.
  intros Hn.
  assert (H : n = 3 \/ n = 4 \/ n = 5 \/ n = 6 \/ n = 7 \/ n = 8) by lia.
  destruct H as [-> | [-> | [-> | [-> | [-> | ->]]]]]; vm_compute; reflexivity.
Qed.

Lemma skipn_cons {A} (l : list A) : forall k x rest,
  skipn k l = x :: rest ->
  nth_error l k = Some x /\ skipn (S k) l = rest /\ (k < length l)%nat.
Proof.
  induction l as [|a l IH]; intros [|k] x rest H; cbn in H; try discriminate.
  - inversion H; subst. cbn. repeat split. lia.
  - destruct (IH _ _ _ H) as [H1 [H2 H3]]. cbn [nth_error length]. repeat split.
    + exact H1.
    + exact H2.
    + lia.
Qed.

Lemma skipn_nil_length {A} (l : list A) k : skipn k l = [] -> (length l <= k)%nat.
Proof.
  intros H. pose proof (length_skipn k l) as E. rewrite H in E. cbn in E. lia.
Qed.

Lemma replay_cons g move rest clock k final :
  replay g (move :: rest) clock k = Finished final ->
  exists res gs',
    makeMove g (JsInt (from move)) (JsInt (to move)) (clock k) = Returns (res, gs')
    /\ success res = true
    /\ replay gs' rest clock (S k) = Finished final.
Proof.
  cbn [replay]. intros H.
  destruct (makeMove g (JsInt (from move)) (JsInt (to move)) (clock k))
    as [[res gs']| |]; try discriminate.
  exists res, gs'. destruct res; try discriminate; auto.
Qed.

(** A solver without an animation system that waits for its timeout,
    with a solution whose remaining moves the engine accepts: the timeouts
    play the moves out and the last one ends auto-solve. *)
Lemma leftAlone_timeouts clock : forall rest g k sol sp iid oc os op ore id nt ef final,
  skipn k sol = rest ->
  replay g rest clock k = Finished final ->
  exists s',
    leftAlone (S (length rest)) clock
      (mkSolver g false (mkAutoSolveState true false k sol sp iid oc os op ore)
         true [id] nt 0 ef) = Some s'
    /\ game s' = final /\ isRunning (autoSolveState s') = false
    /\ timers s' = [] /\ animations s' = 0%nat
    /\ (oc = true -> In CallOnComplete (effects s')).
Proof.
  induction rest as [|move rest IH]; intros g k sol sp iid oc os op ore id nt ef final
    Hrest Hreplay.
  - apply skipn_nil_length, Nat.leb_le in Hrest.
    cbn in Hreplay. inversion Hreplay; subst final.
    cbn -[Nat.leb stopAutoSolve]. rewrite Pos.eqb_refl. unfold executeNextMove.
    cbn -[Nat.leb stopAutoSolve]. rewrite Hrest.
    eexists. split; [reflexivity|].
    rewrite game_stopAutoSolve, isRunning_stopAutoSolve.
    split; [now destruct oc|]. split; [reflexivity|].
    split; [destruct oc, iid; reflexivity|].
    split; [destruct oc, iid; reflexivity|].
    intros ->. apply In_effects_stopAutoSolve. cbn. unfold push.
    apply in_app_iff. right. now left.
  - destruct (skipn_cons _ _ _ _ Hrest) as [Hnth [Hskip Hlt]].
    apply Nat.leb_gt in Hlt.
    destruct (replay_cons _ _ _ _ _ _ Hreplay) as [res [gs' [Hm [Hres Hrep]]]].
    cbn [length]. cbn -[Nat.leb nth_error makeMove leftAlone] in *.
    change (leftAlone (S (S (length rest))) clock ?s)
      with (match handle (TimerFires id (clock k)) s with
            | Returns s' => leftAlone (S (length rest)) clock s'
            | _ => None
            end).
    cbn -[Nat.leb nth_error makeMove leftAlone]. rewrite Pos.eqb_refl.
    unfold executeNextMove. cbn -[Nat.leb nth_error makeMove leftAlone].
    rewrite Hlt, Hnth, Hm, Hres. unfold moveExecuted.
    cbn -[Nat.leb nth_error makeMove leftAlone].
    destruct os; cbn -[Nat.leb nth_error makeMove leftAlone];
      (edestruct (IH gs' (S k) sol sp) as [s' [H1 H2]]; [exact Hskip | exact Hrep |]);
      exists s'; (split; [exact H1 | exact H2]).
Qed.

(** The same with an animation system, which takes a round of its own
    before each timeout. *)
Lemma leftAlone_animations clock : forall rest g k sol sp iid oc os op ore nt ef final,
  skipn k sol = rest ->
  replay g rest clock k = Finished final ->
  exists s',
    leftAlone (2 * S (length rest)) clock
      (mkSolver g true (mkAutoSolveState true false k sol sp iid oc os op ore)
         true [] nt 1 ef) = Some s'
    /\ game s' = final /\ isRunning (autoSolveState s') = false
    /\ timers s' = [] /\ animations s' = 0%nat
    /\ (oc = true -> In CallOnComplete (effects s')).
Proof.
  induction rest as [|move rest IH]; intros g k sol sp iid oc os op ore nt ef final
    Hrest Hreplay.
  - apply skipn_nil_length, Nat.leb_le in Hrest.
    cbn in Hreplay. inversion Hreplay; subst final.
    change (2 * S (length (@nil SolverMove)))%nat with 2%nat.
    cbv [leftAlone]. solver_compute. cbv [filter app]. rewrite Pos.eqb_refl.
    solver_compute. rewrite Hrest.
    destruct oc; solver_compute; cbv [filter app]; rewrite ?Pos.eqb_refl;
      solver_compute; eexists; (split; [reflexivity|]); cbn [game autoSolveState
        isRunning timers animations effects]; repeat split; try discriminate.
    intros _. rewrite !in_app_iff. cbn. auto.
  - destruct (skipn_cons _ _ _ _ Hrest) as [Hnth [Hskip Hlt]].
    apply Nat.leb_gt in Hlt.
    destruct (replay_cons _ _ _ _ _ _ Hreplay) as [res [gs' [Hm [Hres Hrep]]]].
    replace (2 * S (length (move :: rest)))%nat
      with (S (S (2 * S (length rest))))%nat by (cbn [length]; lia).
    remember (2 * S (length rest))%nat as rounds eqn:Hrounds.
    cbn [leftAlone animations timers]. solver_compute. cbv [app].
    cbn [leftAlone animations timers]. solver_compute. cbv [filter].
    rewrite Pos.eqb_refl. solver_compute. rewrite Hlt, Hnth, Hm, Hres.
    subst rounds.
    destruct os; solver_compute;
      (edestruct (IH gs' (S k) sol sp) as [s' [H1 H2]]; [exact Hskip | exact Hrep |]);
      exists s'; (split; [exact H1 | exact H2]).
Qed.

(** X19.  Auto-solve started on a new game of 3 to 8 disks and left alone
    solves it.  [startAutoSolve] returns with the first move made; after as
    many timeouts as the solution has moves (and, with an animation system,
    as many completed animations) the game is complete after [2^n - 1]
    moves, auto-solve is no longer running, nothing is pending or queued,
    and the completion callback has been called. *)
Theorem autoSolve_solves_new_game n now clock options animation :
  3 <= n <= 8 ->
  exists gs started final,
    createGameState (JsInt n) now = Returns gs
    /\ startAutoSolve options (newSolverEngine gs animation true) (clock 0%nat)
       = Returns started
    /\ isAutoSolveRunning started = true
    /\ moveCount (game started) = 1
    /\ leftAlone (if animation then 2 * Z.to_nat (2 ^ n - 1) else Z.to_nat (2 ^ n - 1))
         clock started = Some final
    /\ gameComplete (game final) = true
    /\ moveCount (game final) = 2 ^ n - 1
    /\ isAutoSolveRunning final = false
    /\ timers final = [] /\ animations final = 0%nat
    /\ (onCompleteOption options = true -> In CallOnComplete (effects final)).
Proof.
  intros Hn.
  destruct (freshGameSolved_spec n now clock (freshGameSolved_holds n now clock Hn))
    as [gs [moves [final [Hgs [Hmoves [Hlen [Hreplay [Hc [Hmc _]]]]]]]]].
  exists gs.
  destruct moves as [|move moves].
  { cbn in Hlen. assert (2 ^ 3 <= 2 ^ n) by (apply Z.pow_le_mono_r; lia). lia. }
  destruct (replay_cons _ _ _ _ _ _ Hreplay) as [res [gs' [Hm [Hres Hrep]]]].
  assert (Hcount : moveCount gs' = 1).
  { destruct (validateMove gs (JsInt (from move)) (JsInt (to move))) as [|e] eqn:Hv.
    - destruct (makeMove_Valid gs _ _ (clock 0%nat) Hv)
        as [f [t [d [r' [gs1 [_ [_ [_ [_ H1]]]]]]]]].
      cbv zeta in H1. destruct H1 as [H1 [_ [_ [H2 _]]]].
      rewrite H1 in Hm. inversion Hm; subst.
      apply createGameState_Returns in Hgs as [_ ->]. rewrite H2. reflexivity.
    - rewrite (makeMove_Invalid _ _ _ _ _ Hv) in Hm. inversion Hm; subst.
      discriminate. }
  assert (Hrounds : Z.to_nat (2 ^ n - 1) = S (length moves)).
  { cbn [length] in Hlen. lia. }
  rewrite Hrounds.
  unfold startAutoSolve, isAutoSolveRunning.
  cbv [newSolverEngine]. solver_compute. rewrite Hmoves.
  cbv [length Nat.eqb]. solver_compute.
  cbv [Nat.leb length nth_error]. rewrite Hm, Hres. solver_compute.
  destruct animation, (onStepOption options).
  1, 2: edestruct (leftAlone_animations clock moves gs' 1%nat (move :: moves))
      as [s' [H1 [H2 [H3 [H4 [H5 H6]]]]]]; [reflexivity | exact Hrep |].
  3, 4: edestruct (leftAlone_timeouts clock moves gs' 1%nat (move :: moves))
      as [s' [H1 [H2 [H3 [H4 [H5 H6]]]]]]; [reflexivity | exact Hrep |].
  all: eexists; exists s';
    (split; [exact Hgs|]); (split; [reflexivity|]); (split; [reflexivity|]);
    (split; [exact Hcount|]); (split; [exact H1|]); subst final; auto 10.
Qed.

Lemma autoSolve_solves_new_game_witness :
  exists gs started final,
    createGameState (JsInt 3) 0 = Returns gs
    /\ startAutoSolve (mkOptions None true true false false)
         (newSolverEngine gs true true) midnight = Returns started
    /\ isAutoSolveRunning started = true
    /\ moveCount (game started) = 1
    /\ leftAlone 14 (fun _ => midnight) started = Some final
    /\ gameComplete (game final) = true
    /\ moveCount (game final) = 2 ^ 3 - 1
    /\ isAutoSolveRunning final = false
    /\ timers final = [] /\ animations final = 0%nat
    /\ (true = true -> In CallOnComplete (effects final)).
Proof.
  apply (autoSolve_solves_new_game 3 0 (fun _ => midnight)
           (mkOptions None true true false false) true).
  lia.
Defined.

(** * The shortest game *)

(** ** Boards and legal moves *)

Lemma legal_nil_inv r r' : legal r [] r' -> r' = r.
Proof. intros H. now inversion H. Qed.

Lemma legal_cons_inv r m h r' :
  legal r (m :: h) r' ->
  exists r1,
    canPlace r (fromRod m) (toRod m) (diskId m)
    /\ transfer r (fromRod m) (toRod m) = Some (diskId m, r1)
    /\ legal r1 h r'.
Proof. intros H. inversion H; subst. eauto. Qed.

Lemma legal_app r h1 h2 r' :
  legal r (h1 ++ h2) r' <-> exists rm, legal r h1 rm /\ legal rm h2 r'.
Proof.
  revert r. induction h1 as [|m h1 IH]; intros r; cbn [app].
  - split.
    + intros H. exists r. split; [constructor | exact H].
    + intros [rm [H1 H2]]. apply legal_nil_inv in H1. now subst.
  - split.
    + intros H. apply legal_cons_inv in H as [r1 [Hc [Ht H]]].
      apply IH in H as [rm [H1 H2]]. exists rm. split; [|exact H2].
      econstructor; eassumption.
    + intros [rm [H1 H2]]. apply legal_cons_inv in H1 as [r1 [Hc [Ht H1]]].
      econstructor; try eassumption. apply IH. eauto.
Qed.

Lemma played_legal n r h :
  played n r h -> legal (mkRods (initialDisks n) [] []) h r.
Proof.
  induction 1 as [|r h m r' _ IH _ Hc Ht]; [constructor|].
  unfold push. apply legal_app. exists r. split; [exact IH|].
  econstructor; [exact Hc | exact Ht | constructor].
Qed.

Lemma board_move n r f t d r1 :
  board n r -> canPlace r f t d -> transfer r f t = Some (d, r1) -> board n r1.
Proof.
  intros [Hd Hp] Hc Ht. split.
  - eapply canPlace_transfer_descending; eassumption.
  - etransitivity; [eapply transfer_Permutation; eassumption | exact Hp].
Qed.

Lemma board_legal n r h r' : board n r -> legal r h r' -> board n r'.
Proof.
  intros Hb H. induction H as [|r m r1 h r2 Hc Ht _ IH]; [exact Hb|].
  apply IH. eapply board_move; eassumption.
Qed.

Lemma board_initial n : board n (mkRods (initialDisks n) [] []).
Proof. apply (played_rods n _ []). constructor. Qed.

(** On a board every disk from 1 to [n] is on a rod, and on one rod
    only. *)
Lemma board_somewhere n r d :
  board n r -> 1 <= d <= n -> exists i, In d (disksOf r i).
Proof.
  intros [_ Hp] Hd.
  assert (Hin : In d (allDisks r)).
  { eapply Permutation_in; [apply Permutation_sym, Hp|]. apply In_range. lia. }
  unfold allDisks in Hin. rewrite !in_app_iff in Hin.
  destruct Hin as [H|[H|H]]; [exists Rod0 | exists Rod1 | exists Rod2]; exact H.
Qed.

Lemma board_one_rod n r d i j :
  board n r -> In d (disksOf r i) -> In d (disksOf r j) -> i = j.
Proof.
  intros [_ Hp] Hi Hj.
  assert (Hnd : NoDup (allDisks r)).
  { eapply Permutation_NoDup; [apply Permutation_sym, Hp | apply NoDup_range]. }
  unfold allDisks in Hnd.
  pose proof (proj1 (NoDup_count_occ Z.eq_dec _) Hnd d) as Hc.
  rewrite !count_occ_app in Hc.
  assert (Hpos : forall k, In d (disksOf r k) ->
                           (1 <= count_occ Z.eq_dec (disksOf r k) d)%nat).
  { intros k Hk. now apply (count_occ_In Z.eq_dec) in Hk. }
  destruct i, j; try reflexivity;
    apply Hpos in Hi; apply Hpos in Hj; cbn [disksOf] in Hi, Hj; lia.
Qed.

(** What a legal move finds and leaves: the disk moved is the smallest of
    its rod and smaller than every disk of the target, it ends on the
    target, and every other disk stays where it is. *)
Lemma legal_move_facts n r f t d r1 :
  board n r -> canPlace r f t d -> transfer r f t = Some (d, r1) ->
  f <> t
  /\ In d (disksOf r f)
  /\ (forall x, In x (disksOf r f) -> d <= x)
  /\ (forall x, In x (disksOf r t) -> d < x)
  /\ In d (disksOf r1 t)
  /\ (forall x i, x <> d -> In x (disksOf r1 i) <-> In x (disksOf r i)).
Proof.
  intros [Hd Hp] [Hne [Htop Hu]] Ht.
  destruct (transfer_Some _ _ _ _ _ Hne Ht) as [Hsrc [Hdst Hoth]].
  split; [exact Hne|]. split; [now apply top_In|].
  split; [|split; [|split]].
  - intros x Hx. pose proof (descending_top_least _ _ (Hd f) Htop) as Hf.
    rewrite Forall_forall in Hf. specialize (Hf x Hx). lia.
  - intros x Hx. destruct (top (disksOf r t)) as [u|] eqn:Eu.
    + pose proof (descending_top_least _ _ (Hd t) Eu) as Hf.
      rewrite Forall_forall in Hf. specialize (Hf x Hx).
      specialize (Hu u eq_refl). lia.
    + apply top_None in Eu. rewrite Eu in Hx. destruct Hx.
  - rewrite Hdst. unfold push. apply in_app_iff. right. now left.
  - intros x i Hx.
    destruct (RodIndex_eqb i f) eqn:Ef; [apply RodIndex_eqb_eq in Ef as ->|].
    { rewrite Hsrc. unfold push. rewrite in_app_iff. cbn. intuition congruence. }
    apply RodIndex_eqb_neq in Ef.
    destruct (RodIndex_eqb i t) eqn:Et; [apply RodIndex_eqb_eq in Et as ->|].
    { rewrite Hdst. unfold push. rewrite in_app_iff. cbn. intuition congruence. }
    apply RodIndex_eqb_neq in Et. now rewrite Hoth.
Qed.

(** A disk that no move of [h] names stays where it is. *)
Lemma legal_unmoved n r h r' x :
  board n r -> legal r h r' -> Forall (fun m => diskId m <> x) h ->
  forall i, In x (disksOf r' i) <-> In x (disksOf r i).
Proof.
  intros Hb H. induction H as [|r m r1 h r2 Hc Ht _ IH]; intros Hall i.
  - reflexivity.
  - apply Forall_cons_iff in Hall as [Hm Hall].
    destruct (legal_move_facts n _ _ _ _ _ Hb Hc Ht) as [_ [_ [_ [_ [_ Hsame]]]]].
    rewrite IH; [|eapply board_move; eassumption | assumption].
    apply Hsame. congruence.
Qed.

(** ** Splitting a game at the moves of one disk *)

Lemma first_move_of (x : Z) (h : list Move) :
  Forall (fun m => diskId m <> x) h
  \/ exists h1 m h2, h = h1 ++ m :: h2 /\ diskId m = x
                     /\ Forall (fun m => diskId m <> x) h1.
Proof.
  induction h as [|m h IH]; [left; constructor|].
  destruct (Z.eq_dec (diskId m) x) as [E|E].
  - right. exists [], m, h. repeat split; [exact E | constructor].
  - destruct IH as [IH|[h1 [m' [h2 [-> [E' Hall]]]]]].
    + left. now constructor.
    + right. exists (m :: h1), m', h2. repeat split; [exact E' | now constructor].
Qed.

Lemma last_move_of (x : Z) (h : list Move) :
  Forall (fun m => diskId m <> x) h
  \/ exists h1 m h2, h = h1 ++ m :: h2 /\ diskId m = x
                     /\ Forall (fun m => diskId m <> x) h2.
Proof.
  induction h as [|m h IH]; [left; constructor|].
  destruct IH as [IH|[h1 [m' [h2 [-> [E' Hall]]]]]].
  - destruct (Z.eq_dec (diskId m) x) as [E|E].
    + right. exists [], m, h. repeat split; assumption.
    + left. now constructor.
  - right. exists (m :: h1), m', h2. repeat split; assumption.
Qed.

Lemma smallMoves_app k h1 h2 :
  smallMoves k (h1 ++ h2) = (smallMoves k h1 + smallMoves k h2)%nat.
Proof. unfold smallMoves. now rewrite filter_app, length_app. Qed.

Lemma smallMoves_cons k m h :
  diskId m <= k -> smallMoves k (m :: h) = S (smallMoves k h).
Proof.
  intros H. unfold smallMoves. cbn [filter].
  destruct (Z.leb_spec (diskId m) k); [reflexivity | lia].
Qed.

Lemma smallMoves_without k h :
  Forall (fun m => diskId m <> k) h -> smallMoves k h = smallMoves (k - 1) h.
Proof.
  unfold smallMoves. induction 1 as [|m h Hm _ IH]; [reflexivity|]. cbn [filter].
  destruct (Z.leb_spec (diskId m) k), (Z.leb_spec (diskId m) (k - 1));
    cbn [length]; lia.
Qed.

Lemma smallMoves_length k h : (smallMoves k h <= length h)%nat.
Proof. apply filter_length_le. Qed.

Lemma third_rod (a c : RodIndex) :
  a <> c -> exists e, e <> a /\ e <> c /\ forall i, i = a \/ i = c \/ i = e.
Proof.
  intros H. destruct a, c; try congruence;
    [exists Rod2 | exists Rod1 | exists Rod2 | exists Rod0 | exists Rod1 | exists Rod0];
    (split; [discriminate|]); (split; [discriminate|]); intros []; auto.
Qed.

(** When disk [x] is moved, the smaller disks are all on the third rod. *)
Lemma smaller_disks_aside n r f t x r1 :
  board n r -> canPlace r f t x -> transfer r f t = Some (x, r1) ->
  1 <= x <= n ->
  exists e, e <> f /\ e <> t /\ tower (x - 1) r e /\ tower (x - 1) r1 e.
Proof.
  intros Hb Hc Ht Hx.
  destruct (legal_move_facts n _ _ _ _ _ Hb Hc Ht)
    as [Hne [_ [Hsrc [Hdst [_ Hsame]]]]].
  destruct (third_rod f t Hne) as [e [Hef [Het Hall]]].
  exists e. split; [exact Hef|]. split; [exact Het|].
  assert (Hr : tower (x - 1) r e).
  { intros d Hd. destruct (board_somewhere n r d Hb) as [i Hi]; [lia|].
    destruct (Hall i) as [-> | [-> | ->]]; [| |exact Hi].
    - specialize (Hsrc d Hi). lia.
    - specialize (Hdst d Hi). lia. }
  split; [exact Hr|]. intros d Hd. apply Hsame; [lia | now apply Hr].
Qed.

(** ** The lower bound *)

(** Taking the disks 1 to [k] from one rod to another takes at least
    [2^k - 1] moves of these disks, whatever the other disks do: before
    the first move of disk [k] the smaller disks have all gone to a third
    rod, and after its last move they all have to come back. *)
Lemma tower_moves n : forall (k : nat) r h r' a b,
  board n r -> legal r h r' -> Z.of_nat k <= n -> a <> b ->
  tower (Z.of_nat k) r a -> tower (Z.of_nat k) r' b ->
  2 ^ Z.of_nat k - 1 <= Z.of_nat (smallMoves (Z.of_nat k) h).
Proof.
  induction k as [|k IH]; intros r h r' a b Hb Hl Hk Hab Ha Hb'.
  - cbn. lia.
  - set (x := Z.of_nat (S k)) in *. assert (Hx : 1 <= x <= n) by lia.
    assert (Hxa : In x (disksOf r a)) by (apply Ha; lia).
    assert (Hxb : In x (disksOf r' b)) by (apply Hb'; lia).
    assert (Hb2 : board n r') by exact (board_legal n r h r' Hb Hl).
    destruct (first_move_of x h) as [Hnone|[h1 [m [h2 [-> [Hm Hh1]]]]]].
    { exfalso. apply Hab. apply (board_one_rod n r x a b Hb Hxa).
      now apply (legal_unmoved n r h r' x Hb Hl Hnone). }
    apply legal_app in Hl as [rm [Hl1 Hl2]].
    assert (Hbm : board n rm) by exact (board_legal n r h1 rm Hb Hl1).
    pose proof Hl2 as Hl2'. apply legal_cons_inv in Hl2' as [r1 [Hc [Ht _]]].
    rewrite Hm in Hc, Ht.
    destruct (smaller_disks_aside n _ _ _ _ _ Hbm Hc Ht Hx) as [e [Hef [_ [He _]]]].
    assert (Hf : fromRod m = a).
    { destruct (legal_move_facts n _ _ _ _ _ Hbm Hc Ht) as [_ [Hin _]].
      apply (board_one_rod n rm x _ _ Hbm Hin).
      now apply (legal_unmoved n r h1 rm x Hb Hl1 Hh1). }
    replace (x - 1) with (Z.of_nat k) in He by lia.
    assert (H1 : 2 ^ Z.of_nat k - 1 <= Z.of_nat (smallMoves (Z.of_nat k) h1)).
    { apply (IH r h1 rm a e); try assumption; try lia.
      - congruence.
      - intros d Hd. apply Ha. lia. }
    destruct (last_move_of x (m :: h2)) as [Hnone|[h3 [m' [h4 [E [Hm' Hh4]]]]]].
    { apply Forall_cons_iff in Hnone as [Hnone _]. congruence. }
    rewrite E in Hl2. apply legal_app in Hl2 as [rx [Hl3 Hl4]].
    assert (Hbx : board n rx) by exact (board_legal n rm h3 rx Hbm Hl3).
    apply legal_cons_inv in Hl4 as [ry [Hc' [Ht' Hl4]]].
    rewrite Hm' in Hc', Ht'.
    assert (Hby : board n ry) by exact (board_move n rx _ _ _ ry Hbx Hc' Ht').
    destruct (smaller_disks_aside n _ _ _ _ _ Hbx Hc' Ht' Hx)
      as [e' [_ [He't [_ He']]]].
    assert (Ht'b : toRod m' = b).
    { destruct (legal_move_facts n _ _ _ _ _ Hbx Hc' Ht') as [_ [_ [_ [_ [Hin _]]]]].
      apply (board_one_rod n r' x _ _ Hb2); [|exact Hxb].
      now apply (legal_unmoved n ry h4 r' x Hby Hl4 Hh4). }
    replace (x - 1) with (Z.of_nat k) in He' by lia.
    assert (H2 : 2 ^ Z.of_nat k - 1 <= Z.of_nat (smallMoves (Z.of_nat k) h4)).
    { apply (IH ry h4 r' e' b); try assumption; try lia.
      - congruence.
      - intros d Hd. apply Hb'. lia. }
    rewrite smallMoves_app, E, smallMoves_app, (smallMoves_cons x m') by lia.
    rewrite (smallMoves_without x h1 Hh1), (smallMoves_without x h4 Hh4).
    replace (x - 1) with (Z.of_nat k) by lia.
    replace (2 ^ x) with (2 * 2 ^ Z.of_nat k).
    2: { unfold x. rewrite Nat2Z.inj_succ, Z.pow_succ_r by lia. reflexivity. }
    lia.
Qed.

Lemma played_won_length n r h :
  0 <= n -> played n r h -> rod2 r = initialDisks n ->
  2 ^ n - 1 <= Z.of_nat (length h).
Proof.
  intros Hn Hp Hw.
  pose proof (tower_moves n (Z.to_nat n) _ h r Rod0 Rod2 (board_initial n)
                (played_legal _ _ _ Hp)) as H.
  rewrite Z2Nat.id in H by lia.
  pose proof (smallMoves_length n h).
  assert (2 ^ n - 1 <= Z.of_nat (smallMoves n h)); [|lia].
  apply H; try lia; try discriminate.
  - intros d Hd. cbn. apply In_countdown. lia.
  - intros d Hd. cbn. rewrite Hw. apply In_countdown. lia.
Qed.

Lemma run_optimalMoves c gs res gs' :
  run c gs = Returns (res, gs') ->
  optimalMoves (metadata gs') = optimalMoves (metadata gs).
Proof.
  assert (Hmake : forall fr to now res gs',
             makeMove gs fr to now = Returns (res, gs') ->
             optimalMoves (metadata gs') = optimalMoves (metadata gs)).
  { clear. intros fr to now res gs'. unfold makeMove.
    destruct (validateMove gs fr to); [|intros H; now inversion H].
    destruct (createMove _ _ _ _ _); try discriminate.
    destruct (rodDisks_transfer _ _ _) as [[d r']| |]; try discriminate.
    cbv zeta.
    match goal with
    | |- context [if ?b then _ else _] => destruct b
    end; intros H; inversion H; reflexivity. }
  destruct c as [fr to now| |i| |to now]; cbn [run].
  - apply Hmake.
  - unfold undoLastMove.
    destruct (Z.of_nat (length (moveHistory gs)) =? 0); [intros H; now inversion H|].
    destruct (gameComplete gs); [intros H; now inversion H|].
    destruct (pop (moveHistory gs)) as [[m|] h']; try discriminate.
    destruct (transfer _ _ _) as [[d r']|]; try discriminate.
    intros H; inversion H; reflexivity.
  - unfold selectDisk. destruct (toRodIndex i); [|intros H; now inversion H].
    destruct (top _); intros H; inversion H; reflexivity.
  - unfold clearSelection. intros H; inversion H; reflexivity.
  - unfold moveSelectedDisk.
    destruct (selectedDisk gs), (selectedRod gs);
      try (intros H; now inversion H); apply Hmake.
Qed.

Lemma reachable_optimalMoves n gs :
  reachable n gs -> optimalMoves (metadata gs) = 2 ^ n - 1.
Proof.
  induction 1 as [now gs H | gs gs' _ IH [c [res Hs]]].
  - apply createGameState_Returns in H as [_ ->]. reflexivity.
  - now rewrite (run_optimalMoves _ _ _ _ Hs).
Qed.

Lemma solvedGame3_reachable : reachable 3 solvedGame3.
Proof.
  apply (replay_reachable 3 (fun _ => midnight)
           [mkSolverMove 0 2 1; mkSolverMove 0 1 2; mkSolverMove 2 1 1;
            mkSolverMove 0 2 3; mkSolverMove 1 0 1; mkSolverMove 1 2 2;
            mkSolverMove 0 2 1] newGame3 0%nat);
    [apply newGame3_reachable | reflexivity].
Qed.

(** X20.  No game is won in fewer moves than [optimalMoves]: in every
    reachable state of a game of [n] disks [optimalMoves] is [2^n - 1],
    and when the state is complete its [moveCount], which is the length
    of its history, is at least that, undone moves not counted. *)
Theorem complete_game_took_optimalMoves n gs :
  reachable n gs ->
  optimalMoves (metadata gs) = 2 ^ n - 1
  /\ (gameComplete gs = true ->
      optimalMoves (metadata gs) <= moveCount gs
      /\ moveCount gs = Z.of_nat (length (moveHistory gs))).
Proof.
  intros Hr. pose proof (reachable_optimalMoves _ _ Hr) as Ho.
  split; [exact Ho|]. intros Hc.
  pose proof (reachable_invariant _ _ Hr) as Hi.
  pose proof (inv_range _ _ Hi) as Hn.
  rewrite Ho, (inv_moveCount _ _ Hi). split; [|reflexivity].
  apply (played_won_length n (rods gs)); [lia | apply Hi |].
  rewrite (inv_complete _ _ Hi) in Hc.
  rewrite <- (inv_numDisks _ _ Hi) in *.
  apply isGameWon_spec in Hc; [exact Hc | lia].
Qed.

Lemma complete_game_took_optimalMoves_witness :
  gameComplete solvedGame3 = true
  /\ optimalMoves (metadata solvedGame3) = 2 ^ 3 - 1
  /\ (gameComplete solvedGame3 = true ->
      optimalMoves (metadata solvedGame3) <= moveCount solvedGame3
      /\ moveCount solvedGame3 = Z.of_nat (length (moveHistory solvedGame3))).
Proof.
  split; [reflexivity|].
  apply (complete_game_took_optimalMoves 3 solvedGame3), solvedGame3_reachable.
Defined.

(** * Statistics *)

(** A complete game has its end time and its total time on record. *)
Lemma run_end_time c gs res gs' :
  run c gs = Returns (res, gs') ->
  (gameComplete gs = true ->
   exists e, gameEndTime (metadata gs) = Some e
             /\ totalGameTime (metadata gs) = Some (e - gameStartTime (metadata gs))) ->
  gameComplete gs' = true ->
  exists e, gameEndTime (metadata gs') = Some e
            /\ totalGameTime (metadata gs') = Some (e - gameStartTime (metadata gs')).
Proof.
  assert (Hmake : forall fr to now res gs',
             makeMove gs fr to now = Returns (res, gs') ->
             (gameComplete gs = true ->
              exists e, gameEndTime (metadata gs) = Some e
                        /\ totalGameTime (metadata gs)
                           = Some (e - gameStartTime (metadata gs))) ->
             gameComplete gs' = true ->
             exists e, gameEndTime (metadata gs') = Some e
                       /\ totalGameTime (metadata gs')
                          = Some (e - gameStartTime (metadata gs'))).
  { clear. intros fr to now res gs'. unfold makeMove.
    destruct (validateMove gs fr to) eqn:Hv; [|intros H; inversion H; subst; auto].
    apply validateMove_Valid in Hv as [_ [Hopen _]].
    destruct (createMove _ _ _ _ _); try discriminate.
    destruct (rodDisks_transfer _ _ _) as [[d r']| |]; try discriminate.
    cbv zeta.
    match goal with
    | |- context [if ?b then _ else _] => destruct b
    end; intros H; inversion H; subst; cbn; intros _ Hc.
    - eauto.
    - congruence. }
  destruct c as [fr to now| |i| |to now]; cbn [run].
  - apply Hmake.
  - unfold undoLastMove.
    destruct (Z.of_nat (length (moveHistory gs)) =? 0);
      [intros H; inversion H; subst; auto|].
    destruct (gameComplete gs) eqn:Ec; [intros H; inversion H; subst; auto|].
    destruct (pop (moveHistory gs)) as [[m|] h']; try discriminate.
    destruct (transfer _ _ _) as [[d r']|]; try discriminate.
    intros H; inversion H; subst; cbn. congruence.
  - unfold selectDisk. destruct (toRodIndex i); [|intros H; inversion H; subst; auto].
    destruct (top _); intros H; inversion H; subst; auto.
  - unfold clearSelection. intros H; inversion H; subst; auto.
  - unfold moveSelectedDisk.
    destruct (selectedDisk gs), (selectedRod gs);
      try (intros H; inversion H; subst; now auto); apply Hmake.
Qed.

Lemma reachable_end_time n gs :
  reachable n gs -> gameComplete gs = true ->
  exists e, gameEndTime (metadata gs) = Some e
            /\ totalGameTime (metadata gs) = Some (e - gameStartTime (metadata gs)).
Proof.
  induction 1 as [now gs H | gs gs' _ IH [c [res Hs]]].
  - apply createGameState_Returns in H as [_ ->]. discriminate.
  - eapply run_end_time; eassumption.
Qed.

(** X24.  [getGameStats] on a reachable state of a game of [n] disks,
    whatever the rounding of the efficiency: [optimalMoves] is [2^n - 1].
    On a complete game no moves remain, [isOptimalSolution] tells whether
    the game took exactly [2^n - 1] moves, and the game time is the total
    time recorded by the winning move.  On a game that is not complete
    [isOptimalSolution] is false and the game time runs from the start to
    the clock.  Before the first move the efficiency is 100.  The game
    time is formatted unless it is exactly 0. *)
Theorem getGameStats_of_reachable roundedPercent n gs now :
  reachable n gs ->
  let stats := getGameStats roundedPercent gs now in
  Stats.optimalMoves stats = 2 ^ n - 1
  /\ Stats.moveCount stats = Z.of_nat (length (moveHistory gs))
  /\ (gameComplete gs = true ->
      Stats.movesRemaining stats = 0
      /\ (Stats.isOptimalSolution stats = true <-> moveCount gs = 2 ^ n - 1)
      /\ Stats.gameTime stats = totalGameTime (metadata gs))
  /\ (gameComplete gs = false ->
      Stats.isOptimalSolution stats = false
      /\ Stats.gameTime stats = Some (now - gameStartTime (metadata gs)))
  /\ (moveCount gs = 0 ->
      Stats.efficiency stats = 100 /\ Stats.movesRemaining stats = 2 ^ n - 1)
  /\ (Stats.gameTimeFormatted stats = None <-> Stats.gameTime stats = Some 0).
Proof.
  intros Hr. cbv zeta.
  pose proof (reachable_optimalMoves _ _ Hr) as Ho.
  pose proof (reachable_invariant _ _ Hr) as Hi.
  pose proof (inv_range _ _ Hi) as Hn.
  unfold getGameStats. cbn [Stats.optimalMoves Stats.moveCount Stats.movesRemaining
    Stats.isOptimalSolution Stats.gameTime Stats.efficiency Stats.gameTimeFormatted].
  rewrite Ho. split; [reflexivity|]. split; [apply Hi|].
  split; [|split; [|split]].
  - intros Hc. destruct (reachable_end_time _ _ Hr Hc) as [e [He Ht]].
    rewrite Hc, He, Ht. cbn [andb].
    assert (Hlow : 2 ^ n - 1 <= moveCount gs).
    { rewrite (inv_moveCount _ _ Hi).
      apply (played_won_length n (rods gs)); [lia | apply Hi |].
      rewrite (inv_complete _ _ Hi) in Hc.
      rewrite <- (inv_numDisks _ _ Hi) in *.
      apply isGameWon_spec in Hc; [exact Hc | lia]. }
    split; [lia|]. split; [apply Z.eqb_eq | reflexivity].
  - intros Hc. rewrite Hc. split; reflexivity.
  - intros H0. rewrite H0. cbn.
    assert (2 ^ 3 <= 2 ^ n) by (apply Z.pow_le_mono_r; lia). lia.
  - destruct (gameComplete gs), (gameEndTime (metadata gs)) as [e|];
      match goal with
      | |- context [Some ?t = Some 0] =>
        destruct (Z.eqb_spec t 0) as [E|E];
          [rewrite E; split; reflexivity
          | split; [discriminate | intros H; inversion H; contradiction]]
      end.
Qed.

Lemma getGameStats_of_reachable_witness :
  Stats.optimalMoves (getGameStats (fun _ _ => 100) solvedGame3 5) = 2 ^ 3 - 1
  /\ Stats.moveCount (getGameStats (fun _ _ => 100) solvedGame3 5)
     = Z.of_nat (length (moveHistory solvedGame3))
  /\ (gameComplete solvedGame3 = true ->
      Stats.movesRemaining (getGameStats (fun _ _ => 100) solvedGame3 5) = 0
      /\ (Stats.isOptimalSolution (getGameStats (fun _ _ => 100) solvedGame3 5) = true
          <-> moveCount solvedGame3 = 2 ^ 3 - 1)
      /\ Stats.gameTime (getGameStats (fun _ _ => 100) solvedGame3 5)
         = totalGameTime (metadata solvedGame3))
  /\ (gameComplete solvedGame3 = false ->
      Stats.isOptimalSolution (getGameStats (fun _ _ => 100) solvedGame3 5) = false
      /\ Stats.gameTime (getGameStats (fun _ _ => 100) solvedGame3 5)
         = Some (5 - gameStartTime (metadata solvedGame3)))
  /\ (moveCount solvedGame3 = 0 ->
      Stats.efficiency (getGameStats (fun _ _ => 100) solvedGame3 5) = 100
      /\ Stats.movesRemaining (getGameStats (fun _ _ => 100) solvedGame3 5) = 2 ^ 3 - 1)
  /\ (Stats.gameTimeFormatted (getGameStats (fun _ _ => 100) solvedGame3 5) = None
      <-> Stats.gameTime (getGameStats (fun _ _ => 100) solvedGame3 5) = Some 0).
Proof.
  apply (getGameStats_of_reachable (fun _ _ => 100) 3 solvedGame3 5),
    solvedGame3_reachable.
Defined.

(** * Disks *)

Lemma getDiskColor_nth diskSize totalDisks :
  1 <= diskSize ->
  getDiskColor diskSize totalDisks
  = nth_error colors (Z.to_nat (Z.min (diskSize - 1) 7)).
Proof.
  intros H. unfold getDiskColor. cbn [colors length]. 
  change (Z.of_nat 8 - 1) with 7.
  destruct (Z.ltb_spec (Z.min (diskSize - 1) 7) 0); [lia | reflexivity].
Qed.

(** X21.  [getDiskColor] does not read [totalDisks].  It has no colour
    for a size below 1; the sizes 1 to 8 get the eight colours of the
    palette in the order of the array, different sizes different colours,
    so that the smallest disk gets the first colour, [#e53e3e]; and every
    size from 8 on gets the last one, [#2d3748]. *)
Theorem getDiskColor_by_size diskSize totalDisks :
  getDiskColor diskSize totalDisks = getDiskColor diskSize 0
  /\ (diskSize < 1 <-> getDiskColor diskSize totalDisks = None)
  /\ (1 <= diskSize <= 8 ->
      getDiskColor diskSize totalDisks = nth_error colors (Z.to_nat (diskSize - 1)))
  /\ (8 <= diskSize -> getDiskColor diskSize totalDisks = Some "#2d3748"%string)
  /\ getDiskColor 1 totalDisks = Some "#e53e3e"%string
  /\ (forall other,
        1 <= diskSize <= 8 -> 1 <= other <= 8 ->
        getDiskColor diskSize totalDisks = getDiskColor other totalDisks ->
        diskSize = other).
Proof.
  split; [reflexivity|]. split; [|split; [|split; [|split]]].
  - split.
    + intros H. unfold getDiskColor. cbn [colors length].
      destruct (Z.ltb_spec (Z.min (diskSize - 1) (Z.of_nat 8 - 1)) 0); [reflexivity | lia].
    + intros H. destruct (Z.lt_ge_cases diskSize 1) as [Hlt|Hge]; [exact Hlt|].
      rewrite getDiskColor_nth in H by lia. apply nth_error_None in H.
      cbn [colors length] in H. lia.
  - intros H. rewrite getDiskColor_nth by lia. f_equal. lia.
  - intros H. rewrite getDiskColor_nth by lia.
    replace (Z.min (diskSize - 1) 7) with 7 by lia. reflexivity.
  - reflexivity.
  - intros other H1 H2.
    assert (Hd : diskSize = 1 \/ diskSize = 2 \/ diskSize = 3 \/ diskSize = 4
                 \/ diskSize = 5 \/ diskSize = 6 \/ diskSize = 7 \/ diskSize = 8) by lia.
    assert (Ho : other = 1 \/ other = 2 \/ other = 3 \/ other = 4
                 \/ other = 5 \/ other = 6 \/ other = 7 \/ other = 8) by lia.
    destruct Hd as [-> | [-> | [-> | [-> | [-> | [-> | [-> | ->]]]]]]];
      destruct Ho as [-> | [-> | [-> | [-> | [-> | [-> | [-> | ->]]]]]]];
      intros E; try reflexivity; discriminate E.
Qed.

Lemma getDiskColor_by_size_witness : getDiskColor 3 8 = Some "#ecc94b"%string.
Proof.
  apply (proj1 (proj2 (proj2 (getDiskColor_by_size 3 8)))). lia.
Defined.

Lemma nth_error_listed {A} (P : nat -> A -> Prop) (l : list A) :
  (fix all (i : nat) (l : list A) : Prop :=
     match l with
     | [] => True
     | x :: rest => P i x /\ all (S i) rest
     end) 0%nat l ->
  forall i x, nth_error l i = Some x -> P i x.
Proof.
  assert (H : forall l k,
             (fix all (i : nat) (l : list A) : Prop :=
                match l with
                | [] => True
                | x :: rest => P i x /\ all (S i) rest
                end) k l ->
             forall i x, nth_error l i = Some x -> P (k + i)%nat x).
  { clear l. induction l as [|a l IH]; intros k Hall i x Hi.
    - destruct i; discriminate.
    - destruct Hall as [Ha Hall]. destruct i as [|i]; cbn in Hi.
      + inversion Hi; subst. now rewrite Nat.add_0_r.
      + rewrite <- Nat.add_succ_comm. now apply IH. }
  intros Hall i x Hi. apply (H l 0%nat Hall i x Hi).
Qed.

(** X22.  [createDisks(n)] returns for the integers [n] from 1 to 8 and
    throws for every other argument.  It returns [n] disks, the one at
    index [i] with id and size [i + 1], on rod 0, at position (0, 0),
    neither selected nor animating and coloured by [getDiskColor]; every
    one of them passes [validateDisk], and no two have the same colour. *)
Theorem createDisks_returns_valid_disks numDisks :
  (forall n, numDisks = JsInt n -> 1 <= n <= 8 ->
     exists disks,
       createDisks numDisks = Returns disks
       /\ Z.of_nat (length disks) = n
       /\ (forall i disk,
             nth_error disks i = Some disk ->
             Disk.id disk = Z.of_nat i + 1 /\ Disk.size disk = Z.of_nat i + 1
             /\ Disk.rod disk = 0 /\ Disk.position disk = (0, 0)
             /\ Disk.isSelected disk = false /\ Disk.isAnimating disk = false
             /\ getDiskColor (Z.of_nat i + 1) n = Some (Disk.color disk)
             /\ validateDisk disk = true)
       /\ NoDup (map Disk.color disks))
  /\ ((forall n, numDisks = JsInt n -> ~ 1 <= n <= 8) ->
      exists message, createDisks numDisks = Throws message).
Proof.
  split.
  - intros n -> Hn.
    assert (H : n = 1 \/ n = 2 \/ n = 3 \/ n = 4 \/ n = 5 \/ n = 6 \/ n = 7 \/ n = 8)
      by lia.
    destruct H as [-> | [-> | [-> | [-> | [-> | [-> | [-> | ->]]]]]]];
      (eexists; split; [vm_compute; reflexivity|]); (split; [reflexivity|]);
      (split;
       [apply (nth_error_listed
                 (fun i disk =>
                    Disk.id disk = Z.of_nat i + 1 /\ Disk.size disk = Z.of_nat i + 1
                    /\ Disk.rod disk = 0 /\ Disk.position disk = (0, 0)
                    /\ Disk.isSelected disk = false /\ Disk.isAnimating disk = false
                    /\ getDiskColor (Z.of_nat i + 1) _ = Some (Disk.color disk)
                    /\ validateDisk disk = true));
        vm_compute; intuition congruence
       | cbn [map Disk.color];
         repeat (constructor; [cbn [In]; intuition discriminate|]); constructor]).
  - intros H. unfold createDisks.
    destruct numDisks as [n| |]; try (eexists; reflexivity).
    destruct ((n <? 1) || (n >? 8)) eqn:E; [eexists; reflexivity|].
    exfalso. apply (H n eq_refl). lia.
Qed.

Lemma createDisks_returns_valid_disks_witness :
  exists disks,
    createDisks (JsInt 3) = Returns disks
    /\ Z.of_nat (length disks) = 3
    /\ (forall i disk,
          nth_error disks i = Some disk ->
          Disk.id disk = Z.of_nat i + 1 /\ Disk.size disk = Z.of_nat i + 1
          /\ Disk.rod disk = 0 /\ Disk.position disk = (0, 0)
          /\ Disk.isSelected disk = false /\ Disk.isAnimating disk = false
          /\ getDiskColor (Z.of_nat i + 1) 3 = Some (Disk.color disk)
          /\ validateDisk disk = true)
    /\ NoDup (map Disk.color disks).
Proof.
  apply (proj1 (createDisks_returns_valid_disks (JsInt 3)) 3); [reflexivity | lia].
Defined.

(** X23.  [createDisk] and [validateDisk] agree.  A disk that
    [createDisk] returns passes [validateDisk] and is neither selected nor
    animating; and on the properties of a disk that passes [validateDisk],
    [createDisk] returns that disk with both flags cleared.  A rod left
    out is rod 0 and a position left out is (0, 0). *)
Theorem createDisk_agrees_with_validateDisk :
  (forall id size color position rod disk,
     createDisk id size color position rod = Returns disk ->
     validateDisk disk = true
     /\ Disk.isSelected disk = false /\ Disk.isAnimating disk = false
     /\ id = JsInt (Disk.id disk) /\ size = JsInt (Disk.size disk)
     /\ color = Some (Disk.color disk)
     /\ (rod = JsInt (Disk.rod disk) \/ rod = JsUndefined /\ Disk.rod disk = 0)
     /\ (position = PositionAt (fst (Disk.position disk)) (snd (Disk.position disk))
         \/ position = NoPosition /\ Disk.position disk = (0, 0)))
  /\ (forall disk,
        validateDisk disk = true ->
        createDisk (JsInt (Disk.id disk)) (JsInt (Disk.size disk))
          (Some (Disk.color disk))
          (PositionAt (fst (Disk.position disk)) (snd (Disk.position disk)))
          (JsInt (Disk.rod disk))
        = Returns (Disk.mkDisk (Disk.id disk) (Disk.size disk) (Disk.color disk)
                     (Disk.position disk) (Disk.rod disk) false false)).
Proof.
  split.
  - intros id size color position rod disk. unfold createDisk.
    destruct id as [i| |]; try discriminate.
    destruct (i <? 1) eqn:Ei; [discriminate|].
    destruct size as [s| |]; try discriminate.
    destruct (s <? 1) eqn:Es; [discriminate|].
    destruct color as [c|]; [|discriminate].
    destruct (blank c) eqn:Ec; [discriminate|].
    destruct position as [|x y|]; try discriminate;
      destruct rod as [r| |]; try discriminate;
      try (destruct ((r <? 0) || (r >? 2)) eqn:Er; [discriminate|]);
      intros H; inversion H; subst; unfold validateDisk; cbn;
      rewrite ?Ei, ?Es, ?Ec, ?Er; cbn; auto 12.
  - intros [i s c [x y] r sel ani]. unfold validateDisk, createDisk. cbn.
    rewrite !andb_true_iff, !negb_true_iff. intros [[[-> ->] ->] ->]. reflexivity.
Qed.

Lemma createDisk_agrees_with_validateDisk_witness :
  createDisk (JsInt 2) (JsInt 2) (Some "#fd9801"%string) (PositionAt 0 0) (JsInt 1)
  = Returns (Disk.mkDisk 2 2 "#fd9801"%string (0, 0) 1 false false).
Proof.
  apply (proj2 createDisk_agrees_with_validateDisk
           (Disk.mkDisk 2 2 "#fd9801"%string (0, 0) 1 true false)).
  reflexivity.
Defined.
